(** * Thunder: artifact extraction and design-change aggregation

    A shallow embedding of [src/lib/artifactParser.ts] and of the
    [DesignToCodeEngine] class of [src/lib/editableRuntime.ts]
    (imported by [App.tsx] as [lib/designToCode]), with the properties the
    specification states about them.

    JavaScript strings are modelled as lists of 8-bit characters (the code
    units U+0000..U+00FF); regular expressions by a backtracking matcher
    that enumerates the ways a pattern matches in the priority order of
    the ECMAScript semantics. *)

From stdpp Require Import base list.
From Stdlib Require Import Ascii String ZArith Lia.
From Stdlib Require DecimalString.

Set Warnings "-register-all".

Local Open Scope nat_scope.
Local Open Scope list_scope.
Local Abbreviation length := List.length.

(** ** Strings *)

Definition str := list ascii.

(** A string literal of the source. *)
Definition js (s : string) : str := list_ascii_of_string s.

Definition DQ : ascii := "034"%char.   (* the double quote *)
Definition NL : ascii := "010"%char.   (* \n *)
Definition BS : ascii := "092"%char.   (* the backslash *)

Definition code (a : ascii) : nat := nat_of_ascii a.

(** WhiteSpace and LineTerminator code units below U+0100: what [\s] and
    [String.prototype.trim] treat as white space. *)
Definition isSpace (a : ascii) : bool :=
  existsb (Nat.eqb (code a)) [9; 10; 11; 12; 13; 32; 160].

(** [\w] *)
Definition isWord (a : ascii) : bool :=
  let n := code a in
  ((48 <=? n) && (n <=? 57)) || ((65 <=? n) && (n <=? 90))
  || ((97 <=? n) && (n <=? 122)) || (n =? 95).

(** Canonicalize of the [i] flag (no [u] flag): upper-casing, where a
    character above U+007F never folds into ASCII. *)
Definition canon (a : ascii) : ascii :=
  let n := code a in
  if (97 <=? n) && (n <=? 122) then ascii_of_nat (n - 32) else a.

Definition chr_eqb (ci : bool) (a b : ascii) : bool :=
  if ci then Ascii.eqb (canon a) (canon b) else Ascii.eqb a b.

Fixpoint str_eqb (a b : str) : bool :=
  match a, b with
  | [], [] => true
  | x :: a', y :: b' => Ascii.eqb x y && str_eqb a' b'
  | _, _ => false
  end.

(** [lit_prefix ci l s]: [s] starts with the literal [l] (letters compared
    case-insensitively when [ci]). *)
Fixpoint lit_prefix (ci : bool) (l s : str) : bool :=
  match l with
  | [] => true
  | x :: l' =>
      match s with
      | [] => false
      | y :: s' => chr_eqb ci x y && lit_prefix ci l' s'
      end
  end.

(** [String.prototype.includes] *)
Fixpoint includes (s needle : str) : bool :=
  lit_prefix false needle s ||
  match s with
  | [] => false
  | _ :: s' => includes s' needle
  end.

Fixpoint trimStart (s : str) : str :=
  match s with
  | [] => []
  | a :: s' => if isSpace a then trimStart s' else s
  end.

Definition trimEnd (s : str) : str := rev (trimStart (rev s)).

(** [String.prototype.trim] *)
Definition trim (s : str) : str := trimEnd (trimStart s).

(** [s.split(sep)] for a one-character separator. *)
Fixpoint split (sep : ascii) (s : str) : list str :=
  match s with
  | [] => [[]]
  | a :: s' =>
      if Ascii.eqb a sep then [] :: split sep s'
      else match split sep s' with
           | [] => [[a]]
           | p :: ps => (a :: p) :: ps
           end
  end.

(** [parts.join(sep)] *)
Fixpoint join (sep : str) (parts : list str) : str :=
  match parts with
  | [] => []
  | [p] => p
  | p :: ps => p ++ sep ++ join sep ps
  end.

(** ** Regular expressions *)

Module Regex.

(** Character classes used by the patterns of the source. *)
Inductive cclass :=
| CAny                    (* [\s\S] *)
| CWord                   (* \w *)
| CSpace                  (* \s *)
| CIs (c : ascii)         (* a single character *)
| CNot (c : ascii).       (* [^c] *)

Definition cmatch (k : cclass) (a : ascii) : bool :=
  match k with
  | CAny => true
  | CWord => isWord a
  | CSpace => isSpace a
  | CIs c => Ascii.eqb a c
  | CNot c => negb (Ascii.eqb a c)
  end.

(** The fragment of the pattern language the source uses: literals,
    quantified character classes (greedy or lazy), sequence, alternation,
    the greedy optional group and capture groups. *)
Inductive re :=
| Lit (l : str)
| Rep (min : nat) (greedy : bool) (k : cclass)   (* k{min,} or k{min,}? *)
| Seq (a b : re)
| Alt (a b : re)
| Opt (a : re)                                   (* (?:a)? *)
| Group (i : nat) (a : re).                      (* the i-th ( ) *)

Definition Star k := Rep 0 true k.
Definition Plus k := Rep 1 true k.
Definition LazyStar k := Rep 0 false k.

Definition captures := list (nat * str).

(** The value of capture group [i]; [None] is [undefined]. *)
Fixpoint capture (i : nat) (cs : captures) : option str :=
  match cs with
  | [] => None
  | (j, v) :: cs' => if i =? j then Some v else capture i cs'
  end.

(** Length of the longest prefix of [s] inside the class. *)
Fixpoint run (k : cclass) (s : str) : nat :=
  match s with
  | a :: s' => if cmatch k a then S (run k s') else 0
  | [] => 0
  end.

(** The repetition counts a quantifier tries, in the order it tries them. *)
Definition counts (min : nat) (greedy : bool) (n : nat) : list nat :=
  let up := seq min (S n - min) in
  if greedy then rev up else up.

(** One way of matching: what was consumed, what is left, the captures. *)
Definition way := (str * str * captures)%type.

(** All ways in which [r] matches a prefix of [s], in backtracking order:
    the head of the list is the match the engine reports. A greedy
    quantifier tries the largest count first, a lazy one the smallest; an
    optional group is tried before it is skipped, and its capture groups
    stay [undefined] when it is skipped. (The optional groups of the
    source cannot match the empty string, so the rule that rejects an
    empty iteration never applies.) *)
Fixpoint rmatch (ci : bool) (r : re) (s : str) (cs : captures) : list way :=
  match r with
  | Lit l =>
      if lit_prefix ci l s
      then [(firstn (length l) s, skipn (length l) s, cs)]
      else []
  | Rep min greedy k =>
      map (fun j => (firstn j s, skipn j s, cs)) (counts min greedy (run k s))
  | Seq a b =>
      flat_map (fun w1 : way =>
                  let '(c1, r1, cs1) := w1 in
                  map (fun w2 : way =>
                         let '(c2, r2, cs2) := w2 in (c1 ++ c2, r2, cs2))
                      (rmatch ci b r1 cs1))
               (rmatch ci a s cs)
  | Alt a b => rmatch ci a s cs ++ rmatch ci b s cs
  | Opt a => rmatch ci a s cs ++ [([], s, cs)]
  | Group i a =>
      map (fun w : way => let '(c, r', cs') := w in (c, r', (i, c) :: cs'))
          (rmatch ci a s cs)
  end.

Definition first_match (ci : bool) (r : re) (s : str) : option way :=
  head (rmatch ci r s []).

(** A RegExp object: its source text (kept for reference only, with \x22
    written for the double quote), the pattern and the [i] flag. Every
    pattern that is scanned repeatedly has the [g] flag. *)
Record regexp := { source : string; pattern : re; ignoreCase : bool }.

(** The first position at or after the start of [s] where the pattern
    matches; [skipped] counts the positions already passed. *)
Fixpoint search (rx : regexp) (s : str) (skipped : nat)
  : option (nat * way) :=
  match first_match (ignoreCase rx) (pattern rx) s with
  | Some w => Some (skipped, w)
  | None =>
      match s with
      | [] => None
      | _ :: s' => search rx s' (S skipped)
      end
  end.

(** [rx.exec(text)] for a global RegExp whose [lastIndex] is [lastIndex]:
    the match, if any, and the new [lastIndex]. *)
Definition exec (rx : regexp) (text : str) (lastIndex : nat)
  : option way * nat :=
  if length text <? lastIndex then (None, 0)
  else match search rx (skipn lastIndex text) lastIndex with
       | Some (start, (m, rest, cs)) => (Some (m, rest, cs), start + length m)
       | None => (None, 0)
       end.

(** [text.replace(rx, by)] for a global RegExp and a replacement without
    [$] patterns: every match found from left to right is replaced; after
    an empty match the scan advances by one character. [skip] is the
    number of characters still covered by the previous match. *)
Fixpoint replace_from (rx : regexp) (by_ : str) (s : str) (skip : nat) : str :=
  match skip with
  | S n =>
      match s with
      | [] => []
      | _ :: s' => replace_from rx by_ s' n
      end
  | 0 =>
      match first_match (ignoreCase rx) (pattern rx) s with
      | Some (m, _, _) =>
          match s with
          | [] => by_
          | a :: s' =>
              match m with
              | [] => by_ ++ a :: replace_from rx by_ s' 0
              | _ :: m' => by_ ++ replace_from rx by_ s' (length m')
              end
          end
      | None =>
          match s with
          | [] => []
          | a :: s' => a :: replace_from rx by_ s' 0
          end
      end
  end.

Definition replace (rx : regexp) (by_ : str) (s : str) : str :=
  replace_from rx by_ s 0.

End Regex.
Import Regex.

Infix "~>" := Seq (at level 60, right associativity).

(** ** The patterns of [artifactParser.ts] *)

Module PATTERNS.

Definition boltArtifact : regexp :=
  {| source := "/<boltArtifact[^>]*title=\x22([^\x22]*)\x22[^>]*>([\s\S]*?)<\/boltArtifact>/gi";
     pattern :=
       Lit (js "<boltArtifact") ~> Star (CNot ">") ~>
       Lit (js "title=" ++ [DQ]) ~> Group 1 (Star (CNot DQ)) ~> Lit [DQ] ~>
       Star (CNot ">") ~> Lit (js ">") ~>
       Group 2 (LazyStar CAny) ~> Lit (js "</boltArtifact>");
     ignoreCase := true |}.

Definition boltAction : regexp :=
  {| source := "/<boltAction\s+type=\x22(\w+)\x22(?:\s+filePath=\x22([^\x22]+)\x22)?[^>]*>([\s\S]*?)<\/boltAction>/gi";
     pattern :=
       Lit (js "<boltAction") ~> Plus CSpace ~>
       Lit (js "type=" ++ [DQ]) ~> Group 1 (Plus CWord) ~> Lit [DQ] ~>
       Opt (Plus CSpace ~> Lit (js "filePath=" ++ [DQ]) ~>
            Group 2 (Plus (CNot DQ)) ~> Lit [DQ]) ~>
       Star (CNot ">") ~> Lit (js ">") ~>
       Group 3 (LazyStar CAny) ~> Lit (js "</boltAction>");
     ignoreCase := true |}.

Definition lovableFile : regexp :=
  {| source := "/<file\s+path=\x22([^\x22]+)\x22[^>]*>([\s\S]*?)<\/file>/gi";
     pattern :=
       Lit (js "<file") ~> Plus CSpace ~>
       Lit (js "path=" ++ [DQ]) ~> Group 1 (Plus (CNot DQ)) ~> Lit [DQ] ~>
       Star (CNot ">") ~> Lit (js ">") ~>
       Group 2 (LazyStar CAny) ~> Lit (js "</file>");
     ignoreCase := true |}.

Definition cursorBlock : regexp :=
  {| source := "/```(\w+):([^\n]+)\n([\s\S]*?)```/g";
     pattern :=
       Lit (js "```") ~> Group 1 (Plus CWord) ~> Lit (js ":") ~>
       Group 2 (Plus (CNot NL)) ~> Lit [NL] ~>
       Group 3 (LazyStar CAny) ~> Lit (js "```");
     ignoreCase := false |}.

Definition markdownWithPath : regexp :=
  {| source := "/```(\w+)\n(?:\/\/|#|<!--)\s*filepath:\s*([^\n]+)\n([\s\S]*?)```/gi";
     pattern :=
       Lit (js "```") ~> Group 1 (Plus CWord) ~> Lit [NL] ~>
       Alt (Lit (js "//")) (Alt (Lit (js "#")) (Lit (js "<!--"))) ~>
       Star CSpace ~> Lit (js "filepath:") ~> Star CSpace ~>
       Group 2 (Plus (CNot NL)) ~> Lit [NL] ~>
       Group 3 (LazyStar CAny) ~> Lit (js "```");
     ignoreCase := true |}.

Definition markdownBlock : regexp :=
  {| source := "/```(\w+)\n([\s\S]*?)```/g";
     pattern :=
       Lit (js "```") ~> Group 1 (Plus CWord) ~> Lit [NL] ~>
       Group 2 (LazyStar CAny) ~> Lit (js "```");
     ignoreCase := false |}.

Definition newlines3 : regexp :=
  {| source := "/\n{3,}/g";
     pattern := Rep 3 true (CIs NL); ignoreCase := false |}.

Definition exportDecl : regexp :=
  {| source := "/export\s+(?:default\s+)?(?:function|const|class)\s+(\w+)/";
     pattern :=
       Lit (js "export") ~> Plus CSpace ~>
       Opt (Lit (js "default") ~> Plus CSpace) ~>
       Alt (Lit (js "function")) (Alt (Lit (js "const")) (Lit (js "class"))) ~>
       Plus CSpace ~> Group 1 (Plus CWord);
     ignoreCase := false |}.

End PATTERNS.

(** ** JavaScript [Map] with string keys

    A [Map] iterates in insertion order, and [set] on a key that is present
    keeps the key's position: an association list without duplicate keys. *)

Module JSMap.

Definition t (V : Type) := list (str * V).

Definition empty {V} : t V := [].

Fixpoint get {V} (m : t V) (k : str) : option V :=
  match m with
  | [] => None
  | (k', v) :: m' => if str_eqb k k' then Some v else get m' k
  end.

Definition has {V} (m : t V) (k : str) : bool :=
  match get m k with Some _ => true | None => false end.

Fixpoint set {V} (m : t V) (k : str) (v : V) : t V :=
  match m with
  | [] => [(k, v)]
  | (k', v') :: m' =>
      if str_eqb k k' then (k, v) :: m' else (k', v') :: set m' k v
  end.

Definition size {V} (m : t V) : nat := length m.
Definition keys {V} (m : t V) : list str := map fst m.
Definition values {V} (m : t V) : list V := map snd m.

End JSMap.

(** ** types/index.ts *)

Definition FileMap := JSMap.t str.

Record Metadata := { title : option str }.

Record ParsedArtifact := {
  files : FileMap;
  commands : list str;
  metadata : option Metadata
}.

(** ** artifactParser.ts *)

(** The [lastIndex] of each module-level pattern: the mutable state the
    parsing functions share. *)
Record Cursors := {
  li_boltArtifact : nat;
  li_boltAction : nat;
  li_lovableFile : nat;
  li_cursorBlock : nat;
  li_markdownWithPath : nat;
  li_markdownBlock : nat
}.

Definition set_boltArtifact (n : nat) (c : Cursors) : Cursors :=
  {| li_boltArtifact := n; li_boltAction := li_boltAction c;
     li_lovableFile := li_lovableFile c; li_cursorBlock := li_cursorBlock c;
     li_markdownWithPath := li_markdownWithPath c;
     li_markdownBlock := li_markdownBlock c |}.
Definition set_boltAction (n : nat) (c : Cursors) : Cursors :=
  {| li_boltArtifact := li_boltArtifact c; li_boltAction := n;
     li_lovableFile := li_lovableFile c; li_cursorBlock := li_cursorBlock c;
     li_markdownWithPath := li_markdownWithPath c;
     li_markdownBlock := li_markdownBlock c |}.
Definition set_lovableFile (n : nat) (c : Cursors) : Cursors :=
  {| li_boltArtifact := li_boltArtifact c; li_boltAction := li_boltAction c;
     li_lovableFile := n; li_cursorBlock := li_cursorBlock c;
     li_markdownWithPath := li_markdownWithPath c;
     li_markdownBlock := li_markdownBlock c |}.
Definition set_cursorBlock (n : nat) (c : Cursors) : Cursors :=
  {| li_boltArtifact := li_boltArtifact c; li_boltAction := li_boltAction c;
     li_lovableFile := li_lovableFile c; li_cursorBlock := n;
     li_markdownWithPath := li_markdownWithPath c;
     li_markdownBlock := li_markdownBlock c |}.
Definition set_markdownWithPath (n : nat) (c : Cursors) : Cursors :=
  {| li_boltArtifact := li_boltArtifact c; li_boltAction := li_boltAction c;
     li_lovableFile := li_lovableFile c; li_cursorBlock := li_cursorBlock c;
     li_markdownWithPath := n;
     li_markdownBlock := li_markdownBlock c |}.
Definition set_markdownBlock (n : nat) (c : Cursors) : Cursors :=
  {| li_boltArtifact := li_boltArtifact c; li_boltAction := li_boltAction c;
     li_lovableFile := li_lovableFile c; li_cursorBlock := li_cursorBlock c;
     li_markdownWithPath := li_markdownWithPath c;
     li_markdownBlock := n |}.

(** [while ((match = rx.exec(text)) !== null) { body }] on an accumulator,
    from the pattern's current [lastIndex]. Each round calls [exec] once;
    the loop leaves when [exec] answers [null]. A loop that is still
    running when the fuel is spent has no result. *)
Fixpoint exec_loop {A} (fuel : nat) (rx : regexp) (text : str)
    (body : captures -> A -> A) (lastIndex : nat) (acc : A)
  : option (A * nat) :=
  match fuel with
  | 0 => None
  | S fuel' =>
      match exec rx text lastIndex with
      | (Some (_, _, cs), li) => exec_loop fuel' rx text body li (body cs acc)
      | (None, li) => Some (acc, li)
      end
  end.

(** A match advances [lastIndex] by at least one character, so a scan of
    [text] makes at most [length text] matches and one failing call. *)
Definition loop_fuel (text : str) : nat := S (length text).

Definition EXTENSION_MAP : list (str * str) :=
  [ (js "typescript", js "ts"); (js "javascript", js "js");
    (js "typescriptreact", js "tsx"); (js "javascriptreact", js "jsx");
    (js "tsx", js "tsx"); (js "jsx", js "jsx"); (js "ts", js "ts");
    (js "js", js "js"); (js "css", js "css"); (js "html", js "html");
    (js "json", js "json"); (js "md", js "md") ].

(** [EXTENSION_MAP] is an object literal, so a read of a key it does not
    own goes on to [Object.prototype]. The inherited members are functions
    (and the prototype object for [__proto__]): all truthy, so the [||]
    default is not taken. The text is what such a value becomes inside a
    template literal (the native-function rendering of V8). *)
Definition inherited_members : list (str * str) :=
  let native name := js "function " ++ name ++ js "() { [native code] }" in
  (js "constructor", native (js "Object"))
  :: (js "__proto__", js "[object Object]")
  :: map (fun n => (js n, native (js n)))
       [ "__defineGetter__"; "__defineSetter__"; "__lookupGetter__";
         "__lookupSetter__"; "hasOwnProperty"; "isPrototypeOf";
         "propertyIsEnumerable"; "toLocaleString"; "toString";
         "valueOf" ]%string.

(** [`${EXTENSION_MAP[language] || dflt}`] *)
Definition extension (language dflt : str) : str :=
  match JSMap.get EXTENSION_MAP language with
  | Some e => e
  | None =>
      match JSMap.get inherited_members language with
      | Some e => e
      | None => dflt
      end
  end.

(** [code.match(rx)] for a pattern without the [g] flag. *)
Definition str_match (rx : regexp) (s : str) : option captures :=
  match search rx s 0 with
  | Some (_, (_, _, cs)) => Some cs
  | None => None
  end.

Definition inferFilePath (code language : str) : str :=
  if includes code (js "export default function App") then js "src/App.tsx"
  else if includes code (js "createRoot") || includes code (js "ReactDOM.render")
  then js "src/main.tsx"
  else if includes code (js "@tailwind") || includes code (js ":root")
  then js "src/index.css"
  else if includes code (DQ :: js "dependencies" ++ [DQ])
          && includes code (DQ :: js "name" ++ [DQ])
  then js "package.json"
  else if includes code (js "<!DOCTYPE html>") || includes code (js "<html")
  then js "index.html"
  else if includes code (js "defineConfig") && includes code (js "vite")
  then js "vite.config.ts"
  else
    match str_match PATTERNS.exportDecl code with
    | Some cs =>
        let name := default [] (capture 1 cs) in
        let ext := extension language (js "tsx") in
        js "src/components/" ++ name ++ js "." ++ ext
    | None =>
        let ext := extension language (js "txt") in
        js "src/generated." ++ ext
    end.

(** [if (x)] for a string or [undefined]: defined and not empty. *)
Definition truthy_str (x : option str) : bool :=
  match x with
  | Some (_ :: _) => true
  | _ => false
  end.

(** The body of the action loop of [parseBoltFormat] and
    [parseStreamingArtifact], on the pair of [files] and [commands].
    [filePath] is [undefined] when the optional group took no part in
    the match. *)
Definition bolt_body (cs : captures) (acc : FileMap * list str)
  : FileMap * list str :=
  let '(files, commands) := acc in
  let actionType := default [] (capture 1 cs) in
  let filePath := capture 2 cs in
  let content := default [] (capture 3 cs) in
  if str_eqb actionType (js "file") && truthy_str filePath
  then (JSMap.set files (default [] filePath) (trim content), commands)
  else if str_eqb actionType (js "shell")
  then (files, commands ++ [trim content])
  else (files, commands).

(** Every function below takes the cursors it finds and returns the
    cursors it leaves; its result is [None] only if a loop runs out of
    fuel. A JavaScript [null] result is the inner [None]. *)

Definition parseBoltFormat (st : Cursors) (text : str)
  : option (option ParsedArtifact * Cursors) :=
  let st := set_boltArtifact 0 st in
  let '(artifactMatch, li) := exec PATTERNS.boltArtifact text (li_boltArtifact st) in
  let st := set_boltArtifact li st in
  match artifactMatch with
  | None => Some (None, st)
  | Some (_, _, cs) =>
      let title := capture 1 cs in
      let artifactContent := default [] (capture 2 cs) in
      let st := set_boltAction 0 st in
      match exec_loop (loop_fuel artifactContent) PATTERNS.boltAction
              artifactContent bolt_body (li_boltAction st) (JSMap.empty, []) with
      | None => None
      | Some ((files, commands), li) =>
          let st := set_boltAction li st in
          if (JSMap.size files =? 0) && (length commands =? 0)
          then Some (None, st)
          else Some (Some {| files := files; commands := commands;
                             metadata := Some {| title := title |} |}, st)
      end
  end.

Definition files_only (files : FileMap) : option ParsedArtifact :=
  if JSMap.size files =? 0 then None
  else Some {| files := files; commands := []; metadata := None |}.

Definition parseLovableFormat (st : Cursors) (text : str)
  : option (option ParsedArtifact * Cursors) :=
  let st := set_lovableFile 0 st in
  let body cs (files : FileMap) :=
    let filePath := default [] (capture 1 cs) in
    let content := default [] (capture 2 cs) in
    JSMap.set files filePath (trim content) in
  match exec_loop (loop_fuel text) PATTERNS.lovableFile text body
          (li_lovableFile st) JSMap.empty with
  | None => None
  | Some (files, li) => Some (files_only files, set_lovableFile li st)
  end.

(** The loop body shared by [parseCursorFormat] and
    [parseMarkdownWithPath]: [if (filePath) files.set(filePath.trim(),
    content.trim())]. *)
Definition path_body (cs : captures) (files : FileMap) : FileMap :=
  let filePath := capture 2 cs in
  let content := default [] (capture 3 cs) in
  if truthy_str filePath
  then JSMap.set files (trim (default [] filePath)) (trim content)
  else files.

Definition parseCursorFormat (st : Cursors) (text : str)
  : option (option ParsedArtifact * Cursors) :=
  let st := set_cursorBlock 0 st in
  match exec_loop (loop_fuel text) PATTERNS.cursorBlock text path_body
          (li_cursorBlock st) JSMap.empty with
  | None => None
  | Some (files, li) => Some (files_only files, set_cursorBlock li st)
  end.

Definition parseMarkdownWithPath (st : Cursors) (text : str)
  : option (option ParsedArtifact * Cursors) :=
  let st := set_markdownWithPath 0 st in
  match exec_loop (loop_fuel text) PATTERNS.markdownWithPath text path_body
          (li_markdownWithPath st) JSMap.empty with
  | None => None
  | Some (files, li) => Some (files_only files, set_markdownWithPath li st)
  end.

Definition skipped_languages : list str :=
  [js "text"; js "bash"; js "shell"; js "sh"; js "console"].

Definition markdown_body (cs : captures) (files : FileMap) : FileMap :=
  let language := default [] (capture 1 cs) in
  let content := default [] (capture 2 cs) in
  if existsb (str_eqb language) skipped_languages then files
  else
    let filePath := inferFilePath content language in
    JSMap.set files filePath (trim content).

Definition parseMarkdownBlocks (st : Cursors) (text : str)
  : option (option ParsedArtifact * Cursors) :=
  let st := set_markdownBlock 0 st in
  match exec_loop (loop_fuel text) PATTERNS.markdownBlock text markdown_body
          (li_markdownBlock st) JSMap.empty with
  | None => None
  | Some (files, li) => Some (files_only files, set_markdownBlock li st)
  end.

(** [if (result && result.files.size > 0)] *)
Definition accepted (r : option ParsedArtifact) : bool :=
  match r with
  | Some a => 0 <? JSMap.size (files a)
  | None => false
  end.

Definition empty_artifact : ParsedArtifact :=
  {| files := JSMap.empty; commands := []; metadata := None |}.

(** Try one format and go on to [next] if its result is not accepted. *)
Definition try_format
    (parse : Cursors -> str -> option (option ParsedArtifact * Cursors))
    (next : Cursors -> str -> option (ParsedArtifact * Cursors))
    (st : Cursors) (text : str) : option (ParsedArtifact * Cursors) :=
  match parse st text with
  | None => None
  | Some (r, st') =>
      if accepted r then Some (default empty_artifact r, st')
      else next st' text
  end.

Definition parseArtifact : Cursors -> str -> option (ParsedArtifact * Cursors) :=
  try_format parseBoltFormat
    (try_format parseLovableFormat
       (try_format parseCursorFormat
          (try_format parseMarkdownWithPath
             (try_format parseMarkdownBlocks
                (fun st _ => Some (empty_artifact, st)))))).

(** [Partial<ParsedArtifact>] as [parseStreamingArtifact] builds it:
    files and commands, no metadata. *)
Definition parseStreamingArtifact (st : Cursors) (text : str)
  : option (ParsedArtifact * Cursors) :=
  let st := set_boltAction 0 st in
  match exec_loop (loop_fuel text) PATTERNS.boltAction text bolt_body
          (li_boltAction st) (JSMap.empty, []) with
  | None => None
  | Some ((files, commands), li) =>
      Some ({| files := files; commands := commands; metadata := None |},
            set_boltAction li st)
  end.

(** [extractMessage]: [replace] with a global pattern starts from
    [lastIndex = 0] and leaves [lastIndex = 0]. *)
Definition extractMessage (st : Cursors) (text : str) : str * Cursors :=
  let message :=
    trim (replace PATTERNS.markdownBlock []
            (replace PATTERNS.cursorBlock []
               (replace PATTERNS.lovableFile []
                  (replace PATTERNS.boltArtifact [] text)))) in
  let st := set_markdownBlock 0 (set_cursorBlock 0
              (set_lovableFile 0 (set_boltArtifact 0 st))) in
  (replace PATTERNS.newlines3 [NL; NL] message, st).

Definition cursors0 : Cursors :=
  {| li_boltArtifact := 0; li_boltAction := 0; li_lovableFile := 0;
     li_cursorBlock := 0; li_markdownWithPath := 0; li_markdownBlock := 0 |}.

(** ** [fileMapToTree]

    The function builds [FileNode] objects and [Map] objects and mutates
    them through references ([currentLevel], [folder]); the store keeps
    every object under the reference it was allocated with, so that two
    references to one object see each other's writes. *)

Module FileTree.

Inductive NodeType := file | folder.

(** A [FileNode] object; [children] holds references. *)
Record NodeObj := {
  name : str;
  type : NodeType;
  path : str;
  content : option str;
  children : option (list nat)
}.

Definition set_children (c : option (list nat)) (n : NodeObj) : NodeObj :=
  {| name := name n; type := type n; path := path n; content := content n;
     children := c |}.

Record Store := {
  nodes : list NodeObj;            (* FileNode objects by reference *)
  maps : list (JSMap.t nat)        (* Map<string, FileNode> objects by reference *)
}.

Definition store0 : Store := {| nodes := []; maps := [[]] |}.

(** The reference of the [root] map in [store0]. *)
Definition root : nat := 0.

Definition map_of (st : Store) (m : nat) : JSMap.t nat := default [] (maps st !! m).

Definition new_node (st : Store) (n : NodeObj) : Store * nat :=
  ({| nodes := nodes st ++ [n]; maps := maps st |}, length (nodes st)).

Definition new_map (st : Store) : Store * nat :=
  ({| nodes := nodes st; maps := maps st ++ [[]] |}, length (maps st)).

(** [m.set(k, node)] on the map object [m] *)
Definition map_set (st : Store) (m : nat) (k : str) (node : nat) : Store :=
  {| nodes := nodes st;
     maps := <[m := JSMap.set (map_of st m) k node]> (maps st) |}.

(** [node.children = c] on the node object [node] *)
Definition write_children (st : Store) (node : nat) (c : list nat) : Store :=
  {| nodes := alter (set_children (Some c)) node (nodes st);
     maps := maps st |}.

Definition children_of (st : Store) (node : nat) : option (list nat) :=
  match nodes st !! node with
  | Some n => children n
  | None => None
  end.

Definition name_of (st : Store) (node : nat) : str :=
  match nodes st !! node with
  | Some n => name n
  | None => []
  end.

(** One round of the inner [for] loop, for segment [i] of [parts]:
    the store and [currentLevel] before, and after. *)
Definition segment (files : FileMap) (path_ : str) (parts : list str)
    (acc : Store * nat) (i : nat) : Store * nat :=
  let '(st, currentLevel) := acc in
  let part := default [] (parts !! i) in
  let isFile := i =? length parts - 1 in
  let currentPath := join (js "/") (firstn (i + 1) parts) in
  let st :=
    if JSMap.has (map_of st currentLevel) part then st
    else
      let '(st, node) :=
        new_node st {| name := part;
                       type := if isFile then file else folder;
                       path := currentPath;
                       content := if isFile then JSMap.get files path_ else None;
                       children := if isFile then None else Some [] |} in
      map_set st currentLevel part node in
  if isFile then (st, currentLevel)
  else
    match JSMap.get (map_of st currentLevel) part with
    | None => (st, currentLevel)       (* not reached: the key was just set *)
    | Some folder_ =>
        let st :=
          match children_of st folder_ with
          | None => write_children st folder_ []
          | Some _ => st
          end in
        (* Create a map for next level *)
        let '(st, nextLevel) := new_map st in
        let st :=
          fold_left (fun st child => map_set st nextLevel (name_of st child) child)
                    (default [] (children_of st folder_)) st in
        (* Update children array *)
        let st := write_children st folder_ (JSMap.values (map_of st nextLevel)) in
        (st, nextLevel)
    end.

(** The body of the outer loop for one key of [files]. *)
Definition add_path (files : FileMap) (st : Store) (path_ : str) : Store :=
  let parts := split "/" path_ in
  fst (fold_left (segment files path_ parts) (seq 0 (length parts)) (st, root)).

(** The array the function returns, as a value: the objects reachable from
    the returned references. *)
Inductive FileNode :=
| Node (name : str) (type : NodeType) (path : str) (content : option str)
       (children : option (list FileNode)).

Fixpoint reify (fuel : nat) (st : Store) (node : nat) : option FileNode :=
  match fuel with
  | 0 => None
  | S fuel' =>
      match nodes st !! node with
      | None => None
      | Some n =>
          match children n with
          | None => Some (Node (name n) (type n) (path n) (content n) None)
          | Some cs =>
              match mapM (reify fuel' st) cs with
              | Some cs' =>
                  Some (Node (name n) (type n) (path n) (content n) (Some cs'))
              | None => None
              end
          end
      end
  end.

(** [fileMapToTree]; [None] only if the objects built were cyclic. *)
Definition fileMapToTree (files : FileMap) : option (list FileNode) :=
  let st := fold_left (add_path files) (JSMap.keys files) store0 in
  mapM (reify (S (length (nodes st))) st) (JSMap.values (map_of st root)).

(** A full traversal of a tree that collects the path of every file node,
    descending into children as the file count of [FileExplorer.tsx]
    does. *)
Fixpoint file_paths (n : FileNode) : list str :=
  match n with
  | Node _ file p _ _ => [p]
  | Node _ folder _ _ (Some cs) => flat_map file_paths cs
  | Node _ folder _ _ None => []
  end.

Definition flatten (tree : list FileNode) : list str := flat_map file_paths tree.

(** Every folder node of a tree, with its path. *)
Fixpoint folder_paths (n : FileNode) : list str :=
  match n with
  | Node _ file _ _ _ => []
  | Node _ folder p _ (Some cs) => p :: flat_map folder_paths cs
  | Node _ folder p _ None => [p]
  end.

End FileTree.

(** ** FileExplorer.tsx

    The file count that the footer of the explorer shows for the tree it
    is given: [count] adds one for a file node and descends into the
    children of any other node that has some. *)

Fixpoint fileCount_node (n : FileTree.FileNode) : nat :=
  match n with
  | FileTree.Node _ FileTree.file _ _ _ => 1
  | FileTree.Node _ FileTree.folder _ _ (Some cs) =>
      fold_left (fun acc c => acc + fileCount_node c) cs 0
  | FileTree.Node _ FileTree.folder _ _ None => 0
  end.

Definition fileCount (nodes : list FileTree.FileNode) : nat :=
  fold_left (fun acc n => acc + fileCount_node n) nodes 0.

(** ** JavaScript values of a change payload

    [change.change] is a [Record<string, unknown>]; the values the model
    covers are the JSON values and [undefined]. A number [Num n] is the
    integer [n], for [n] of magnitude at most 2^53: these are the
    integers that a number holds exactly, and on them the text of a
    number is its decimal expansion, which is [of_Z]. Fractions, [NaN],
    the infinities and larger magnitudes (printed rounded, and with an
    exponent from 10^21 on) are outside the model. The properties of an
    object are listed in the order in which [Object.entries] enumerates
    them. *)

Module JSValue.

Inductive t :=
| Undefined
| Null
| Bool (b : bool)
| Num (n : Z)
| Str (s : str)
| Arr (items : list t)
| Obj (props : list (str * t)).

Definition of_Z (n : Z) : str :=
  list_ascii_of_string (DecimalString.NilZero.string_of_int (Z.to_int n)).

(** ToBoolean *)
Definition truthy (v : t) : bool :=
  match v with
  | Undefined | Null => false
  | Bool b => b
  | Num n => negb (n =? 0)%Z
  | Str s => negb (str_eqb s [])
  | Arr _ | Obj _ => true
  end.

(** ToString, as a template literal applies it. *)
Fixpoint toString (v : t) : str :=
  match v with
  | Undefined => js "undefined"
  | Null => js "null"
  | Bool true => js "true"
  | Bool false => js "false"
  | Num n => of_Z n
  | Str s => s
  | Arr items =>
      join (js ",")
        (map (fun x => match x with
                       | Undefined | Null => []
                       | _ => toString x
                       end) items)
  | Obj _ => js "[object Object]"
  end.

Definition hex_digit (n : nat) : ascii :=
  nth n (js "0123456789abcdef") "0"%char.

(** QuoteJSONString on one character. *)
Definition quote_char (a : ascii) : str :=
  let n := code a in
  if Ascii.eqb a DQ then [BS; DQ]
  else if Ascii.eqb a BS then [BS; BS]
  else if n =? 8 then js "\b"
  else if n =? 9 then js "\t"
  else if n =? 10 then js "\n"
  else if n =? 12 then js "\f"
  else if n =? 13 then js "\r"
  else if n <? 32 then js "\u00" ++ [hex_digit (n / 16); hex_digit (n mod 16)]
  else [a].

Definition quote (s : str) : str := DQ :: flat_map quote_char s ++ [DQ].

(** [JSON.stringify(v)] without indentation; [None] is [undefined]. *)
Fixpoint stringify (v : t) : option str :=
  match v with
  | Undefined => None
  | Null => Some (js "null")
  | Bool true => Some (js "true")
  | Bool false => Some (js "false")
  | Num n => Some (of_Z n)
  | Str s => Some (quote s)
  | Arr items =>
      Some (js "[" ++
            join (js ",") (map (fun x => default (js "null") (stringify x)) items)
            ++ js "]")
  | Obj props =>
      Some (js "{" ++
            join (js ",")
              (flat_map (fun kv : str * t =>
                           match stringify (snd kv) with
                           | Some s => [quote (fst kv) ++ js ":" ++ s]
                           | None => []
                           end) props)
            ++ js "}")
  end.

(** [o.k] for an object given by its properties. *)
Definition prop (o : list (str * t)) (k : str) : t :=
  default Undefined (JSMap.get o k).

(** [a || b] *)
Definition or (a b : t) : t := if truthy a then a else b.

End JSValue.

(** ** The change aggregator: [DesignToCodeEngine] *)

Module Engine.

Import JSValue.

Record DesignChange := {
  type : str;                      (* 'style' | 'content' | 'prop' | 'add' | 'delete' | 'move' *)
  elementId : str;
  file : str;
  component : option str;
  change : list (str * JSValue.t);
  timestamp : Z
}.

(** [groupChangesByFile] *)
Definition groupChangesByFile (changes : list DesignChange)
  : JSMap.t (list DesignChange) :=
  fold_left (fun grouped c =>
               let existing := default [] (JSMap.get grouped (file c)) in
               JSMap.set grouped (file c) (existing ++ [c]))
            changes JSMap.empty.

Definition elementRef (c : DesignChange) : str :=
  match component c with
  | Some comp =>
      if str_eqb comp [] then elementId c
      else comp ++ js " (" ++ elementId c ++ js ")"
  | None => elementId c
  end.

(** [describeChange] *)
Definition describeChange (c : DesignChange) : str :=
  let ref := [DQ] ++ elementRef c ++ [DQ] in
  if str_eqb (type c) (js "style") then
    let styles :=
      join (js ", ")
        (map (fun kv : str * JSValue.t => fst kv ++ js ": " ++ toString (snd kv))
             (change c)) in
    js "Change styles of " ++ ref ++ js " to: " ++ styles
  else if str_eqb (type c) (js "content") then
    let content := or (prop (change c) (js "text")) (prop (change c) (js "content")) in
    js "Change content of " ++ ref ++ js " to: " ++ [DQ] ++ toString content ++ [DQ]
  else if str_eqb (type c) (js "prop") then
    let props :=
      join (js ", ")
        (map (fun kv : str * JSValue.t =>
                fst kv ++ js "=" ++ [DQ] ++ toString (snd kv) ++ [DQ])
             (change c)) in
    js "Update props of " ++ ref ++ js ": " ++ props
  else if str_eqb (type c) (js "add") then
    let elementType := or (prop (change c) (js "type")) (Str (js "element")) in
    js "Add new " ++ toString elementType ++ js " inside " ++ ref
  else if str_eqb (type c) (js "delete") then
    js "Remove element " ++ ref
  else if str_eqb (type c) (js "move") then
    let target := prop (change c) (js "target") in
    let position := or (prop (change c) (js "position")) (Str (js "inside")) in
    js "Move " ++ ref ++ js " " ++ toString position ++ js " "
      ++ [DQ] ++ toString target ++ [DQ]
  else
    js "Update " ++ ref ++ js ": "
      ++ default (js "undefined") (stringify (Obj (change c))).


(** [buildPrompt] *)
Definition buildPrompt (changesByFile : JSMap.t (list DesignChange)) : str :=
  let parts :=
    [js "Apply the following design changes to the code:"; []]
    ++ flat_map (fun fc : str * list DesignChange =>
                   [js "## File: " ++ fst fc; []]
                   ++ map (fun c => js "- " ++ describeChange c) (snd fc)
                   ++ [[]])
                changesByFile
    ++ [js "Return the updated code using the boltArtifact format. Only include files that changed."] in
  join [NL] parts.

(** What a call of [onSendToAI] does: it throws before returning, or it
    returns a promise, which settles later. *)
Inductive SendOutcome := Throws | ReturnsPromise.

(** The engine object together with what it acts on: the timers it has
    scheduled and the calls of its callbacks. The length of the debounce
    delay is not modelled: a scheduled timer fires at any later point, or
    is cleared before it does. *)
Record World := {
  (* fields of the engine *)
  pendingChanges : list DesignChange;
  debounceTimer : option nat;
  isProcessing : bool;
  (* options of the constructor *)
  hasInstantPreview : bool;
  hasOnError : bool;
  (* timers: the handles scheduled and neither fired nor cleared *)
  timers : list nat;
  nextHandle : nat;
  (* calls of the callbacks, oldest first *)
  sent : list (str * list DesignChange);     (* onSendToAI: prompt, and the batch it was built from *)
  awaiting : list str;                       (* calls of onSendToAI whose promise has not settled *)
  previews : list (str * list (str * JSValue.t));
  errors : nat
}.

Definition upd_engine (w : World) (p : list DesignChange) (t : option nat)
    (b : bool) : World :=
  {| pendingChanges := p; debounceTimer := t; isProcessing := b;
     hasInstantPreview := hasInstantPreview w; hasOnError := hasOnError w;
     timers := timers w; nextHandle := nextHandle w; sent := sent w;
     awaiting := awaiting w; previews := previews w; errors := errors w |}.

Definition upd_timers (w : World) (ts : list nat) (next : nat) : World :=
  {| pendingChanges := pendingChanges w; debounceTimer := debounceTimer w;
     isProcessing := isProcessing w;
     hasInstantPreview := hasInstantPreview w; hasOnError := hasOnError w;
     timers := ts; nextHandle := next; sent := sent w;
     awaiting := awaiting w; previews := previews w; errors := errors w |}.

Definition upd_calls (w : World) (s : list (str * list DesignChange))
    (a : list str) (p : list (str * list (str * JSValue.t))) (e : nat) : World :=
  {| pendingChanges := pendingChanges w; debounceTimer := debounceTimer w;
     isProcessing := isProcessing w;
     hasInstantPreview := hasInstantPreview w; hasOnError := hasOnError w;
     timers := timers w; nextHandle := nextHandle w; sent := s;
     awaiting := a; previews := p; errors := e |}.

(** [new DesignToCodeEngine(options)]; timer handles are positive. *)
Definition create (instantPreview onError : bool) : World :=
  {| pendingChanges := []; debounceTimer := None; isProcessing := false;
     hasInstantPreview := instantPreview; hasOnError := onError;
     timers := []; nextHandle := 1; sent := []; awaiting := [];
     previews := []; errors := 0 |}.

Definition remove_timer (h : nat) (ts : list nat) : list nat :=
  filter (fun t => negb (t =? h)) ts.

(** [if (this.debounceTimer) clearTimeout(this.debounceTimer)] *)
Definition clearDebounce (w : World) : World :=
  match debounceTimer w with
  | Some h => upd_timers w (remove_timer h (timers w)) (nextHandle w)
  | None => w
  end.

(** [this.onError?.(...)] *)
Definition callOnError (w : World) : World :=
  if hasOnError w
  then upd_calls w (sent w) (awaiting w) (previews w) (S (errors w))
  else w.

Section Callbacks.

(** How [onSendToAI] behaves on a prompt. *)
Variable onSendToAI : str -> SendOutcome.

(** [processChanges] up to its [await]. *)
Definition processChanges (w : World) : World :=
  if isProcessing w || (length (pendingChanges w) =? 0) then w
  else
    let w := upd_engine w (pendingChanges w) (debounceTimer w) true in
    let changes := pendingChanges w in
    let w := upd_engine w [] (debounceTimer w) (isProcessing w) in
    let changesByFile := groupChangesByFile changes in
    let prompt := buildPrompt changesByFile in
    match onSendToAI prompt with
    | ReturnsPromise =>
        upd_calls w (sent w ++ [(prompt, changes)]) (awaiting w ++ [prompt])
          (previews w) (errors w)
    | Throws =>
        let w := upd_calls w (sent w ++ [(prompt, changes)]) (awaiting w)
                   (previews w) (errors w) in
        let w := callOnError w in
        upd_engine w (pendingChanges w) (debounceTimer w) false
    end.

(** [processChanges] after its [await]: the promise settled, fulfilled
    ([ok]) or rejected. *)
Definition resume (ok : bool) (w : World) : World :=
  let w := upd_calls w (sent w) (tl (awaiting w)) (previews w) (errors w) in
  let w := if ok then w else callOnError w in
  upd_engine w (pendingChanges w) (debounceTimer w) false.

(** [queueChange(change)] when [Date.now()] is [now]. *)
Definition queueChange (c : DesignChange) (now : Z) (w : World) : World :=
  let fullChange :=
    {| type := type c; elementId := elementId c; file := file c;
       component := component c; change := change c; timestamp := now |} in
  let w := upd_engine w (pendingChanges w ++ [fullChange]) (debounceTimer w)
             (isProcessing w) in
  let w :=
    if str_eqb (type c) (js "style") && hasInstantPreview w
    then upd_calls w (sent w) (awaiting w)
           (previews w ++ [(elementId c, change c)]) (errors w)
    else w in
  let w := clearDebounce w in
  let h := nextHandle w in
  let w := upd_timers w (timers w ++ [h]) (S h) in
  upd_engine w (pendingChanges w) (Some h) (isProcessing w).

Definition flush (w : World) : World :=
  let w :=
    match debounceTimer w with
    | Some _ => upd_engine (clearDebounce w) (pendingChanges w) None (isProcessing w)
    | None => w
    end in
  processChanges w.

Definition clear (w : World) : World :=
  let w :=
    match debounceTimer w with
    | Some _ => upd_engine (clearDebounce w) (pendingChanges w) None (isProcessing w)
    | None => w
    end in
  upd_engine w [] (debounceTimer w) (isProcessing w).

Definition getPendingCount (w : World) : nat := length (pendingChanges w).
Definition getIsProcessing (w : World) : bool := isProcessing w.

(** What can happen to the engine. *)
Inductive Event :=
| QueueChange (c : DesignChange) (now : Z)
| Flush
| Clear
| TimerFires (h : nat)          (* the debounce delay of timer [h] has passed *)
| Settles (ok : bool).          (* the oldest pending promise of onSendToAI settles *)

(** One event; [None] when the event cannot happen in [w] (a timer that is
    not scheduled, no promise to settle). *)
Definition step (w : World) (e : Event) : option World :=
  match e with
  | QueueChange c now => Some (queueChange c now w)
  | Flush => Some (flush w)
  | Clear => Some (clear w)
  | TimerFires h =>
      if existsb (Nat.eqb h) (timers w)
      then Some (processChanges (upd_timers w (remove_timer h (timers w)) (nextHandle w)))
      else None
  | Settles ok =>
      match awaiting w with
      | [] => None
      | _ :: _ => Some (resume ok w)
      end
  end.

Fixpoint run (w : World) (es : list Event) : option World :=
  match es with
  | [] => Some w
  | e :: es' =>
      match step w e with
      | Some w' => run w' es'
      | None => None
      end
  end.

End Callbacks.

End Engine.

(** ** App.tsx: the files of the project after a response *)

Definition runtime_path : str := js "public/editable-runtime.js".

(** [handleSendMessage], in the branch [artifact.files.size > 0]: from
    the files the project has, the files of the artifact, the base
    project that [createViteReactProject] returns and the runtime script
    that [getEditableRuntimeFile] returns, the map [newFiles] that is
    loaded. *)
Definition mergeFiles (files artifactFiles baseProject : FileMap) (runtime : str)
  : FileMap :=
  (* const newFiles = new Map(files) *)
  let newFiles := files in
  (* Keep base project files *)
  let newFiles :=
    fold_left (fun (newFiles : FileMap) (pc : str * str) =>
                 if negb (JSMap.has newFiles (fst pc))
                    && negb (JSMap.has artifactFiles (fst pc))
                 then JSMap.set newFiles (fst pc) (snd pc)
                 else newFiles)
              baseProject newFiles in
  (* Add/update files from artifact *)
  let newFiles :=
    fold_left (fun (newFiles : FileMap) (pc : str * str) =>
                 JSMap.set newFiles (fst pc) (snd pc))
              artifactFiles newFiles in
  (* Keep editable runtime *)
  JSMap.set newFiles runtime_path runtime.

(** ** useWebContainer.ts: the log of the container *)

Definition MAX_LOGS : nat := 100.

(** [a.slice(-n)], for [n] that is not zero *)
Definition slice_last {A} (n : nat) (a : list A) : list A :=
  skipn (length a - n) a.

(** The state update of [addLog]: the new log is appended and the last
    [MAX_LOGS] entries are kept. *)
Definition addLog {A} (prev : list A) (log : A) : list A :=
  let newLogs := prev ++ [log] in
  if MAX_LOGS <? length newLogs then slice_last MAX_LOGS newLogs else newLogs.

(** * Definitions used by the statements *)

(** ** Matching *)

(** The least number of characters a match of the pattern consumes. *)
Fixpoint min_len (r : re) : nat :=
  match r with
  | Lit l => length l
  | Rep min _ _ => min
  | Seq a b => min_len a + min_len b
  | Alt a b => Nat.min (min_len a) (min_len b)
  | Opt _ => 0
  | Group _ a => min_len a
  end.

(** The pattern matches nowhere in the text. *)
Definition no_match (rx : regexp) (text : str) : Prop :=
  search rx text 0 = None.

(** The captures of the successive matches the [exec] loop finds in the
    text, from [lastIndex = 0]. *)
Definition matches (rx : regexp) (text : str) : option (list captures) :=
  option_map fst
    (exec_loop (loop_fuel text) rx text (fun cs l => l ++ [cs]) 0 []).

(** [deletes rx s out]: [out] is [s] without the matches of [rx] that a
    scan from left to right finds, each match starting where no earlier
    one covers it. *)
Inductive deletes (rx : regexp) : str -> str -> Prop :=
| deletes_end :
    first_match (ignoreCase rx) (pattern rx) [] = None ->
    deletes rx [] []
| deletes_keep a s out :
    first_match (ignoreCase rx) (pattern rx) (a :: s) = None ->
    deletes rx s out ->
    deletes rx (a :: s) (a :: out)
| deletes_match m rest cs out :
    first_match (ignoreCase rx) (pattern rx) (m ++ rest) = Some (m, rest, cs) ->
    m <> [] ->
    deletes rx rest out ->
    deletes rx (m ++ rest) out.

(** A text in which every run of newlines is cut down to two at most:
    [seen] counts the newlines of the current run already kept. *)
Fixpoint collapse (seen : nat) (s : str) : str :=
  match s with
  | [] => []
  | a :: s' =>
      if Ascii.eqb a NL
      then if seen <? 2 then a :: collapse (S seen) s' else collapse seen s'
      else a :: collapse 0 s'
  end.

(** No white space at either end. *)
Definition trimmed (s : str) : Prop :=
  match s with
  | [] => True
  | a :: _ => isSpace a = false /\ isSpace (List.last s a) = false
  end.



(** The files and commands that the action loop draws from a list of
    action matches. *)
Definition extraction (actions : list captures) : FileMap * list str :=
  fold_left (fun acc a => bolt_body a acc) actions (JSMap.empty, []).




(** The way the engine reports: the head of the list of ways. *)
Definition first_way (ci : bool) (r : re) (s : str) (cs : captures) : option way :=
  head (rmatch ci r s cs).

(** A way of the rest of a sequence, seen from the start of the sequence:
    [c] was consumed before it. *)
Definition prepend (c : str) (w : way) : way :=
  let '(c2, rest, cs) := w in (c ++ c2, rest, cs).

(** The literal occurs somewhere in the string. *)
Fixpoint occurs (ci : bool) (l s : str) : bool :=
  lit_prefix ci l s ||
  match s with
  | [] => false
  | _ :: s' => occurs ci l s'
  end.

(** ** The text of the formats *)

Module Format.

(** [<boltAction type="file" filePath="p">body</boltAction>] *)
Definition file_action (p body : str) : str :=
  js "<boltAction type=" ++ [DQ] ++ js "file" ++ [DQ]
  ++ js " filePath=" ++ [DQ] ++ p ++ [DQ] ++ js ">" ++ body ++ js "</boltAction>".

(** [<boltAction type="shell">body</boltAction>] *)
Definition shell_action (body : str) : str :=
  js "<boltAction type=" ++ [DQ] ++ js "shell" ++ [DQ] ++ js ">" ++ body
  ++ js "</boltAction>".

(** [<boltArtifact title="t">body</boltArtifact>] *)
Definition artifact (t body : str) : str :=
  js "<boltArtifact title=" ++ [DQ] ++ t ++ [DQ] ++ js ">" ++ body
  ++ js "</boltArtifact>".

(** A fenced block: three backticks, the language, a newline, the body,
    three backticks. *)
Definition fenced (language body : str) : str :=
  js "```" ++ language ++ [NL] ++ body ++ js "```".

(** What a structured-artifact container holds: file actions and shell
    actions. *)
Inductive action :=
| FileAction (path content : str)
| ShellAction (content : str).

Definition render (a : action) : str :=
  match a with
  | FileAction p c => file_action p c
  | ShellAction c => shell_action c
  end.

(** The captures of the match of an action. *)
Definition action_captures (a : action) : captures :=
  match a with
  | FileAction p c => [(3, c); (2, p); (1, js "file")]
  | ShellAction c => [(3, c); (1, js "shell")]
  end.

(** The body of a container: the actions, each followed by the text up to
    the next one, after the text [g0] before the first. *)
Definition body_of (g0 : str) (items : list (action * str)) : str :=
  g0 ++ flat_map (fun ag => render (fst ag) ++ snd ag) items.

(** A path is not empty and has no double quote; the body of an action
    does not contain the closing tag of actions. *)
Definition action_ok (a : action) : bool :=
  match a with
  | FileAction p c =>
      negb (str_eqb p []) && forallb (cmatch (CNot DQ)) p
      && negb (occurs true (js "</boltAction>") c)
  | ShellAction c => negb (occurs true (js "</boltAction>") c)
  end.

(** The text between actions does not contain the opening of an action. *)
Definition gap_ok (g : str) : bool := negb (occurs true (js "<boltAction") g).

(** A title has no double quote, and the literal [title=] followed by a
    double quote does not occur in the title followed by its closing
    quote: the title does not end in [title=]. *)
Definition title_ok (t : str) : bool :=
  forallb (cmatch (CNot DQ)) t
  && negb (occurs true (js "title=" ++ [DQ]) (t ++ [DQ])).

(** The files and the commands of the actions: later file actions
    overwrite earlier ones of the same path, commands keep their order. *)
Definition files_of (items : list (action * str)) : FileMap :=
  fold_left (fun fs ag => match fst ag with
                          | FileAction p c => JSMap.set fs p (trim c)
                          | ShellAction _ => fs
                          end) items JSMap.empty.

Definition commands_of (items : list (action * str)) : list str :=
  flat_map (fun ag => match fst ag with
                      | FileAction _ _ => []
                      | ShellAction c => [trim c]
                      end) items.

End Format.

(** [scan rx s ms]: the matches of [rx] that a scan of [s] from left to
    right finds have the captures [ms]. Each match starts at the first
    position, after the match before it, where the pattern matches. *)
Inductive scan (rx : regexp) : str -> list captures -> Prop :=
| scan_end s :
    (forall i, i <= length s ->
       first_match (ignoreCase rx) (pattern rx) (skipn i s) = None) ->
    scan rx s []
| scan_hit g m rest cs ms :
    (forall i, i < length g ->
       first_match (ignoreCase rx) (pattern rx) (skipn i (g ++ m ++ rest)) = None) ->
    first_match (ignoreCase rx) (pattern rx) (m ++ rest) = Some (m, rest, cs) ->
    scan rx rest ms ->
    scan rx (g ++ m ++ rest) (cs :: ms).

(** ** Example inputs *)

Module Examples.

Import Format.

(** Two file actions with distinct paths and one shell action. *)
Definition three_actions : str :=
  [NL] ++ file_action (js "a.ts") (js "A") ++ [NL]
  ++ file_action (js "b.ts") (js "B") ++ [NL]
  ++ shell_action (js "npm i") ++ [NL].



Definition message_text : str :=
  js "Here you go:" ++ [NL; NL] ++ fenced (js "js") (js "let x = 1" ++ [NL])
  ++ [NL; NL] ++ js "Done!".



(** The response of [message_text], its block naming its path in a
    comment, and the path holding three backticks. *)
Definition fence_in_path : str :=
  js "Here you go:" ++ [NL; NL]
  ++ js "```js" ++ [NL] ++ js "// filepath: a```b.js" ++ [NL]
  ++ js "let x = 1" ++ [NL] ++ js "```"
  ++ [NL; NL] ++ js "Done!".

Definition nested_files : FileMap := [(js "src/App.tsx", js "x")].

Definition mixed_files : FileMap :=
  [(js "src/App.tsx", js "x"); (js "README.md", js "r");
   (js "src/lib/util.ts", js "y")].

Definition style_change : Engine.DesignChange :=
  {| Engine.type := js "style"; Engine.elementId := js "btn-1";
     Engine.file := js "src/App.jsx"; Engine.component := None;
     Engine.change := [(js "color", JSValue.Str (js "#fff"))];
     Engine.timestamp := 0 |}.

(** A content change whose payload has neither [text] nor [content]. *)
Definition content_change : Engine.DesignChange :=
  {| Engine.type := js "content"; Engine.elementId := js "title-1";
     Engine.file := js "src/App.jsx"; Engine.component := None;
     Engine.change := []; Engine.timestamp := 0 |}.

(** A move change whose payload has no [target]. *)
Definition move_change : Engine.DesignChange :=
  {| Engine.type := js "move"; Engine.elementId := js "card-2";
     Engine.file := js "src/App.jsx"; Engine.component := Some (js "Card");
     Engine.change := [(js "position", JSValue.Str (js "before"))];
     Engine.timestamp := 0 |}.

Definition pending_promise (_ : str) : Engine.SendOutcome := Engine.ReturnsPromise.

(** A change is queued while the first submission is in flight, its
    debounce timer (handle 2) fires, then the submission completes. *)
Definition stranding_trace : list Engine.Event :=
  [ Engine.QueueChange style_change 1; Engine.Flush;
    Engine.QueueChange content_change 2; Engine.TimerFires 2;
    Engine.Settles true ].

End Examples.

(** ** The file tree *)

Definition node_children (n : FileTree.FileNode) : option (list FileTree.FileNode) :=
  match n with FileTree.Node _ _ _ _ c => c end.

(** No node object of the store has a child. *)
Definition childless_store (st : FileTree.Store) : Prop :=
  forall i n, FileTree.nodes st !! i = Some n ->
    FileTree.children n = None \/ FileTree.children n = Some [].

(** Every reference held by a map of the store is the reference of a node
    object of the store. *)
Definition valid_refs (st : FileTree.Store) : Prop :=
  forall m mp, FileTree.maps st !! m = Some mp ->
    Forall (fun kv => snd kv < length (FileTree.nodes st)) mp.

Definition good_store (st : FileTree.Store) : Prop :=
  childless_store st /\ valid_refs st.

(** ** The aggregator *)

(** [queueChange] stores the change with the time of the call. *)
Definition stamp (c : Engine.DesignChange) (now : Z) : Engine.DesignChange :=
  {| Engine.type := Engine.type c; Engine.elementId := Engine.elementId c;
     Engine.file := Engine.file c; Engine.component := Engine.component c;
     Engine.change := Engine.change c; Engine.timestamp := now |}.

(** The changes a sequence of events queues, in order. *)
Definition queued (es : list Engine.Event) : list Engine.DesignChange :=
  flat_map (fun e => match e with
                     | Engine.QueueChange c now => [stamp c now]
                     | _ => []
                     end) es.

(** The events that start processing: a debounce expiry or [flush]. *)
Definition is_trigger (e : Engine.Event) : Prop :=
  e = Engine.Flush \/ exists h, e = Engine.TimerFires h.

(** The changes handed to the submission callback so far, oldest first. *)
Definition submitted (w : Engine.World) : list Engine.DesignChange :=
  List.concat (map snd (Engine.sent w)).


(** At most one promise of [onSendToAI] is awaited, and the processing
    flag is set exactly while one is. *)
Definition one_in_flight (w : Engine.World) : Prop :=
  (Engine.awaiting w = [] /\ Engine.isProcessing w = false)
  \/ (exists p, Engine.awaiting w = [p] /\ Engine.isProcessing w = true).

(** The world after the first two events of [Examples.stranding_trace]. *)
Definition world_in_flight : Engine.World :=
  default (Engine.create true true)
    (Engine.run Examples.pending_promise (Engine.create true true)
       (firstn 2 Examples.stranding_trace)).

(** The world after the whole of [Examples.stranding_trace]. *)
Definition world_stranded : Engine.World :=
  default (Engine.create true true)
    (Engine.run Examples.pending_promise (Engine.create true true)
       Examples.stranding_trace).

(** ** Parsing, whatever the text *)

(** A parsing function whose result is the same whatever cursors it
    finds. *)
Definition cursor_free {R}
    (parse : Cursors -> str -> option (R * Cursors)) : Prop :=
  forall text, exists r, forall st, exists st', parse st text = Some (r, st').

(** A file map as a [Map] holds it, with contents that have no white
    space at either end. *)
Definition clean_files (fs : FileMap) : Prop :=
  Forall (fun kv => trimmed (snd kv)) fs /\ NoDup (JSMap.keys fs).

Definition clean (a : ParsedArtifact) : Prop :=
  clean_files (files a) /\ Forall trimmed (commands a).

Definition clean_result (r : option ParsedArtifact) : Prop :=
  match r with Some a => clean a | None => True end.

(** The literal a pattern ends with, if it ends with one. *)
Fixpoint closing_literal (r : re) : option str :=
  match r with
  | Lit l => Some l
  | Seq _ b => closing_literal b
  | Group _ a => closing_literal a
  | _ => None
  end.

(** A text without the closing tag of a container, without the closing
    tag of a file block and without a fence of three backticks. *)
Definition unclosed (text : str) : bool :=
  negb (occurs true (js "</boltArtifact>") text)
  && negb (occurs true (js "</file>") text)
  && negb (occurs false (js "```") text).

(** ** The text of the other formats *)

Module Blocks.

(** [<file path="p">body</file>] *)
Definition file_block (p body : str) : str :=
  js "<file path=" ++ [DQ] ++ p ++ [DQ] ++ js ">" ++ body ++ js "</file>".

(** A fenced block whose opening line is [language:path]. *)
Definition cursor_block (language p body : str) : str :=
  js "```" ++ language ++ js ":" ++ p ++ [NL] ++ body ++ js "```".

(** A fenced block whose first line is a comment that names the path:
    the marker of the comment, [ filepath: ] and the rest of the line. *)
Definition path_block (language marker line body : str) : str :=
  js "```" ++ language ++ [NL] ++ marker ++ js " filepath: " ++ line ++ [NL]
  ++ body ++ js "```".

(** The comment markers the pattern accepts before [filepath:]. *)
Definition path_markers : list str := [js "//"; js "#"; js "<!--"].

(** Blocks, each followed by the text up to the next one, after the text
    [g0] before the first. *)
Definition text_of {B} (render : B -> str) (g0 : str) (items : list (B * str)) : str :=
  g0 ++ flat_map (fun bg => render (fst bg) ++ snd bg) items.

(** A language tag; a line that names a path; a body in which no fence
    ends, alone or together with the first backticks of the closing
    fence; a text without backtick. *)
Definition word (s : str) : bool := negb (str_eqb s []) && forallb isWord s.
Definition one_line (s : str) : bool :=
  negb (str_eqb s []) && forallb (cmatch (CNot NL)) s.
Definition fence_free (body : str) : bool :=
  negb (occurs false (js "```") (body ++ js "``")).
Definition no_backtick (g : str) : bool :=
  forallb (fun a => negb (Ascii.eqb a "`")) g.

(** File blocks: path and body. The path is not empty and has no double
    quote, the body does not contain the closing tag, and the text
    between blocks does not contain the opening of a file block. *)
Definition render_file (b : str * str) : str := file_block (fst b) (snd b).
Definition file_ok (b : str * str) : bool :=
  negb (str_eqb (fst b) []) && forallb (cmatch (CNot DQ)) (fst b)
  && negb (occurs true (js "</file>") (snd b)).
Definition file_gap_ok (g : str) : bool := negb (occurs true (js "<file") g).
Definition files_of (items : list ((str * str) * str)) : FileMap :=
  fold_left (fun fs bg => JSMap.set fs (fst (fst bg)) (trim (snd (fst bg))))
            items JSMap.empty.

(** A block of the cursor format or of the path-comment format: the
    language, the text that names the path, the body. *)
Record PathBlock := { pb_language : str; pb_path : str; pb_body : str }.

Definition render_cursor (b : PathBlock) : str :=
  cursor_block (pb_language b) (pb_path b) (pb_body b).
Definition cursor_ok (b : PathBlock) : bool :=
  word (pb_language b) && one_line (pb_path b) && fence_free (pb_body b).

Definition render_path (marker : str) (b : PathBlock) : str :=
  path_block (pb_language b) marker (pb_path b) (pb_body b).
Definition path_ok (b : PathBlock) : bool :=
  word (pb_language b) && one_line (pb_path b)
  && negb (isSpace (hd " "%char (pb_path b)))
  && fence_free (pb_body b).

(** Both formats key a file by the trimmed text that names its path. *)
Definition path_files_of (items : list (PathBlock * str)) : FileMap :=
  fold_left (fun fs bg => JSMap.set fs (trim (pb_path (fst bg))) (trim (pb_body (fst bg))))
            items JSMap.empty.

(** Plain fenced blocks: language and body. A block in one of the
    skipped languages adds nothing; any other is keyed by the path that
    [inferFilePath] gives for it. *)
Definition render_fenced (b : str * str) : str := Format.fenced (fst b) (snd b).
Definition fenced_ok (b : str * str) : bool := word (fst b) && fence_free (snd b).
Definition add_fenced (fs : FileMap) (b : str * str) : FileMap :=
  if existsb (str_eqb (fst b)) skipped_languages then fs
  else JSMap.set fs (inferFilePath (snd b) (fst b)) (trim (snd b)).
Definition fenced_files_of (items : list ((str * str) * str)) : FileMap :=
  fold_left (fun fs bg => add_fenced fs (fst bg)) items JSMap.empty.

End Blocks.

(** ** Files that are in no folder *)

(** No [/] in the key. *)
Definition flat_key (k : str) : bool := forallb (fun a => negb (Ascii.eqb a "/")) k.

(** The node of a file that is in no folder, as an object and as a
    value. *)
Definition flat_obj (kv : str * str) : FileTree.NodeObj :=
  {| FileTree.name := fst kv; FileTree.type := FileTree.file;
     FileTree.path := fst kv; FileTree.content := Some (snd kv);
     FileTree.children := None |}.

Definition flat_node (kv : str * str) : FileTree.FileNode :=
  FileTree.Node (fst kv) FileTree.file (fst kv) (Some (snd kv)) None.

(** ** More on the aggregator *)

Definition is_clear (e : Engine.Event) : bool :=
  match e with Engine.Clear => true | _ => false end.

(** At most one debounce timer is scheduled, and the engine holds its
    handle. *)
Definition debounced (w : Engine.World) : Prop :=
  Engine.timers w = []
  \/ exists h, Engine.timers w = [h] /\ Engine.debounceTimer w = Some h.

(** The style changes a sequence of events queues, as the instant
    preview receives them. *)
Definition previewed (es : list Engine.Event) : list (str * list (str * JSValue.t)) :=
  flat_map (fun e => match e with
                     | Engine.QueueChange c _ =>
                         if str_eqb (Engine.type c) (js "style")
                         then [(Engine.elementId c, Engine.change c)] else []
                     | _ => []
                     end) es.

(** A call of the submission callback: the batch is not empty and the
    prompt is the one built from the batch. *)
Definition well_built (call : str * list Engine.DesignChange) : Prop :=
  snd call <> []
  /\ fst call = Engine.buildPrompt (Engine.groupChangesByFile (snd call)).

(** The promises that were rejected, and the calls that threw. *)
Definition failed_settlements (es : list Engine.Event) : nat :=
  length (List.filter (fun e => match e with
                                | Engine.Settles false => true
                                | _ => false
                                end) es).

Definition thrown (onSendToAI : str -> Engine.SendOutcome)
    (calls : list (str * list Engine.DesignChange)) : nat :=
  length (List.filter (fun call => match onSendToAI (fst call) with
                                   | Engine.Throws => true
                                   | Engine.ReturnsPromise => false
                                   end) calls).

(** The distinct elements of a list of keys, each at its first
    occurrence. *)
Definition distinct (ks : list str) : list str :=
  fold_left (fun acc k => if existsb (str_eqb k) acc then acc else acc ++ [k]) ks [].

Definition same_file (f : str) (c : Engine.DesignChange) : bool :=
  str_eqb (Engine.file c) f.

(** One round of the loop of [groupChangesByFile]. *)
Definition group_step (grouped : JSMap.t (list Engine.DesignChange))
    (c : Engine.DesignChange) : JSMap.t (list Engine.DesignChange) :=
  JSMap.set grouped (Engine.file c)
    (default [] (JSMap.get grouped (Engine.file c)) ++ [c]).

(** The lines [buildPrompt] joins. *)
Definition prompt_parts (changesByFile : JSMap.t (list Engine.DesignChange))
  : list str :=
  [js "Apply the following design changes to the code:"; []]
  ++ flat_map (fun fc : str * list Engine.DesignChange =>
                 [js "## File: " ++ fst fc; []]
                 ++ map (fun c => js "- " ++ Engine.describeChange c) (snd fc)
                 ++ [[]])
              changesByFile
  ++ [js "Return the updated code using the boltArtifact format. Only include files that changed."].

(** ** The root level of the tree *)

(** The first segment of a path. *)
Definition first_segment (path_ : str) : str := default [] (split "/" path_ !! 0).

(** The node object that [fileMapToTree] creates for the first segment of
    a path: a file with the content of the path if the path has no other
    segment, a folder otherwise. *)
Definition top_node (files : FileMap) (path_ : str) : FileTree.NodeObj :=
  {| FileTree.name := first_segment path_;
     FileTree.type := if flat_key path_ then FileTree.file else FileTree.folder;
     FileTree.path := first_segment path_;
     FileTree.content := if flat_key path_ then JSMap.get files path_ else None;
     FileTree.children := if flat_key path_ then None else Some [] |}.

(** What the first segment of one path does to the root level, with the
    node objects held by value: a node is added unless the name is
    there, and for a path with more segments the node of that name gets
    an empty list of children. *)
Definition top_step (files : FileMap) (top : JSMap.t FileTree.NodeObj) (path_ : str)
  : JSMap.t FileTree.NodeObj :=
  let part := first_segment path_ in
  let top := if JSMap.has top part then top
             else JSMap.set top part (top_node files path_) in
  if flat_key path_ then top
  else match JSMap.get top part with
       | Some o => JSMap.set top part (FileTree.set_children (Some []) o)
       | None => top
       end.

Definition top_level (files : FileMap) : JSMap.t FileTree.NodeObj :=
  fold_left (top_step files) (JSMap.keys files) [].

(** A node object without children of its own, as a value. *)
Definition node_of (o : FileTree.NodeObj) : FileTree.FileNode :=
  FileTree.Node (FileTree.name o) (FileTree.type o) (FileTree.path o)
    (FileTree.content o)
    (match FileTree.children o with None => None | Some _ => Some [] end).

Definition node_name (n : FileTree.FileNode) : str :=
  match n with FileTree.Node nm _ _ _ _ => nm end.

Definition blank : FileTree.NodeObj :=
  {| FileTree.name := []; FileTree.type := FileTree.file; FileTree.path := [];
     FileTree.content := None; FileTree.children := None |}.

(** The node object behind a reference. *)
Definition deref (l : list FileTree.NodeObj) (kv : str * nat) : str * FileTree.NodeObj :=
  (fst kv, default blank (l !! snd kv)).

(** The root level of a store, with the node objects by value. *)
Definition root_level (st : FileTree.Store) : JSMap.t FileTree.NodeObj :=
  map (deref (FileTree.nodes st)) (FileTree.map_of st FileTree.root).

(** A level below the root: it is not the root map and holds no
    reference that the root map holds. *)
Definition below_root (st : FileTree.Store) (cur : nat) : Prop :=
  cur <> FileTree.root
  /\ Forall (fun kv => ~ In (snd kv) (map snd (FileTree.map_of st FileTree.root)))
            (FileTree.map_of st cur).

Definition rooted (st : FileTree.Store) : Prop :=
  good_store st
  /\ NoDup (map snd (FileTree.map_of st FileTree.root))
  /\ 0 < length (FileTree.maps st).

(** ** More example inputs *)

Module Samples.

Import Format Blocks.

Definition prose : str :=
  js "I could not build that." ++ [NL; NL; NL; NL] ++ js "Try a smaller prompt. ".

(** A container between two sentences. *)
Definition actions : list (action * str) :=
  [ (FileAction (js "src/App.jsx") (js "export default 1" ++ [NL]), [NL]);
    (ShellAction (js "npm i"), [NL]) ].

Definition file_blocks : list ((str * str) * str) :=
  [ ((js "a.css", js " body{} "), [NL]); ((js "b.js", js "let x"), js " done") ].

Definition cursor_blocks : list (PathBlock * str) :=
  [ ({| pb_language := js "ts"; pb_path := js "src/a.ts ";
        pb_body := js "let a = 1" ++ [NL] |}, [NL]);
    ({| pb_language := js "css"; pb_path := js "src/a.css";
        pb_body := js "a{}" ++ [NL] |}, []) ].

(** With the marker of an HTML comment the line that names the path goes
    on to the end of the comment. *)
Definition path_blocks : list (PathBlock * str) :=
  [ ({| pb_language := js "html"; pb_path := js "index.html -->";
        pb_body := js "<p>hi</p>" ++ [NL] |}, [NL]) ].

Definition fenced_blocks : list ((str * str) * str) :=
  [ ((js "bash", js "npm i" ++ [NL]), [NL]);
    ((js "tsx", js "export default function App() {}" ++ [NL]), []) ].

Definition flat_files : FileMap :=
  [(js "README.md", js "r"); (js "index.html", js "h")].

Definition project_files : FileMap :=
  [(js "src/App.jsx", js "old"); (js "notes.txt", js "n")].
Definition artifact_files : FileMap :=
  [(js "src/App.jsx", js "new"); (runtime_path, js "fake")].
Definition base_project : FileMap :=
  [(js "package.json", js "{}"); (js "src/App.jsx", js "default")].

(** A change is queued and flushed, a second one is queued. *)
Definition two_changes : list Engine.Event :=
  [ Engine.QueueChange Examples.style_change 1; Engine.Flush;
    Engine.QueueChange Examples.move_change 2 ].


End Samples.

(** * Properties *)

(** ** Strings *)

Lemma ascii_eqb_refl a : Ascii.eqb a a = true.
Proof. apply Ascii.eqb_eq. reflexivity. Qed.

Lemma str_eqb_eq a b : str_eqb a b = true <-> a = b.
Proof.
  revert b. induction a as [|x a IH]; intros [|y b]; simpl; split;
    try congruence; try reflexivity.
  - intros H. apply andb_true_iff in H as [Hx Hs].
    apply Ascii.eqb_eq in Hx. apply IH in Hs. congruence.
  - intros H. injection H as -> ->. rewrite ascii_eqb_refl. simpl.
    apply IH. reflexivity.
Qed.

Lemma str_eqb_refl s : str_eqb s s = true.
Proof. apply str_eqb_eq. reflexivity. Qed.

Lemma str_eqb_neq a b : a <> b -> str_eqb a b = false.
Proof.
  intros H. destruct (str_eqb a b) eqn:E; [|reflexivity].
  apply str_eqb_eq in E. contradiction.
Qed.

Lemma JSMap_get_In {V} (m : JSMap.t V) k v :
  JSMap.get m k = Some v -> In (k, v) m.
Proof.
  induction m as [|[k0 v0] m IH]; cbn; [discriminate|].
  destruct (str_eqb k k0) eqn:E.
  - apply str_eqb_eq in E. subst. intros [= ->]. left. reflexivity.
  - intros H. right. apply IH. exact H.
Qed.

Lemma JSMap_get_absent {V} (m : JSMap.t V) k :
  ~ In k (JSMap.keys m) -> JSMap.get m k = None.
Proof.
  unfold JSMap.keys. induction m as [|[k' v'] m IH]; intros Hk; [reflexivity|].
  cbn [JSMap.get]. rewrite str_eqb_neq by (intros ->; apply Hk; left; reflexivity).
  apply IH. intros H. apply Hk. right. exact H.
Qed.

(** ** The change aggregator *)

Section EngineProperties.

Import Engine.

Variable onSendToAI : str -> SendOutcome.

Lemma processChanges_busy w :
  isProcessing w = true -> processChanges onSendToAI w = w.
Proof. intros H. unfold processChanges. rewrite H. reflexivity. Qed.

Lemma processChanges_idle w :
  isProcessing w = false -> pendingChanges w <> [] ->
  let batch := pendingChanges w in
  let prompt := buildPrompt (groupChangesByFile batch) in
  let w' := processChanges onSendToAI w in
  sent w' = sent w ++ [(prompt, batch)]
  /\ pendingChanges w' = []
  /\ timers w' = timers w
  /\ awaiting w' = match onSendToAI prompt with
                   | ReturnsPromise => awaiting w ++ [prompt]
                   | Throws => awaiting w
                   end
  /\ isProcessing w' = match onSendToAI prompt with
                       | ReturnsPromise => true
                       | Throws => false
                       end.
Proof.
  intros Hidle Hne. unfold processChanges. rewrite Hidle.
  destruct (pendingChanges w) as [|c cs] eqn:Hp; [contradiction|].
  cbn [length Nat.eqb orb].
  cbn [upd_engine pendingChanges debounceTimer isProcessing].
  destruct (onSendToAI _); unfold callOnError; cbn;
    [destruct (hasOnError w); cbn|]; repeat split; reflexivity.
Qed.

Lemma processChanges_inv w :
  one_in_flight w -> one_in_flight (processChanges onSendToAI w).
Proof.
  intros Hinv. destruct (isProcessing w) eqn:Hp.
  - rewrite processChanges_busy; assumption.
  - destruct Hinv as [[Ha _]|[p [_ Hp']]]; [|congruence].
    destruct (pendingChanges w) as [|c cs] eqn:Hq.
    + unfold processChanges. rewrite Hp, Hq. cbn. left. auto.
    + destruct (processChanges_idle w Hp) as (_ & _ & _ & Haw & Hpr);
        [congruence|].
      rewrite Hq in Haw, Hpr. unfold one_in_flight. rewrite Haw, Hpr, Ha.
      destruct (onSendToAI _); [left; auto | right; eauto].
Qed.

Lemma clearDebounce_fields w :
  pendingChanges (clearDebounce w) = pendingChanges w
  /\ isProcessing (clearDebounce w) = isProcessing w
  /\ sent (clearDebounce w) = sent w
  /\ awaiting (clearDebounce w) = awaiting w.
Proof. unfold clearDebounce. destruct (debounceTimer w); cbn; auto. Qed.

(** What [flush] does before it calls [processChanges]. *)
Lemma flush_unfold w :
  exists w0, flush onSendToAI w = processChanges onSendToAI w0
    /\ pendingChanges w0 = pendingChanges w
    /\ isProcessing w0 = isProcessing w
    /\ sent w0 = sent w /\ awaiting w0 = awaiting w.
Proof.
  unfold flush. destruct (debounceTimer w) eqn:Ht.
  - eexists. split; [reflexivity|].
    destruct (clearDebounce_fields w) as (? & ? & ? & ?).
    unfold clearDebounce in *. rewrite Ht in *. cbn in *. auto.
  - exists w. auto.
Qed.

(** What a trigger does: it calls [processChanges] on a world with the
    same queue, flag and calls. *)
Lemma trigger_unfold w e w' :
  is_trigger e -> step onSendToAI w e = Some w' ->
  exists w0, w' = processChanges onSendToAI w0
    /\ pendingChanges w0 = pendingChanges w
    /\ isProcessing w0 = isProcessing w
    /\ sent w0 = sent w /\ awaiting w0 = awaiting w.
Proof.
  intros [->|[h ->]]; cbn [step]; intros H.
  - injection H as <-. apply flush_unfold.
  - destruct (existsb _ _); [|discriminate]. injection H as <-.
    eexists. split; [reflexivity|]. cbn. auto.
Qed.

Lemma step_inv w e w' :
  one_in_flight w -> step onSendToAI w e = Some w' -> one_in_flight w'.
Proof.
  intros Hinv. destruct e as [c now| | |h|ok]; cbn [step]; intros H.
  - injection H as <-. unfold one_in_flight, queueChange, clearDebounce in *.
    cbn. destruct (_ && _); cbn; destruct (debounceTimer w); cbn; exact Hinv.
  - destruct (trigger_unfold w Flush w') as (w0 & -> & _ & Hp & _ & Ha);
      [left; reflexivity | exact H |].
    apply processChanges_inv. unfold one_in_flight in *. rewrite Hp, Ha. exact Hinv.
  - injection H as <-. unfold one_in_flight, clear, clearDebounce in *.
    destruct (debounceTimer w); cbn; exact Hinv.
  - destruct (trigger_unfold w (TimerFires h) w') as (w0 & -> & _ & Hp & _ & Ha);
      [right; eauto | exact H |].
    apply processChanges_inv. unfold one_in_flight in *. rewrite Hp, Ha. exact Hinv.
  - destruct (awaiting w) as [|p ps] eqn:Ha; [discriminate|]. injection H as <-.
    destruct Hinv as [[Ha' _]|[p' [Ha' _]]]; [congruence|].
    assert (ps = []) as -> by congruence.
    left. unfold resume, callOnError. rewrite Ha.
    destruct ok; cbn; [|destruct (hasOnError w); cbn]; auto.
Qed.

(** The submitted changes followed by the pending ones stay a subsequence
    of the queued ones. *)
Lemma step_history w e w' (h : list DesignChange) :
  step onSendToAI w e = Some w' ->
  sublist (submitted w ++ pendingChanges w) h ->
  sublist (submitted w' ++ pendingChanges w') (h ++ queued [e]).
Proof.
  assert (Hproc : forall w0,
    submitted (processChanges onSendToAI w0) ++ pendingChanges (processChanges onSendToAI w0)
    = submitted w0 ++ pendingChanges w0).
  { intros w0. destruct (isProcessing w0) eqn:Hp.
    - rewrite processChanges_busy; auto.
    - destruct (pendingChanges w0) as [|c cs] eqn:Hq.
      + unfold processChanges. rewrite Hp, Hq. cbn. rewrite Hq. reflexivity.
      + destruct (processChanges_idle w0 Hp) as (Hs & Hq' & _); [congruence|].
        unfold submitted. rewrite Hs, Hq', Hq, map_app, concat_app. cbn.
        rewrite !app_nil_r. reflexivity. }
  destruct e as [c now| | |t|ok]; cbn [step]; intros H Hsub.
  - injection H as <-. cbn [queued flat_map]. rewrite ?app_nil_r.
    replace (submitted (queueChange c now w)) with (submitted w).
    2:{ unfold submitted, queueChange, clearDebounce. cbn.
        destruct (_ && _); cbn; destruct (debounceTimer w); reflexivity. }
    replace (pendingChanges (queueChange c now w))
      with (pendingChanges w ++ [stamp c now]).
    2:{ unfold queueChange, clearDebounce. cbn.
        destruct (_ && _); cbn; destruct (debounceTimer w); reflexivity. }
    rewrite app_assoc. apply sublist_app; [exact Hsub | reflexivity].
  - cbn [queued flat_map app]; rewrite ?app_nil_r.
    destruct (trigger_unfold w Flush w') as (w0 & -> & Hq & _ & Hs & _);
      [left; reflexivity | exact H |].
    rewrite Hproc. unfold submitted. rewrite Hs, Hq. exact Hsub.
  - injection H as <-. cbn [queued flat_map app]; rewrite ?app_nil_r.
    replace (submitted (clear w)) with (submitted w).
    2:{ unfold submitted, clear, clearDebounce.
        destruct (debounceTimer w); reflexivity. }
    replace (pendingChanges (clear w)) with (@nil DesignChange).
    2:{ unfold clear. destruct (debounceTimer w); reflexivity. }
    rewrite ?app_nil_r. etransitivity; [|exact Hsub].
    apply sublist_inserts_r. reflexivity.
  - cbn [queued flat_map app]; rewrite ?app_nil_r.
    destruct (trigger_unfold w (TimerFires t) w') as (w0 & -> & Hq & _ & Hs & _);
      [right; eauto | exact H |].
    rewrite Hproc. unfold submitted. rewrite Hs, Hq. exact Hsub.
  - destruct (awaiting w); [discriminate|]. injection H as <-.
    cbn [queued flat_map app]; rewrite ?app_nil_r.
    replace (submitted (resume ok w)) with (submitted w).
    2:{ unfold submitted, resume, callOnError.
        destruct ok; cbn; [|destruct (hasOnError w)]; reflexivity. }
    replace (pendingChanges (resume ok w)) with (pendingChanges w).
    2:{ unfold resume, callOnError.
        destruct ok; cbn; [|destruct (hasOnError w)]; reflexivity. }
    exact Hsub.
Qed.

Lemma queued_app es1 es2 : queued (es1 ++ es2) = queued es1 ++ queued es2.
Proof. unfold queued. apply flat_map_app. Qed.

Lemma run_inv es : forall w w' h,
  run onSendToAI w es = Some w' ->
  one_in_flight w ->
  sublist (submitted w ++ pendingChanges w) h ->
  one_in_flight w'
  /\ sublist (submitted w' ++ pendingChanges w') (h ++ queued es).
Proof.
  induction es as [|e es IH]; intros w w' h Hrun Hinv Hsub.
  - injection Hrun as <-. cbn. rewrite app_nil_r. auto.
  - cbn [run] in Hrun. destruct (step onSendToAI w e) as [w1|] eqn:Hstep;
      [|discriminate].
    change (e :: es) with ([e] ++ es). rewrite queued_app, app_assoc.
    apply (IH w1 w' (h ++ queued [e]) Hrun).
    + eapply step_inv; eauto.
    + eapply step_history; eauto.
Qed.

Lemma reachable_inv ip oe es w :
  run onSendToAI (create ip oe) es = Some w ->
  one_in_flight w /\ sublist (submitted w ++ pendingChanges w) (queued es).
Proof.
  intros H. apply (run_inv es _ _ [] H).
  - left. auto.
  - cbn. reflexivity.
Qed.

End EngineProperties.

(** C5: at every reachable state of the aggregator at most one call of the
    submission callback is in flight, and the processing flag is set
    exactly while one is; a [flush] or a debounce expiry that happens while
    the flag is set makes no call and leaves the queue as it is; the
    changes submitted so far, followed by the pending ones, are a
    subsequence of the changes queued, so that no batch is submitted
    again. *)
Theorem at_most_one_submission_in_flight :
  forall (onSendToAI : str -> Engine.SendOutcome) (ip oe : bool)
         (es : list Engine.Event) (w : Engine.World),
    Engine.run onSendToAI (Engine.create ip oe) es = Some w ->
    length (Engine.awaiting w) <= 1
    /\ (Engine.getIsProcessing w = true <-> length (Engine.awaiting w) = 1)
    /\ (Engine.getIsProcessing w = true ->
        forall e w', is_trigger e -> Engine.step onSendToAI w e = Some w' ->
          Engine.sent w' = Engine.sent w
          /\ Engine.awaiting w' = Engine.awaiting w
          /\ Engine.pendingChanges w' = Engine.pendingChanges w
          /\ Engine.getIsProcessing w' = true)
    /\ sublist (submitted w ++ Engine.pendingChanges w) (queued es).
Proof.
  intros onSendToAI ip oe es w Hrun.
  destruct (reachable_inv onSendToAI ip oe es w Hrun) as [Hinv Hsub].
  unfold Engine.getIsProcessing.
  repeat split.
  - destruct Hinv as [[-> _]|[p [-> _]]]; cbn; lia.
  - destruct Hinv as [[_ ->]|[p [-> _]]]; [discriminate | reflexivity].
  - destruct Hinv as [[-> _]|[p [_ ->]]]; [discriminate | reflexivity].
  - destruct (trigger_unfold onSendToAI w e w' H0 H1) as (w0 & -> & _ & Hp & Hs & _).
    rewrite processChanges_busy; congruence.
  - destruct (trigger_unfold onSendToAI w e w' H0 H1) as (w0 & -> & _ & Hp & _ & Ha).
    rewrite processChanges_busy; congruence.
  - destruct (trigger_unfold onSendToAI w e w' H0 H1) as (w0 & -> & Hq & Hp & _).
    rewrite processChanges_busy; congruence.
  - destruct (trigger_unfold onSendToAI w e w' H0 H1) as (w0 & -> & _ & Hp & _).
    rewrite processChanges_busy; congruence.
  - exact Hsub.
Qed.

Lemma at_most_one_submission_in_flight_witness :
  Engine.run Examples.pending_promise (Engine.create true true)
    (firstn 2 Examples.stranding_trace) = Some world_in_flight
  /\ length (Engine.awaiting world_in_flight) <= 1
  /\ (Engine.getIsProcessing world_in_flight = true
      <-> length (Engine.awaiting world_in_flight) = 1)
  /\ (Engine.getIsProcessing world_in_flight = true ->
      forall e w', is_trigger e ->
        Engine.step Examples.pending_promise world_in_flight e = Some w' ->
        Engine.sent w' = Engine.sent world_in_flight
        /\ Engine.awaiting w' = Engine.awaiting world_in_flight
        /\ Engine.pendingChanges w' = Engine.pendingChanges world_in_flight
        /\ Engine.getIsProcessing w' = true)
  /\ sublist (submitted world_in_flight ++ Engine.pendingChanges world_in_flight)
       (queued (firstn 2 Examples.stranding_trace)).
Proof.
  split; [vm_compute; reflexivity|].
  apply (at_most_one_submission_in_flight Examples.pending_promise true true
           (firstn 2 Examples.stranding_trace) world_in_flight).
  vm_compute; reflexivity.
Defined.




(** C6: from a new aggregator, [queueChange] with elementId [btn-1], file
    [src/App.jsx], type [style] and change [{color: "#fff"}], followed at
    once by [flush()], makes exactly one call of the submission callback;
    its prompt contains [src/App.jsx] and [color: #fff], and no timer is
    left to make a second call. *)
Theorem queue_then_flush_submits_once :
  forall (onSendToAI : str -> Engine.SendOutcome) (ip oe : bool) (now : Z),
  exists w prompt,
    Engine.run onSendToAI (Engine.create ip oe)
      [Engine.QueueChange Examples.style_change now; Engine.Flush] = Some w
    /\ map fst (Engine.sent w) = [prompt]
    /\ includes prompt (js "src/App.jsx") = true
    /\ includes prompt (js "color: #fff") = true
    /\ Engine.timers w = []
    /\ Engine.pendingChanges w = [].
Proof.
  intros onSendToAI ip oe now. cbn [Engine.run Engine.step].
  set (w1 := Engine.queueChange Examples.style_change now (Engine.create ip oe)).
  destruct (flush_unfold onSendToAI w1) as (w0 & Hf & Hq & Hp & Hs & _).
  assert (Hq1 : Engine.pendingChanges w1 = [stamp Examples.style_change now]).
  { unfold w1, Engine.queueChange. cbn. destruct ip; reflexivity. }
  assert (Hp1 : Engine.isProcessing w1 = false).
  { unfold w1, Engine.queueChange. cbn. destruct ip; reflexivity. }
  assert (Hs1 : Engine.sent w1 = []).
  { unfold w1, Engine.queueChange. cbn. destruct ip; reflexivity. }
  destruct (processChanges_idle onSendToAI w0) as (Hs' & Hq' & Ht' & _);
    [congruence | rewrite Hq, Hq1; discriminate |].
  exists (Engine.flush onSendToAI w1).
  exists (Engine.buildPrompt (Engine.groupChangesByFile [stamp Examples.style_change now])).
  split; [reflexivity|]. rewrite Hf, Hs', Hq', Hs, Hs1, Hq, Hq1.
  split; [reflexivity|]. split; [vm_compute; reflexivity|].
  split; [vm_compute; reflexivity|]. split; [|reflexivity].
  rewrite <- Hf. unfold Engine.flush, w1, Engine.queueChange.
  destruct ip; cbn; unfold Engine.processChanges; cbn;
    destruct (onSendToAI _); unfold Engine.callOnError; cbn;
    try destruct oe; reflexivity.
Qed.





(** ** Results of the parser on the example inputs *)

(** C1 fails in the code: for the file map with the one key
    [src/App.tsx], [fileMapToTree] returns the folder node [src] with an
    empty list of children. The file node is put into [nextLevel] after
    [folder.children] was copied from it, so it is in no node's children,
    and the traversal of the returned tree finds no file path. Of the
    three keys of [Examples.mixed_files] the traversal finds the one
    without a folder. *)
Theorem fileMapToTree_loses_nested_file :
  JSMap.keys Examples.nested_files = [js "src/App.tsx"]
  /\ FileTree.fileMapToTree Examples.nested_files =
       Some [FileTree.Node (js "src") FileTree.folder (js "src") None (Some [])]
  /\ option_map FileTree.flatten (FileTree.fileMapToTree Examples.nested_files)
     = Some []
  /\ option_map FileTree.flatten (FileTree.fileMapToTree Examples.mixed_files)
     = Some [js "README.md"]
  /\ option_map (flat_map FileTree.folder_paths)
       (FileTree.fileMapToTree Examples.mixed_files)
     = Some [js "src"].
Proof. repeat split; vm_compute; reflexivity. Qed.

(** C3 fails in the code: a container whose title ends in [title=], with
    two file actions and one shell action, gives one file entry. The
    greedy [[^>]*] before [title=] makes the pattern take the [title=]
    at the end of the title's text, so that the title read runs into the
    first action's tag and the first file action is not seen. With the
    title [Set title] the same actions give the two files. *)
Theorem title_ending_in_title_attribute_loses_first_file :
  forall st : Cursors,
    option_map fst
      (parseArtifact st (Format.artifact (js "Set title=") Examples.three_actions))
    = Some {| files := [(js "b.ts", js "B")]; commands := [js "npm i"];
              metadata :=
                Some {| title := Some (js ">" ++ [NL] ++ js "<boltAction type=") |} |}
    /\ option_map fst
         (parseArtifact st (Format.artifact (js "Set title") Examples.three_actions))
       = Some {| files := [(js "a.ts", js "A"); (js "b.ts", js "B")];
                 commands := [js "npm i"];
                 metadata := Some {| title := Some (js "Set title") |} |}.
Proof. intros st. split; vm_compute; reflexivity. Qed.

(** ** The matcher *)

Lemma lit_prefix_length ci l s :
  lit_prefix ci l s = true -> length l <= length s.
Proof.
  revert s. induction l as [|x l IH]; intros [|y s]; cbn; try lia; try discriminate.
  intros H. apply andb_true_iff in H as [_ H]. apply IH in H. lia.
Qed.

Lemma run_le k s : run k s <= length s.
Proof.
  induction s as [|a s IH]; cbn; [lia|]. destruct (cmatch k a); cbn; lia.
Qed.

Lemma counts_In min greedy n j :
  In j (counts min greedy n) <-> min <= j <= n.
Proof.
  unfold counts. destruct greedy; rewrite <- ?in_rev, in_seq; lia.
Qed.

Lemma firstn_length_le {A} (l : list A) n :
  n <= length l -> length (firstn n l) = n.
Proof. intros H. rewrite length_firstn. lia. Qed.

(** Every way of matching splits the string into what was consumed and
    what is left, and consumes at least [min_len] characters. *)
Lemma rmatch_sound ci r : forall s cs c rest cs',
  In (c, rest, cs') (rmatch ci r s cs) ->
  s = c ++ rest /\ min_len r <= length c.
Proof.
  induction r as [l|min greedy k|a IHa b IHb|a IHa b IHb|a IHa|i a IHa];
    intros s cs c rest cs' Hin; cbn [rmatch min_len] in *.
  - destruct (lit_prefix ci l s) eqn:Hl; [|destruct Hin].
    destruct Hin as [Heq|[]]. injection Heq as <- <- <-.
    apply lit_prefix_length in Hl.
    split; [symmetry; apply firstn_skipn | rewrite firstn_length_le; lia].
  - apply in_map_iff in Hin as (j & Heq & Hj). injection Heq as <- <- <-.
    apply counts_In in Hj. pose proof (run_le k s).
    split; [symmetry; apply firstn_skipn | rewrite firstn_length_le; lia].
  - apply in_flat_map in Hin as ([[c1 r1] cs1] & H1 & Hin).
    apply in_map_iff in Hin as ([[c2 r2] cs2] & Heq & H2).
    injection Heq as <- <- <-.
    apply IHa in H1 as [-> L1]. apply IHb in H2 as [-> L2].
    split; [apply app_assoc | rewrite length_app; lia].
  - apply in_app_or in Hin as [H|H]; [apply IHa in H | apply IHb in H];
      destruct H; split; [assumption | lia | assumption | lia].
  - apply in_app_or in Hin as [H|[Heq|[]]].
    + apply IHa in H as [-> _]. split; [reflexivity | lia].
    + injection Heq as <- <- <-. split; [reflexivity | lia].
  - apply in_map_iff in Hin as ([[c1 r1] cs1] & Heq & H1).
    injection Heq as <- <- <-. apply IHa in H1. exact H1.
Qed.

Lemma head_In {A} (l : list A) x : head l = Some x -> In x l.
Proof. destruct l; cbn; [discriminate|]. intros [= ->]. left. reflexivity. Qed.

Lemma first_match_sound ci r s c rest cs :
  first_match ci r s = Some (c, rest, cs) ->
  s = c ++ rest /\ min_len r <= length c.
Proof. intros H. apply head_In in H. eapply rmatch_sound; eauto. Qed.

Lemma search_sound rx : forall s k start c rest cs,
  search rx s k = Some (start, (c, rest, cs)) ->
  exists pre, s = pre ++ c ++ rest /\ start = k + length pre
              /\ min_len (pattern rx) <= length c.
Proof.
  induction s as [|a s IH]; intros k start c rest cs; cbn [search];
    destruct (first_match _ _ _) as [w|] eqn:Hm.
  - intros [= <- ->]. apply first_match_sound in Hm as [-> ?].
    exists []. cbn. split; [reflexivity|]. split; [lia | assumption].
  - discriminate.
  - intros [= <- ->]. apply first_match_sound in Hm as [-> ?].
    exists []. cbn. split; [reflexivity|]. split; [lia | assumption].
  - intros H. apply IH in H as (pre & -> & -> & ?).
    exists (a :: pre). cbn. split; [reflexivity|]. split; [lia | assumption].
Qed.

(** A successful [exec] moves [lastIndex] forward by the length of the
    match at least, and not beyond the end of the text. *)
Lemma exec_some rx text li w li' :
  exec rx text li = (Some w, li') ->
  li <= length text /\ li + min_len (pattern rx) <= li' /\ li' <= length text.
Proof.
  unfold exec. destruct (length text <? li) eqn:Hlt; [discriminate|].
  apply Nat.ltb_ge in Hlt.
  destruct (search rx (skipn li text) li) as [[start [[c rest] cs]]|] eqn:Hs;
    [|discriminate].
  intros [= <- <-]. apply search_sound in Hs as (pre & Hsk & -> & Hmin).
  assert (Hlen : length (skipn li text) = length text - li) by apply length_skipn.
  rewrite Hsk, !length_app in Hlen. lia.
Qed.

Lemma exec_none rx text li li' :
  exec rx text li = (None, li') -> li' = 0.
Proof.
  unfold exec. destruct (length text <? li); [intros [= <-]; reflexivity|].
  destruct (search rx (skipn li text) li) as [[start [[c rest] cs]]|];
    [discriminate | intros [= <-]; reflexivity].
Qed.

(** The [exec] loop ends within its fuel, and leaves [lastIndex = 0],
    when the pattern cannot match the empty string. *)
Lemma exec_loop_total {A} rx text (body : captures -> A -> A) :
  1 <= min_len (pattern rx) ->
  forall fuel li acc,
    length text - li < fuel ->
    exists r, exec_loop fuel rx text body li acc = Some (r, 0).
Proof.
  intros Hmin. induction fuel as [|fuel IH]; intros li acc Hfuel; [lia|].
  cbn [exec_loop]. destruct (exec rx text li) as [[[[c rest] cs]|] li'] eqn:He.
  - apply exec_some in He as (? & ? & ?). apply IH. lia.
  - apply exec_none in He as ->. eauto.
Qed.

Lemma min_len_boltAction : 1 <= min_len (pattern PATTERNS.boltAction).
Proof. cbn. lia. Qed.

Lemma min_len_boltArtifact : 1 <= min_len (pattern PATTERNS.boltArtifact).
Proof. cbn. lia. Qed.

Lemma min_len_lovableFile : 1 <= min_len (pattern PATTERNS.lovableFile).
Proof. cbn. lia. Qed.

Lemma min_len_cursorBlock : 1 <= min_len (pattern PATTERNS.cursorBlock).
Proof. cbn. lia. Qed.

Lemma min_len_markdownWithPath : 1 <= min_len (pattern PATTERNS.markdownWithPath).
Proof. cbn. lia. Qed.

Lemma min_len_markdownBlock : 1 <= min_len (pattern PATTERNS.markdownBlock).
Proof. cbn. lia. Qed.

(** ** [parseStreamingArtifact] *)

(** The result does not depend on the cursors the call finds, and the
    call leaves the cursor of [boltAction] at 0. *)
Lemma parseStreamingArtifact_total st text :
  exists files commands,
    exec_loop (loop_fuel text) PATTERNS.boltAction text bolt_body 0
      (JSMap.empty, []) = Some ((files, commands), 0)
    /\ parseStreamingArtifact st text =
         Some ({| files := files; commands := commands; metadata := None |},
               set_boltAction 0 st).
Proof.
  destruct (exec_loop_total PATTERNS.boltAction text bolt_body
              min_len_boltAction (loop_fuel text) 0 (JSMap.empty, []))
    as [[fs cmds] Hloop]; [unfold loop_fuel; lia|].
  exists fs, cmds. split; [exact Hloop|].
  unfold parseStreamingArtifact. cbn [li_boltAction set_boltAction].
  rewrite Hloop. reflexivity.
Qed.

(** C7: [parseStreamingArtifact] is idempotent. Whatever the cursors of
    the shared patterns are before the first call, the first call returns
    a result, and a second call on the same text, made with the cursors
    the first call left, returns the same file map and the same command
    list (and leaves the same cursors). *)
Theorem parseStreamingArtifact_idempotent :
  forall (st : Cursors) (text : str),
  exists result st1,
    parseStreamingArtifact st text = Some (result, st1)
    /\ parseStreamingArtifact st1 text = Some (result, st1).
Proof.
  intros st text.
  destruct (parseStreamingArtifact_total st text) as (fs & cmds & Hloop & H1).
  destruct (parseStreamingArtifact_total (set_boltAction 0 st) text)
    as (fs' & cmds' & Hloop' & H2).
  rewrite Hloop in Hloop'. injection Hloop' as <- <-.
  eexists. eexists. split; [exact H1|]. exact H2.
Qed.

(** ** [replace] and [extractMessage] *)

Lemma first_match_nil ci r :
  1 <= min_len r -> first_match ci r [] = None.
Proof.
  intros Hmin. destruct (first_match ci r []) as [[[c rest] cs]|] eqn:H;
    [|reflexivity].
  apply first_match_sound in H as [Heq Hlen].
  symmetry in Heq. apply app_eq_nil in Heq as [-> _]. cbn in Hlen. lia.
Qed.

(** Skipping the rest of a match is dropping its characters. *)
Lemma replace_from_skip rx by_ : forall k s,
  k <= length s ->
  replace_from rx by_ s k = replace_from rx by_ (skipn k s) 0.
Proof.
  induction k as [|k IH]; intros s Hk; [reflexivity|].
  destruct s as [|a s]; cbn in Hk; [lia|].
  cbn [replace_from skipn]. apply IH. lia.
Qed.

(** [replace] with the empty replacement deletes the matches. *)
Lemma deletes_replace rx :
  1 <= min_len (pattern rx) ->
  forall s, deletes rx s (replace rx [] s).
Proof.
  intros Hmin s. unfold replace.
  remember (length s) as n eqn:Hn. revert s Hn.
  induction n as [n IH] using lt_wf_ind. intros s Hn.
  destruct s as [|a s].
  - cbn. rewrite first_match_nil by exact Hmin.
    apply deletes_end. apply first_match_nil. exact Hmin.
  - cbn [replace_from].
    destruct (first_match (ignoreCase rx) (pattern rx) (a :: s))
      as [[[m rest] cs]|] eqn:Hm.
    + pose proof (first_match_sound _ _ _ _ _ _ Hm) as [Heq Hlen].
      destruct m as [|x m]; [cbn in Hlen; lia|].
      cbn in Heq. injection Heq as <- ->.
      cbn [app]. rewrite replace_from_skip by (rewrite length_app; lia).
      rewrite skipn_app, skipn_all, Nat.sub_diag, skipn_O. cbn [app].
      change (a :: m ++ rest) with ((a :: m) ++ rest).
      eapply deletes_match; [exact Hm | discriminate |].
      eapply IH; [|reflexivity]. subst n. cbn. rewrite length_app. lia.
    + apply deletes_keep; [exact Hm|].
      eapply IH; [|reflexivity]. subst n. cbn. lia.
Qed.

(** The pattern [\n{3,}] matches the whole run of newlines in front, if
    the run has three newlines or more. *)
Lemma first_match_newlines3 s :
  first_match false (pattern PATTERNS.newlines3) s =
    let n := run (CIs NL) s in
    if 3 <=? n then Some (firstn n s, skipn n s, []) else None.
Proof.
  unfold first_match. cbn [pattern PATTERNS.newlines3 rmatch].
  unfold counts. cbv zeta. destruct (3 <=? run (CIs NL) s) eqn:Hn.
  - apply Nat.leb_le in Hn.
    replace (S (run (CIs NL) s) - 3) with (S (run (CIs NL) s - 3)) by lia.
    rewrite seq_S, rev_app_distr. cbn [rev app map head].
    replace (3 + (run (CIs NL) s - 3)) with (run (CIs NL) s) by lia.
    reflexivity.
  - apply Nat.leb_gt in Hn.
    replace (S (run (CIs NL) s) - 3) with 0 by lia. reflexivity.
Qed.

Lemma collapse_run : forall s seen,
  seen <= 2 ->
  collapse seen s =
    repeat NL (Nat.min (run (CIs NL) s) (2 - seen))
    ++ collapse 0 (skipn (run (CIs NL) s) s).
Proof.
  induction s as [|a s IH]; intros seen Hseen; [reflexivity|].
  cbn [collapse run cmatch]. destruct (Ascii.eqb a NL) eqn:Ha.
  - apply Ascii.eqb_eq in Ha. subst a. cbn [skipn].
    destruct (seen <? 2) eqn:Hlt.
    + apply Nat.ltb_lt in Hlt. rewrite (IH (S seen)) by lia.
      replace (2 - seen) with (S (2 - S seen)) by lia.
      rewrite <- Nat.succ_min_distr. reflexivity.
    + apply Nat.ltb_ge in Hlt. rewrite (IH seen) by lia.
      replace (2 - seen) with 0 by lia. rewrite !Nat.min_0_r. reflexivity.
  - cbn [Nat.min repeat skipn app collapse]. rewrite Ha. reflexivity.
Qed.

(** [replace(/\n{3,}/g, '\n\n')] cuts every run of newlines down to two. *)
Lemma replace_newlines3 s :
  replace PATTERNS.newlines3 [NL; NL] s = collapse 0 s.
Proof.
  unfold replace. remember (length s) as n eqn:Hn. revert s Hn.
  induction n as [n IH] using lt_wf_ind. intros s Hn.
  destruct s as [|a s]; [reflexivity|].
  cbn [replace_from]. change (ignoreCase PATTERNS.newlines3) with false.
  rewrite first_match_newlines3. cbv zeta.
  pose proof (run_le (CIs NL) (a :: s)) as Hrun.
  destruct (3 <=? run (CIs NL) (a :: s)) eqn:H3.
  - apply Nat.leb_le in H3.
    cbn [run cmatch] in *. destruct (Ascii.eqb a NL) eqn:Ha; [|lia].
    apply Ascii.eqb_eq in Ha. subst a. cbn [firstn length].
    rewrite length_firstn, Nat.min_l by (cbn in Hrun; lia).
    rewrite replace_from_skip by (cbn in Hrun; lia).
    rewrite (IH (length (skipn (run (CIs NL) s) s)))
      by (rewrite ?length_skipn; subst n; cbn; lia || reflexivity).
    rewrite (collapse_run (NL :: s)) by lia. cbn [run cmatch skipn].
    rewrite ascii_eqb_refl.
    replace (Nat.min (S (run (CIs NL) s)) (2 - 0)) with 2 by lia.
    reflexivity.
  - apply Nat.leb_gt in H3.
    rewrite (IH (length s)) by (subst n; cbn; lia || reflexivity).
    cbn [collapse]. destruct (Ascii.eqb a NL) eqn:Ha; [|reflexivity].
    cbn [Nat.ltb Nat.leb]. f_equal.
    cbn [run cmatch] in H3. rewrite Ha in H3.
    rewrite (collapse_run s 0), (collapse_run s 1) by lia.
    replace (Nat.min (run (CIs NL) s) (2 - 0)) with (run (CIs NL) s) by lia.
    replace (Nat.min (run (CIs NL) s) (2 - 1)) with (run (CIs NL) s) by lia.
    reflexivity.
Qed.

(** After [collapse] no three newlines follow one another. *)
Lemma three_newlines_run y :
  lit_prefix false [NL; NL; NL] y = true -> 3 <= run (CIs NL) y.
Proof.
  destruct y as [|a [|b [|c y]]]; cbn [lit_prefix chr_eqb]; rewrite ?andb_false_r;
    try discriminate.
  rewrite !andb_true_iff, !Ascii.eqb_eq. intros (<- & <- & <- & _).
  cbn. lia.
Qed.

Lemma collapse_no_three_newlines : forall s seen,
  seen <= 2 ->
  run (CIs NL) (collapse seen s) <= 2 - seen
  /\ includes (collapse seen s) [NL; NL; NL] = false.
Proof.
  induction s as [|a s IH]; intros seen Hseen; [cbn; split; [lia|reflexivity]|].
  cbn [collapse]. destruct (Ascii.eqb a NL) eqn:Ha.
  - destruct (seen <? 2) eqn:Hlt.
    + apply Nat.ltb_lt in Hlt. destruct (IH (S seen)) as [Hr Hi]; [lia|].
      assert (Hrun : run (CIs NL) (a :: collapse (S seen) s) <= 2 - seen).
      { cbn [run cmatch]. rewrite Ha. lia. }
      split; [exact Hrun|]. cbn [includes]. rewrite Hi, orb_false_r.
      destruct (lit_prefix false [NL; NL; NL] (a :: collapse (S seen) s)) eqn:Hp;
        [|reflexivity].
      apply three_newlines_run in Hp. lia.
    + apply Nat.ltb_ge in Hlt. apply IH. exact Hseen.
  - destruct (IH 0) as [_ Hi]; [lia|]. split.
    + cbn [run cmatch]. rewrite Ha. lia.
    + cbn [includes lit_prefix chr_eqb]. rewrite Hi, orb_false_r.
      rewrite Ascii.eqb_sym, Ha. reflexivity.
Qed.

(** [trimStart] removes a prefix of white space. *)
Lemma trimStart_split s :
  exists w, s = w ++ trimStart s /\ forallb isSpace w = true.
Proof.
  induction s as [|a s (w & Hs & Hw)]; [exists []; auto|].
  cbn [trimStart]. destruct (isSpace a) eqn:Ha.
  - exists (a :: w). cbn [forallb app]. rewrite Ha, Hw.
    split; [f_equal; exact Hs | reflexivity].
  - exists []. auto.
Qed.

Lemma trimStart_head s a t :
  trimStart s = a :: t -> isSpace a = false.
Proof.
  induction s as [|b s IH]; cbn [trimStart]; [discriminate|].
  destruct (isSpace b) eqn:Hb; [exact IH|]. intros [= <- <-]. exact Hb.
Qed.

Lemma trim_trimmed s : trimmed (trim s).
Proof.
  unfold trim, trimEnd. set (t := trimStart s).
  destruct (trimStart_split (rev t)) as (w & Hrev & Hw).
  destruct (trimStart (rev t)) as [|b u] eqn:Hu; [exact I|].
  assert (Hb : isSpace b = false) by (eapply trimStart_head; eauto).
  assert (Ht : t = rev (b :: u) ++ rev w).
  { rewrite <- rev_app_distr, <- Hrev, rev_involutive. reflexivity. }
  destruct (rev (b :: u)) as [|x v] eqn:Hx.
  { apply (f_equal (@length ascii)) in Hx. rewrite length_rev in Hx.
    cbn in Hx. lia. }
  unfold trimmed. split.
  - unfold t in Ht. cbn in Ht. eapply trimStart_head. exact Ht.
  - rewrite <- Hx. cbn [rev]. rewrite last_last. exact Hb.
Qed.

Lemma collapse_snoc b : forall s seen,
  Ascii.eqb b NL = false ->
  collapse seen (s ++ [b]) = collapse seen s ++ [b].
Proof.
  intros s seen Hb. revert seen.
  induction s as [|a s IH]; intros seen; cbn [app collapse].
  - rewrite Hb. reflexivity.
  - destruct (Ascii.eqb a NL); [destruct (seen <? 2)|]; rewrite IH; reflexivity.
Qed.

Lemma isSpace_not_newline a : isSpace a = false -> Ascii.eqb a NL = false.
Proof.
  intros Ha. destruct (Ascii.eqb a NL) eqn:E; [|reflexivity].
  apply Ascii.eqb_eq in E. subst a. discriminate Ha.
Qed.

Lemma collapse_trimmed s : trimmed s -> trimmed (collapse 0 s).
Proof.
  destruct s as [|a s]; [exact id|]. intros [Ha Hl].
  destruct (exists_last (l := a :: s)) as (init & b & Hs); [discriminate|].
  rewrite Hs in Hl |- *. rewrite last_last in Hl.
  rewrite collapse_snoc by (apply isSpace_not_newline; exact Hl).
  destruct init as [|a' init].
  - cbn [collapse app trimmed List.last]. auto.
  - cbn in Hs. injection Hs as <- _.
    cbn [collapse]. rewrite (isSpace_not_newline a Ha). cbn [app trimmed].
    split; [exact Ha|].
    change (a :: collapse 0 init ++ [b]) with ((a :: collapse 0 init) ++ [b]).
    rewrite last_last. exact Hl.
Qed.

(** For every text, [extractMessage] returns the text without the
    matches of the container, tagged-file, language:path-fence and
    plain-fence patterns (deleted in this order, each scan from left to
    right), trimmed, with every run of newlines cut down to two: the
    result has no three newlines in a row and no white space at either
    end. On the text of the example it returns the two sentences with one
    blank line between them. *)
Lemma extractMessage_deletes_collapses_and_trims :
  forall (st : Cursors) (text : str),
    let out := fst (extractMessage st text) in
    (exists t1 t2 t3 t4,
        deletes PATTERNS.boltArtifact text t1
        /\ deletes PATTERNS.lovableFile t1 t2
        /\ deletes PATTERNS.cursorBlock t2 t3
        /\ deletes PATTERNS.markdownBlock t3 t4
        /\ out = collapse 0 (trim t4))
    /\ includes out [NL; NL; NL] = false
    /\ trimmed out
    /\ fst (extractMessage st Examples.message_text)
       = js "Here you go:" ++ [NL; NL] ++ js "Done!".
Proof.
  intros st text. cbn [extractMessage fst]. rewrite replace_newlines3.
  split; [|split; [|split]].
  - eexists _, _, _, _.
    split; [apply deletes_replace, min_len_boltArtifact|].
    split; [apply deletes_replace, min_len_lovableFile|].
    split; [apply deletes_replace, min_len_cursorBlock|].
    split; [apply deletes_replace, min_len_markdownBlock|].
    reflexivity.
  - apply collapse_no_three_newlines. lia.
  - apply collapse_trimmed, trim_trimmed.
  - vm_compute. reflexivity.
Qed.

(** C8: a block that [parseArtifact] recognizes is left in the message in
    part. The response is the one of the example, its fenced block naming
    its path in a comment and the path holding three backticks.
    [parseArtifact] takes the whole block, by the pattern of fences with
    a path comment, as the one file of that path. [extractMessage] has no
    pass for that pattern: its pass for plain fences ends the block at
    the backticks of the path, so that the rest of the path line, the
    code and the closing fence stay in the message, between the two
    sentences. With the block of the example, which names no path, the
    message is the two sentences with one blank line between them. *)
Theorem extractMessage_leaves_part_of_recognized_block :
  option_map fst (parseArtifact cursors0 Examples.fence_in_path)
  = Some {| files := [(js "a```b.js", js "let x = 1")];
            commands := []; metadata := None |}
  /\ fst (extractMessage cursors0 Examples.fence_in_path)
     = js "Here you go:" ++ [NL; NL]
       ++ js "b.js" ++ [NL] ++ js "let x = 1" ++ [NL] ++ js "```"
       ++ [NL; NL] ++ js "Done!"
  /\ fst (extractMessage cursors0 Examples.message_text)
     = js "Here you go:" ++ [NL; NL] ++ js "Done!".
Proof.
  split; [|split].
  - vm_compute. reflexivity.
  - vm_compute. reflexivity.
  - vm_compute. reflexivity.
Qed.

(** ** [parseArtifact] on plain fenced blocks *)

Lemma exec_no_match rx text :
  no_match rx text -> exec rx text 0 = (None, 0).
Proof.
  unfold no_match, exec. intros H. rewrite skipn_O, H. reflexivity.
Qed.

Lemma exec_loop_no_match {A} rx text (body : captures -> A -> A) acc :
  no_match rx text ->
  exec_loop (loop_fuel text) rx text body 0 acc = Some (acc, 0).
Proof.
  intros H. unfold loop_fuel. cbn [exec_loop]. rewrite exec_no_match by exact H.
  reflexivity.
Qed.

(** A loop over the matches folds its body over the captures that the
    collecting loop gathers. *)
Lemma exec_loop_collect rx text : forall fuel li l0 r,
  exec_loop fuel rx text (fun cs l => l ++ [cs]) li l0 = Some r ->
  exists ms, fst r = l0 ++ ms
    /\ forall (A : Type) (body : captures -> A -> A) (acc : A),
         exec_loop fuel rx text body li acc =
           Some (fold_left (fun a cs => body cs a) ms acc, snd r).
Proof.
  induction fuel as [|fuel IH]; intros li l0 r; cbn [exec_loop]; [discriminate|].
  destruct (exec rx text li) as [[[[c rest] cs]|] li1].
  - intros H. apply IH in H as (ms & Hfst & Hfold).
    exists (cs :: ms). split.
    + rewrite Hfst, <- app_assoc. reflexivity.
    + intros A body acc. cbn [fold_left]. apply Hfold.
  - intros [= <-]. exists []. split; [cbn; rewrite app_nil_r; reflexivity|].
    intros A body acc. reflexivity.
Qed.

Lemma matches_fold {A} rx text ms (body : captures -> A -> A) acc :
  matches rx text = Some ms ->
  exists li, exec_loop (loop_fuel text) rx text body 0 acc =
               Some (fold_left (fun a cs => body cs a) ms acc, li).
Proof.
  unfold matches. intros H.
  destruct (exec_loop _ _ _ _ 0 []) as [r|] eqn:Hr; [|discriminate].
  injection H as <-.
  apply exec_loop_collect in Hr as (ms & Hfst & Hfold).
  cbn [app] in Hfst. rewrite Hfst. eexists. apply Hfold.
Qed.

Lemma parseBoltFormat_no_match st text :
  no_match PATTERNS.boltArtifact text ->
  parseBoltFormat st text = Some (None, set_boltArtifact 0 st).
Proof.
  intros H. unfold parseBoltFormat. cbn [li_boltArtifact set_boltArtifact].
  rewrite exec_no_match by exact H. reflexivity.
Qed.

Lemma parseLovableFormat_no_match st text :
  no_match PATTERNS.lovableFile text ->
  parseLovableFormat st text = Some (None, set_lovableFile 0 st).
Proof.
  intros H. unfold parseLovableFormat. cbn [li_lovableFile set_lovableFile].
  rewrite exec_loop_no_match by exact H. reflexivity.
Qed.

Lemma parseCursorFormat_no_match st text :
  no_match PATTERNS.cursorBlock text ->
  parseCursorFormat st text = Some (None, set_cursorBlock 0 st).
Proof.
  intros H. unfold parseCursorFormat. cbn [li_cursorBlock set_cursorBlock].
  rewrite exec_loop_no_match by exact H. reflexivity.
Qed.

Lemma parseMarkdownWithPath_no_match st text :
  no_match PATTERNS.markdownWithPath text ->
  parseMarkdownWithPath st text = Some (None, set_markdownWithPath 0 st).
Proof.
  intros H. unfold parseMarkdownWithPath.
  cbn [li_markdownWithPath set_markdownWithPath].
  rewrite exec_loop_no_match by exact H. reflexivity.
Qed.









(** ** [parseArtifact] on a structured-artifact container *)

Lemma exec_search rx text start m rest cs :
  search rx text 0 = Some (start, (m, rest, cs)) ->
  exec rx text 0 = (Some (m, rest, cs), start + length m).
Proof. unfold exec. intros H. rewrite skipn_O, H. reflexivity. Qed.







(** [parseBoltFormat] on a text whose first container is known. *)
Lemma parseBoltFormat_found st text start m rest cs actions :
  search PATTERNS.boltArtifact text 0 = Some (start, (m, rest, cs)) ->
  matches PATTERNS.boltAction (default [] (capture 2 cs)) = Some actions ->
  exists st',
    parseBoltFormat st text =
      Some (if (JSMap.size (fst (extraction actions)) =? 0)
               && (length (snd (extraction actions)) =? 0)
            then None
            else Some {| files := fst (extraction actions);
                         commands := snd (extraction actions);
                         metadata := Some {| title := capture 1 cs |} |},
            st').
Proof.
  intros Hsearch Hactions.
  destruct (matches_fold _ _ _ bolt_body (JSMap.empty, []) Hactions) as [li Hloop].
  fold (extraction actions) in Hloop.
  eexists. unfold parseBoltFormat. cbn [li_boltArtifact set_boltArtifact].
  rewrite (exec_search _ _ _ _ _ _ Hsearch).
  cbn [li_boltAction set_boltAction]. rewrite Hloop.
  destruct (extraction actions) as [fs cmds]. cbn [fst snd].
  destruct ((JSMap.size fs =? 0) && (length cmds =? 0)); reflexivity.
Qed.

(** [parseArtifact] returns the extraction of a first container that
    yields a file. *)
Lemma parseArtifact_container_with_file st text start m rest cs actions :
  search PATTERNS.boltArtifact text 0 = Some (start, (m, rest, cs)) ->
  matches PATTERNS.boltAction (default [] (capture 2 cs)) = Some actions ->
  fst (extraction actions) <> [] ->
  option_map fst (parseArtifact st text) =
    Some {| files := fst (extraction actions);
            commands := snd (extraction actions);
            metadata := Some {| title := capture 1 cs |} |}.
Proof.
  intros Hsearch Hactions Hfiles.
  destruct (parseBoltFormat_found st text _ _ _ _ _ Hsearch Hactions) as [st' Hbolt].
  unfold parseArtifact, try_format. rewrite Hbolt.
  destruct (fst (extraction actions)) as [|kv fs] eqn:Hfs; [contradiction|].
  cbn. reflexivity.
Qed.





(** ** Matching a sequence step by step

    The lemmas of this section give the first way of a sequence
    [x ~> rest] from the first way of [rest], for each kind of [x]; they
    are what a proof about a text with unknown parts walks through. *)

Lemma head_app_none {A} (l1 l2 : list A) :
  head l1 = None -> head (l1 ++ l2) = head l2.
Proof. destruct l1; [reflexivity | discriminate]. Qed.

Lemma head_app_some {A} (l1 l2 : list A) x :
  head l1 = Some x -> head (l1 ++ l2) = Some x.
Proof. destruct l1; [discriminate | intros [= ->]; reflexivity]. Qed.

Lemma head_none_nil {A} (l : list A) : head l = None -> l = [].
Proof. destruct l; [reflexivity | discriminate]. Qed.

(** The continuation of a sequence after the way [w1] of its head. *)
Lemma rmatch_seq ci a b s cs :
  rmatch ci (a ~> b) s cs =
    flat_map (fun w1 : way => map (prepend (fst (fst w1)))
                                (rmatch ci b (snd (fst w1)) (snd w1)))
             (rmatch ci a s cs).
Proof.
  cbn [rmatch]. apply flat_map_ext. intros [[c1 r1] cs1]. cbn [fst snd].
  apply map_ext. intros [[c2 r2] cs2]. reflexivity.
Qed.

(** The first way of [a ~> b] comes from the first way of [a] after which
    [b] matches. *)
Lemma first_way_seq ci a b s cs before c1 r1 cs1 after c2 r2 cs2 :
  rmatch ci a s cs = before ++ (c1, r1, cs1) :: after ->
  (forall w, In w before -> first_way ci b (snd (fst w)) (snd w) = None) ->
  first_way ci b r1 cs1 = Some (c2, r2, cs2) ->
  first_way ci (a ~> b) s cs = Some (c1 ++ c2, r2, cs2).
Proof.
  intros Ha Hbefore Hb. unfold first_way. rewrite rmatch_seq, Ha, flat_map_app.
  rewrite head_app_none.
  - cbn [flat_map fst snd]. apply head_app_some.
    unfold first_way in Hb. destruct (rmatch ci b r1 cs1); [discriminate|].
    injection Hb as ->. reflexivity.
  - clear Ha. induction before as [|w before IH]; [reflexivity|].
    cbn [flat_map]. rewrite (head_none_nil _ (Hbefore w (or_introl eq_refl))).
    cbn [map app]. apply IH. intros w' Hw'. apply Hbefore. right. exact Hw'.
Qed.

Lemma first_way_seq_none ci a b s cs :
  (forall w, In w (rmatch ci a s cs) -> first_way ci b (snd (fst w)) (snd w) = None) ->
  first_way ci (a ~> b) s cs = None.
Proof.
  intros H. unfold first_way. rewrite rmatch_seq.
  induction (rmatch ci a s cs) as [|w ws IH]; [reflexivity|].
  cbn [flat_map]. rewrite (head_none_nil _ (H w (or_introl eq_refl))).
  cbn [map app]. apply IH. intros w' Hw'. apply H. right. exact Hw'.
Qed.

(** A literal in front. *)
Lemma first_way_lit ci l r s cs n c2 r2 cs2 :
  n = length l ->
  lit_prefix ci l s = true ->
  first_way ci r (skipn n s) cs = Some (c2, r2, cs2) ->
  first_way ci (Lit l ~> r) s cs = Some (firstn n s ++ c2, r2, cs2).
Proof.
  intros -> Hl Hr.
  eapply (first_way_seq ci (Lit l) r s cs [] _ _ _ []); [|intros w' []|exact Hr].
  cbn [rmatch]. rewrite Hl. reflexivity.
Qed.

Lemma first_way_lit_fail ci l r s cs :
  lit_prefix ci l s = false -> first_way ci (Lit l ~> r) s cs = None.
Proof.
  intros Hl. apply first_way_seq_none. cbn [rmatch]. rewrite Hl. intros w [].
Qed.

(** The literal that ends a pattern. *)
Lemma first_way_last_lit ci l s cs n :
  n = length l ->
  lit_prefix ci l s = true ->
  first_way ci (Lit l) s cs = Some (firstn n s, skipn n s, cs).
Proof. intros -> Hl. unfold first_way. cbn [rmatch]. rewrite Hl. reflexivity. Qed.

Lemma first_way_last_lit_fail ci l s cs :
  lit_prefix ci l s = false -> first_way ci (Lit l) s cs = None.
Proof. intros Hl. unfold first_way. cbn [rmatch]. rewrite Hl. reflexivity. Qed.

(** The counts a quantifier tries before it tries [j]. *)
Lemma counts_split min (greedy : bool) n j :
  min <= j <= n ->
  exists before after,
    counts min greedy n = before ++ j :: after
    /\ forall i, In i before ->
         if greedy return Prop then j < i <= n else min <= i < j.
Proof.
  intros Hj. unfold counts.
  assert (Hseq : seq min (S n - min) =
                 seq min (j - min) ++ j :: seq (S j) (n - j)).
  { replace (S n - min) with ((j - min) + S (n - j)) by lia.
    rewrite seq_app. cbn [seq]. replace (min + (j - min)) with j by lia.
    reflexivity. }
  rewrite Hseq. destruct greedy.
  - exists (rev (seq (S j) (n - j))), (rev (seq min (j - min))). split.
    + rewrite rev_app_distr. cbn [rev]. rewrite <- app_assoc. reflexivity.
    + intros i Hi. apply in_rev, in_seq in Hi. lia.
  - exists (seq min (j - min)), (seq (S j) (n - j)). split; [reflexivity|].
    intros i Hi. apply in_seq in Hi. lia.
Qed.

(** A quantified class in front: the count [j] is the one taken when the
    rest matches after it and after none of the counts tried earlier. *)
Lemma first_way_rep ci min (greedy : bool) k r s cs j c2 r2 cs2 :
  min <= j <= run k s ->
  (forall i, (if greedy return Prop then j < i <= run k s else min <= i < j) ->
             first_way ci r (skipn i s) cs = None) ->
  first_way ci r (skipn j s) cs = Some (c2, r2, cs2) ->
  first_way ci (Rep min greedy k ~> r) s cs = Some (firstn j s ++ c2, r2, cs2).
Proof.
  intros Hj Hearlier Hr.
  destruct (counts_split min greedy (run k s) j Hj) as (before & after & Hc & Hb).
  eapply (first_way_seq ci (Rep min greedy k) r s cs
           (map (fun i => (firstn i s, skipn i s, cs)) before) _ _ _
           (map (fun i => (firstn i s, skipn i s, cs)) after)).
  - cbn [rmatch]. rewrite Hc, map_app. reflexivity.
  - intros w' Hw'. apply in_map_iff in Hw' as (i & <- & Hi). cbn [fst snd].
    apply Hearlier, Hb, Hi.
  - exact Hr.
Qed.

(** The same for a quantified class inside a capture group. *)
Lemma first_way_group_rep ci g min (greedy : bool) k r s cs j c2 r2 cs2 :
  min <= j <= run k s ->
  (forall i, (if greedy return Prop then j < i <= run k s else min <= i < j) ->
             first_way ci r (skipn i s) ((g, firstn i s) :: cs) = None) ->
  first_way ci r (skipn j s) ((g, firstn j s) :: cs) = Some (c2, r2, cs2) ->
  first_way ci (Group g (Rep min greedy k) ~> r) s cs =
    Some (firstn j s ++ c2, r2, cs2).
Proof.
  intros Hj Hearlier Hr.
  destruct (counts_split min greedy (run k s) j Hj) as (before & after & Hc & Hb).
  eapply (first_way_seq ci (Group g (Rep min greedy k)) r s cs
           (map (fun i => (firstn i s, skipn i s, (g, firstn i s) :: cs)) before)
           _ _ _
           (map (fun i => (firstn i s, skipn i s, (g, firstn i s) :: cs)) after)).
  - cbn [rmatch]. rewrite Hc, !map_app, !map_map. reflexivity.
  - intros w' Hw'. apply in_map_iff in Hw' as (i & <- & Hi). cbn [fst snd].
    apply Hearlier, Hb, Hi.
  - exact Hr.
Qed.

(** An optional group in front, taken. *)
Lemma first_way_opt_taken ci a r s cs c1 r1 cs1 c2 r2 cs2 :
  first_way ci a s cs = Some (c1, r1, cs1) ->
  first_way ci r r1 cs1 = Some (c2, r2, cs2) ->
  first_way ci (Opt a ~> r) s cs = Some (c1 ++ c2, r2, cs2).
Proof.
  intros Ha Hr. unfold first_way in Ha.
  destruct (rmatch ci a s cs) as [|w1 ws] eqn:Hws; [discriminate|].
  injection Ha as ->.
  eapply (first_way_seq ci (Opt a) r s cs [] _ _ _ (ws ++ [([], s, cs)]));
    [|intros w' []|exact Hr].
  cbn [rmatch]. rewrite Hws. reflexivity.
Qed.

(** An optional group in front, skipped because it does not match. *)
Lemma first_way_opt_skipped ci a r s cs c2 r2 cs2 :
  first_way ci a s cs = None ->
  first_way ci r s cs = Some (c2, r2, cs2) ->
  first_way ci (Opt a ~> r) s cs = Some (c2, r2, cs2).
Proof.
  intros Ha Hr. apply head_none_nil in Ha.
  change c2 with ([] ++ c2).
  eapply (first_way_seq ci (Opt a) r s cs [] _ _ _ []); [|intros w' []|exact Hr].
  cbn [rmatch]. rewrite Ha. reflexivity.
Qed.

(** ** Literals and runs in a text with unknown parts *)

Lemma firstn_app_len {A} (u s : list A) : firstn (length u) (u ++ s) = u.
Proof. induction u as [|a u IH]; [reflexivity|]. cbn. f_equal. exact IH. Qed.

Lemma skipn_app_len {A} (u s : list A) : skipn (length u) (u ++ s) = s.
Proof. induction u as [|a u IH]; [reflexivity|]. exact IH. Qed.

Lemma skipn_app_le {A} (u s : list A) i :
  i <= length u -> skipn i (u ++ s) = skipn i u ++ s.
Proof.
  revert i. induction u as [|a u IH]; intros i Hi.
  - cbn in Hi. replace i with 0 by lia. reflexivity.
  - destruct i as [|i]; [reflexivity|]. cbn [skipn app]. apply IH. cbn in Hi. lia.
Qed.

(** A literal against a text made of two parts: it lies in the first part,
    or it goes across the joint. *)
Lemma lit_prefix_app ci : forall l u s,
  lit_prefix ci l (u ++ s) =
    if length l <=? length u then lit_prefix ci l u
    else lit_prefix ci (firstn (length u) l) u
         && lit_prefix ci (skipn (length u) l) s.
Proof.
  induction l as [|x l IH]; intros u s; [reflexivity|].
  destruct u as [|y u].
  - cbn [app length Nat.leb firstn skipn lit_prefix andb]. reflexivity.
  - cbn [app lit_prefix length firstn skipn]. rewrite IH.
    change (S (length l) <=? S (length u)) with (length l <=? length u).
    destruct (length l <=? length u); [reflexivity|].
    rewrite andb_assoc. reflexivity.
Qed.

Lemma occurs_skipn ci l : forall s i,
  occurs ci l s = false -> lit_prefix ci l (skipn i s) = false.
Proof.
  induction s as [|a s IH]; intros i H; cbn [occurs] in H;
    apply orb_false_iff in H as [H1 H2].
  - rewrite skipn_nil. exact H1.
  - destruct i as [|i]; [exact H1 | apply IH, H2].
Qed.

(** A literal that does not occur in [g] does not start inside [g] when
    [g] is followed by a text that none of the literal's tails matches. *)
Lemma no_start_inside ci l g s i :
  occurs ci l g = false ->
  (forall j, 0 < j < length l -> lit_prefix ci (skipn j l) s = false) ->
  i < length g ->
  lit_prefix ci l (skipn i (g ++ s)) = false.
Proof.
  intros Hocc Htails Hi. rewrite skipn_app_le by lia. rewrite lit_prefix_app.
  assert (Hlen : length (skipn i g) = length g - i) by apply length_skipn.
  destruct (length l <=? length (skipn i g)) eqn:Hle.
  - apply occurs_skipn, Hocc.
  - apply Nat.leb_gt in Hle. rewrite Htails by lia. apply andb_false_r.
Qed.

Lemma run_any s : run CAny s = length s.
Proof. induction s as [|a s IH]; [reflexivity|]. cbn. rewrite IH. reflexivity. Qed.

Lemma run_app_stop k u a s :
  forallb (cmatch k) u = true -> cmatch k a = false ->
  run k (u ++ a :: s) = length u.
Proof.
  intros Hu Ha. induction u as [|b u IH]; cbn [app run length].
  - rewrite Ha. reflexivity.
  - cbn [forallb] in Hu. apply andb_true_iff in Hu as [Hb Hu].
    rewrite Hb, IH by exact Hu. reflexivity.
Qed.

Lemma run_app_le k u a s :
  cmatch k a = false -> run k (u ++ a :: s) <= length u.
Proof.
  intros Ha. induction u as [|b u IH]; cbn [app run length].
  - rewrite Ha. lia.
  - destruct (cmatch k b); lia.
Qed.

(** ** Texts that hold a structured-artifact container

    The actions, the title and the texts around them are unknown; what is
    known is how they are put together, see [Format]. *)

(** The text as a list of its known characters and unknown parts. *)
Ltac norm_str :=
  repeat (progress cbn [app js list_ascii_of_string Format.file_action
                        Format.shell_action Format.artifact Format.fenced]
          || rewrite <- app_assoc).

(** Evaluate the run of a class over a text whose first characters are
    known. *)
Ltac eval_run :=
  repeat match goal with
         | |- context [run ?k (?a :: ?s)] =>
             let v := eval vm_compute in (run k (a :: s)) in
             change (run k (a :: s)) with v
         | H : context [run ?k (?a :: ?s)] |- _ =>
             let v := eval vm_compute in (run k (a :: s)) in
             change (run k (a :: s)) with v in H
         end.

(** A literal of the pattern against known characters. *)
Ltac step_lit :=
  eapply first_way_lit;
  [reflexivity | reflexivity | cbn [skipn length]; rewrite ?skipn_O].

(** A quantifier over known characters, which takes [j] of them at once. *)
Ltac step_rep j :=
  first [ eapply (first_way_rep _ _ _ _ _ _ _ j)
        | eapply (first_way_group_rep _ _ _ _ _ _ _ _ j) ];
  [ rewrite ?skipn_O; eval_run; lia
  | intros ? ?; rewrite ?skipn_O in *; eval_run; lia
  | cbn [skipn firstn]; rewrite ?skipn_O, ?firstn_O ].

(** No proper tail of a literal matches a text that starts with a character
    the tail does not start with. *)
Ltac solve_tails :=
  let j := fresh "j" in let Hj := fresh "Hj" in
  intros j Hj; cbn [length] in Hj;
  do 16 (destruct j as [|j]; [try lia; reflexivity|]); lia.

(** The goal [first_match .. = Some w], to be proved along the pattern
    and then by comparing the way found with [w]. *)
Ltac start_match :=
  match goal with
  | |- first_match ?ci ?r ?s = Some ?w =>
      change (first_way ci r s [] = Some w);
      enough (exists w', first_way ci r s [] = Some w' /\ w' = w)
        as (? & ? & <-); [assumption|];
      cbn [pattern PATTERNS.boltAction PATTERNS.boltArtifact PATTERNS.markdownBlock];
      unfold Plus, Star, LazyStar; norm_str; eexists; split
  end.

Ltac finish_match :=
  cbn [firstn skipn app length];
  rewrite ?skipn_O, ?firstn_O, ?firstn_app_len; norm_str; reflexivity.

Lemma first_match_file_action p c rest :
  p <> [] ->
  forallb (cmatch (CNot DQ)) p = true ->
  occurs true (js "</boltAction>") c = false ->
  first_match true (pattern PATTERNS.boltAction) (Format.file_action p c ++ rest)
  = Some (Format.file_action p c, rest, [(3, c); (2, p); (1, js "file")]).
Proof.
  intros Hp Hq Hc.
  assert (Hlen : 1 <= length p) by (destruct p; [contradiction | cbn; lia]).
  start_match.
  - step_lit. step_rep 1. step_lit. step_rep 4. step_lit.
    eapply first_way_opt_taken.
    + step_rep 1. step_lit.
      eapply (first_way_group_rep _ _ _ _ _ _ _ _ (length p)).
      * rewrite run_app_stop by (exact Hq || reflexivity). lia.
      * intros i Hi. rewrite run_app_stop in Hi by (exact Hq || reflexivity). lia.
      * rewrite skipn_app_len, firstn_app_len.
        eapply first_way_last_lit; reflexivity.
    + cbn [skipn firstn length]; rewrite ?skipn_O.
      step_rep 0. step_lit.
      eapply (first_way_group_rep _ _ _ _ _ _ _ _ (length c)).
      * rewrite run_any, length_app. lia.
      * intros i Hi. apply first_way_last_lit_fail.
        apply no_start_inside; [exact Hc | solve_tails | lia].
      * rewrite skipn_app_len, firstn_app_len.
        eapply first_way_last_lit; reflexivity.
  - finish_match.
Qed.

Lemma first_match_shell_action c rest :
  occurs true (js "</boltAction>") c = false ->
  first_match true (pattern PATTERNS.boltAction) (Format.shell_action c ++ rest)
  = Some (Format.shell_action c, rest, [(3, c); (1, js "shell")]).
Proof.
  intros Hc. start_match.
  - step_lit. step_rep 1. step_lit. step_rep 5. step_lit.
    eapply first_way_opt_skipped.
    + apply first_way_seq_none. intros w Hw. cbn [rmatch] in Hw.
      eval_run. destruct Hw.
    + step_rep 0. step_lit.
      eapply (first_way_group_rep _ _ _ _ _ _ _ _ (length c)).
      * rewrite run_any, length_app. lia.
      * intros i Hi. apply first_way_last_lit_fail.
        apply no_start_inside; [exact Hc | solve_tails | lia].
      * rewrite skipn_app_len, firstn_app_len.
        eapply first_way_last_lit; reflexivity.
  - finish_match.
Qed.

Lemma first_match_action a rest :
  Format.action_ok a = true ->
  first_match true (pattern PATTERNS.boltAction) (Format.render a ++ rest)
  = Some (Format.render a, rest, Format.action_captures a).
Proof.
  destruct a as [p c|c]; cbn [Format.action_ok Format.render Format.action_captures].
  - rewrite !andb_true_iff, !negb_true_iff. intros [[Hp Hq] Hc].
    apply first_match_file_action; [|exact Hq|exact Hc].
    intros ->. discriminate Hp.
  - rewrite negb_true_iff. apply first_match_shell_action.
Qed.

(** ** Scanning *)

Lemma search_hit rx s k w :
  first_match (ignoreCase rx) (pattern rx) s = Some w ->
  search rx s k = Some (k, w).
Proof. intros H. destruct s; cbn [search]; rewrite H; reflexivity. Qed.

Lemma search_gap rx : forall g s k,
  (forall i, i < length g ->
     first_match (ignoreCase rx) (pattern rx) (skipn i (g ++ s)) = None) ->
  search rx (g ++ s) k = search rx s (k + length g).
Proof.
  induction g as [|a g IH]; intros s k H.
  - cbn [app length]. rewrite Nat.add_0_r. reflexivity.
  - cbn [app search].
    assert (H0 : first_match (ignoreCase rx) (pattern rx) (a :: g ++ s) = None)
      by (apply (H 0); cbn; lia).
    rewrite H0, IH; [cbn [length]; f_equal; lia|].
    intros i Hi. apply (H (S i)). cbn. lia.
Qed.

Lemma search_none rx : forall s k,
  (forall i, i <= length s ->
     first_match (ignoreCase rx) (pattern rx) (skipn i s) = None) ->
  search rx s k = None.
Proof.
  induction s as [|a s IH]; intros k H; cbn [search].
  - assert (H0 : first_match (ignoreCase rx) (pattern rx) [] = None)
      by (apply (H 0); cbn; lia).
    rewrite H0. reflexivity.
  - assert (H0 : first_match (ignoreCase rx) (pattern rx) (a :: s) = None)
      by (apply (H 0); cbn; lia).
    rewrite H0. apply IH.
    intros i Hi. apply (H (S i)). cbn. lia.
Qed.

(** The [exec] loop finds the matches of a scan. *)
Lemma scan_exec_loop rx text :
  1 <= min_len (pattern rx) ->
  forall s ms, scan rx s ms ->
  forall fuel li l0,
    li <= length text -> skipn li text = s -> length s < fuel ->
    exec_loop fuel rx text (fun cs l => l ++ [cs]) li l0 = Some (l0 ++ ms, 0).
Proof.
  intros Hmin s ms Hscan.
  induction Hscan as [s Hnone|g m rest cs ms Hgap Hm Hscan IH];
    intros fuel li l0 Hli Hs Hfuel; (destruct fuel as [|fuel]; [lia|]);
    cbn [exec_loop]; unfold exec;
    (replace (length text <? li) with false by (symmetry; apply Nat.ltb_ge; lia));
    rewrite Hs.
  - rewrite search_none by exact Hnone. rewrite app_nil_r. reflexivity.
  - rewrite search_gap by exact Hgap. rewrite (search_hit _ _ _ _ Hm).
    pose proof (first_match_sound _ _ _ _ _ _ Hm) as [_ Hlen].
    assert (Htext : length text = li + length (g ++ m ++ rest)).
    { rewrite <- Hs, length_skipn. lia. }
    rewrite !length_app in Htext.
    rewrite (IH fuel (li + length g + length m) (l0 ++ [cs])).
    + rewrite <- app_assoc. reflexivity.
    + lia.
    + replace (li + length g + length m) with (length (g ++ m) + li)
        by (rewrite length_app; lia).
      rewrite <- skipn_skipn, Hs, app_assoc. apply skipn_app_len.
    + rewrite !length_app in Hfuel. lia.
Qed.

Lemma scan_matches rx text ms :
  1 <= min_len (pattern rx) -> scan rx text ms -> matches rx text = Some ms.
Proof.
  intros Hmin Hscan. unfold matches.
  rewrite (scan_exec_loop rx text Hmin text ms Hscan (loop_fuel text) 0 []);
    [reflexivity | lia | reflexivity | unfold loop_fuel; lia].
Qed.

(** No action starts inside a gap. *)
Lemma no_action_in_gap g s i :
  Format.gap_ok g = true ->
  (forall j, 0 < j < length (js "<boltAction") ->
     lit_prefix true (skipn j (js "<boltAction")) s = false) ->
  i < length g ->
  first_match true (pattern PATTERNS.boltAction) (skipn i (g ++ s)) = None.
Proof.
  unfold Format.gap_ok. rewrite negb_true_iff. intros Hg Htails Hi.
  apply first_way_lit_fail. apply no_start_inside; assumption.
Qed.

Lemma scan_body : forall items g0,
  Format.gap_ok g0 = true ->
  forallb (fun ag => Format.action_ok (fst ag) && Format.gap_ok (snd ag)) items = true ->
  scan PATTERNS.boltAction (Format.body_of g0 items)
       (map (fun ag => Format.action_captures (fst ag)) items).
Proof.
  induction items as [|[a g] items IH]; intros g0 Hg0 Hitems.
  - unfold Format.body_of. cbn [flat_map map]. apply scan_end.
    intros i Hi. rewrite app_nil_r in *.
    destruct (Nat.eq_dec i (length g0)) as [->|Hne].
    + rewrite skipn_all. apply first_match_nil, min_len_boltAction.
    + rewrite <- (app_nil_r g0). apply no_action_in_gap; [exact Hg0 | | lia].
      intros j Hj. destruct (skipn j (js "<boltAction")) eqn:E; [|reflexivity].
      apply (f_equal (@length ascii)) in E. rewrite length_skipn in E.
      cbn [length] in E. lia.
  - cbn [forallb fst snd] in Hitems.
    apply andb_true_iff in Hitems as [Hag Hitems].
    apply andb_true_iff in Hag as [Ha Hg].
    unfold Format.body_of. cbn [flat_map map fst snd].
    rewrite <- app_assoc. fold (Format.body_of g items).
    apply scan_hit.
    + intros i Hi. apply no_action_in_gap; [exact Hg0 | | exact Hi].
      destruct a; cbn [Format.render]; norm_str; solve_tails.
    + apply (first_match_action a _ Ha).
    + apply IH; assumption.
Qed.

(** ** The container *)

Lemma first_match_container title body post :
  Format.title_ok title = true ->
  occurs true (js "</boltArtifact>") body = false ->
  first_match true (pattern PATTERNS.boltArtifact)
    (Format.artifact title body ++ post)
  = Some (Format.artifact title body, post, [(2, body); (1, title)]).
Proof.
  unfold Format.title_ok. rewrite andb_true_iff, negb_true_iff.
  intros [Hq Hocc] Hbody.
  start_match.
  - step_lit.
    eapply (first_way_rep _ _ _ _ _ _ _ 1).
    + simpl run. lia.
    + intros i Hi. apply first_way_lit_fail.
      match type of Hi with
      | _ < _ <= run ?k (?a1 :: ?a2 :: ?a3 :: ?a4 :: ?a5 :: ?a6 :: ?a7 :: ?a8 :: title ++ DQ :: ?gt :: ?x) =>
          assert (Hrun : run k (a1 :: a2 :: a3 :: a4 :: a5 :: a6 :: a7 :: a8 :: title ++ DQ :: gt :: x)
                         <= 9 + length title);
          [ change (a1 :: a2 :: a3 :: a4 :: a5 :: a6 :: a7 :: a8 :: title ++ DQ :: gt :: x)
              with ([a1; a2; a3; a4; a5; a6; a7; a8] ++ title ++ [DQ] ++ gt :: x);
            rewrite 2!app_assoc;
            etransitivity; [apply run_app_le; reflexivity|];
            rewrite !length_app; cbn [length]; lia
          | ]
      end.
      do 8 (destruct i as [|i]; [try lia; reflexivity|]).
      cbn [skipn].
      destruct (Nat.eq_dec i (S (length title))) as [->|Hne].
      * change (title ++ DQ :: ?x) with (title ++ [DQ] ++ x).
        rewrite app_assoc.
        replace (S (length title)) with (length (title ++ [DQ]))
          by (rewrite length_app; cbn; lia).
        rewrite skipn_app_len. reflexivity.
      * change (title ++ DQ :: ?x) with (title ++ [DQ] ++ x).
        rewrite app_assoc.
        apply no_start_inside; [exact Hocc | solve_tails |].
        rewrite length_app. cbn [length]. lia.
    + cbn [skipn firstn]. step_lit.
      eapply (first_way_group_rep _ _ _ _ _ _ _ _ (length title)).
      * rewrite run_app_stop by (exact Hq || reflexivity). lia.
      * intros i Hi. rewrite run_app_stop in Hi by (exact Hq || reflexivity). lia.
      * rewrite skipn_app_len, firstn_app_len.
        step_lit. step_rep 0. step_lit.
        eapply (first_way_group_rep _ _ _ _ _ _ _ _ (length body)).
        -- rewrite run_any, length_app. lia.
        -- intros i Hi. apply first_way_last_lit_fail.
           apply no_start_inside; [exact Hbody | solve_tails | lia].
        -- rewrite skipn_app_len, firstn_app_len.
           eapply first_way_last_lit; reflexivity.
  - finish_match.
Qed.

(** ** [parseArtifact] on a well-formed container *)

Lemma extraction_of_actions : forall items fs cmds,
  forallb (fun ag => Format.action_ok (fst ag) && Format.gap_ok (snd ag)) items = true ->
  fold_left (fun acc a => bolt_body a acc)
            (map (fun ag => Format.action_captures (fst ag)) items) (fs, cmds)
  = (fold_left (fun fs ag => match fst ag with
                             | Format.FileAction p c => JSMap.set fs p (trim c)
                             | Format.ShellAction _ => fs
                             end) items fs,
     cmds ++ Format.commands_of items).
Proof.
  induction items as [|[a g] items IH]; intros fs cmds Hitems.
  - cbn. rewrite app_nil_r. reflexivity.
  - cbn [forallb fst snd] in Hitems.
    apply andb_true_iff in Hitems as [Hag Hitems].
    apply andb_true_iff in Hag as [Ha _].
    cbn [map fold_left fst]. destruct a as [p c|c].
    + cbn [Format.action_ok] in Ha.
      apply andb_true_iff in Ha as [Ha _]. apply andb_true_iff in Ha as [Hp _].
      destruct p as [|x p]; [discriminate|].
      replace (bolt_body _ (fs, cmds))
        with (JSMap.set fs (x :: p) (trim c), cmds) by reflexivity.
      rewrite IH by exact Hitems. reflexivity.
    + replace (bolt_body _ (fs, cmds))
        with (fs, cmds ++ [trim c]) by reflexivity.
      rewrite IH by exact Hitems.
      unfold Format.commands_of. cbn [flat_map fst app].
      rewrite <- app_assoc. reflexivity.
Qed.

(** A text that holds a container as [Format.artifact] writes it, with a
    title that has no double quote and
    does not end in [title=], actions as [Format.render] writes them
    (paths not empty and without double quote, bodies without the closing
    tag of actions), no opening of an action between the actions, no
    closing tag of the container inside its body, and no opening of a
    container in the text before it: [parseArtifact] returns the files
    and the commands of the actions, and the title, when there is a file
    among them. *)
Lemma well_formed_container_extracted st pre title g0 items post :
  occurs true (js "<boltArtifact") pre = false ->
  Format.title_ok title = true ->
  Format.gap_ok g0 = true ->
  forallb (fun ag => Format.action_ok (fst ag) && Format.gap_ok (snd ag)) items = true ->
  occurs true (js "</boltArtifact>") (Format.body_of g0 items) = false ->
  Format.files_of items <> [] ->
  option_map fst
    (parseArtifact st
       (pre ++ Format.artifact title (Format.body_of g0 items) ++ post))
  = Some {| files := Format.files_of items;
            commands := Format.commands_of items;
            metadata := Some {| title := Some title |} |}.
Proof.
  intros Hpre Htitle Hg0 Hitems Hbody Hfiles.
  set (body := Format.body_of g0 items) in *.
  assert (Hsearch :
    search PATTERNS.boltArtifact (pre ++ Format.artifact title body ++ post) 0 =
      Some (0 + length pre,
            (Format.artifact title body, post, [(2, body); (1, title)]))).
  { rewrite search_gap.
    - apply search_hit. apply first_match_container; assumption.
    - intros i Hi. apply first_way_lit_fail.
      apply no_start_inside; [exact Hpre | | exact Hi].
      norm_str. solve_tails. }
  assert (Hactions :
    matches PATTERNS.boltAction body =
      Some (map (fun ag => Format.action_captures (fst ag)) items)).
  { apply scan_matches; [exact min_len_boltAction|].
    apply scan_body; assumption. }
  assert (Hext :
    extraction (map (fun ag => Format.action_captures (fst ag)) items) =
      (Format.files_of items, Format.commands_of items)).
  { unfold extraction. rewrite extraction_of_actions by exact Hitems.
    reflexivity. }
  rewrite (parseArtifact_container_with_file st _ _ _ _ _ _ Hsearch Hactions);
    rewrite Hext; [reflexivity | exact Hfiles].
Qed.

(** Two file actions with distinct paths and one shell action, in any of
    their orders, give two file entries and one command. *)
Lemma two_files_one_shell st pre title g0 items post p1 c1 p2 c2 c3 :
  p1 <> p2 ->
  In (map fst items)
     [ [Format.FileAction p1 c1; Format.FileAction p2 c2; Format.ShellAction c3];
       [Format.FileAction p1 c1; Format.ShellAction c3; Format.FileAction p2 c2];
       [Format.ShellAction c3; Format.FileAction p1 c1; Format.FileAction p2 c2] ] ->
  occurs true (js "<boltArtifact") pre = false ->
  Format.title_ok title = true ->
  Format.gap_ok g0 = true ->
  forallb (fun ag => Format.action_ok (fst ag) && Format.gap_ok (snd ag)) items = true ->
  occurs true (js "</boltArtifact>") (Format.body_of g0 items) = false ->
  option_map fst
    (parseArtifact st
       (pre ++ Format.artifact title (Format.body_of g0 items) ++ post))
  = Some {| files := [(p1, trim c1); (p2, trim c2)];
            commands := [trim c3];
            metadata := Some {| title := Some title |} |}.
Proof.
  intros Hne Horder Hpre Htitle Hg0 Hitems Hbody.
  assert (Hfc : Format.files_of items = [(p1, trim c1); (p2, trim c2)]
                /\ Format.commands_of items = [trim c3]).
  { assert (Hset : JSMap.set [(p1, trim c1)] p2 (trim c2)
                   = [(p1, trim c1); (p2, trim c2)]).
    { cbn. rewrite str_eqb_neq by congruence. reflexivity. }
    destruct Horder as [H|[H|[H|[]]]];
      (destruct items as [|[a1 g1] [|[a2 g2] [|[a3 g3] [|? ?]]]];
       try discriminate H);
      cbn [map fst] in H; injection H as <- <- <-;
      unfold Format.files_of, Format.commands_of;
      cbn [fold_left flat_map fst app JSMap.set JSMap.empty];
      rewrite ?Hset; auto. }
  destruct Hfc as [Hf Hc].
  rewrite well_formed_container_extracted; try assumption.
  - rewrite Hf, Hc. reflexivity.
  - rewrite Hf. discriminate.
Qed.

(** ** [fileMapToTree] never gives a node a child *)

Section FileTreeProperties.

Import FileTree.

Lemma childless_new_node st n :
  childless_store st -> children n = None \/ children n = Some [] ->
  childless_store (fst (new_node st n)).
Proof.
  intros Hst Hn i m. cbn [new_node fst nodes].
  rewrite lookup_app. destruct (nodes st !! i) as [m'|] eqn:Hi.
  - intros [= <-]. eapply Hst; eauto.
  - destruct (i - length (nodes st)) as [|k]; cbn; [|discriminate].
    intros [= <-]. exact Hn.
Qed.

Lemma childless_map_set st m k node :
  childless_store st -> childless_store (map_set st m k node).
Proof. intros Hst. exact Hst. Qed.

Lemma childless_write_nil st node :
  childless_store st -> childless_store (write_children st node []).
Proof.
  intros Hst i n. cbn [write_children nodes]. rewrite list_lookup_alter.
  destruct (decide (node = i)) as [->|Hne].
  - destruct (nodes st !! i); cbn; [|discriminate]. intros [= <-]. right. reflexivity.
  - apply Hst.
Qed.

Lemma children_of_childless st node :
  childless_store st -> default [] (children_of st node) = [].
Proof.
  intros Hst. unfold children_of. destruct (nodes st !! node) as [n|] eqn:Hn;
    [|reflexivity].
  destruct (Hst _ _ Hn) as [->| ->]; reflexivity.
Qed.

Lemma map_of_new_map st :
  map_of (fst (new_map st)) (snd (new_map st)) = [].
Proof.
  unfold map_of, new_map. cbn [fst snd maps].
  rewrite lookup_app_r by apply le_n. rewrite Nat.sub_diag. reflexivity.
Qed.

Lemma childless_segment files path_ parts st cur i :
  childless_store st ->
  childless_store (fst (segment files path_ parts (st, cur) i)).
Proof.
  intros Hst. unfold segment.
  set (part := default [] (parts !! i)).
  set (isFile := i =? length parts - 1).
  set (node := {| name := part; type := if isFile then file else folder;
                  path := join (js "/") (firstn (i + 1) parts);
                  content := if isFile then JSMap.get files path_ else None;
                  children := if isFile then None else Some [] |}).
  assert (Hnode : children node = None \/ children node = Some []).
  { unfold node. cbn. destruct isFile; auto. }
  set (st1 := if JSMap.has (map_of st cur) part then st
              else let '(st, node) := new_node st node in map_set st cur part node).
  assert (Hst1 : childless_store st1).
  { unfold st1. destruct (JSMap.has _ _); [exact Hst|].
    apply childless_map_set, childless_new_node; assumption. }
  change (childless_store (fst (
    if isFile then (st1, cur)
    else match JSMap.get (map_of st1 cur) part with
         | None => (st1, cur)
         | Some folder_ =>
             let st := match children_of st1 folder_ with
                       | None => write_children st1 folder_ []
                       | Some _ => st1
                       end in
             let '(st, nextLevel) := new_map st in
             let st := fold_left (fun st child => map_set st nextLevel (name_of st child) child)
                         (default [] (children_of st folder_)) st in
             let st := write_children st folder_ (JSMap.values (map_of st nextLevel)) in
             (st, nextLevel)
         end))).
  destruct isFile; [exact Hst1|].
  destruct (JSMap.get (map_of st1 cur) part) as [folder_|]; [|exact Hst1].
  set (st2 := match children_of st1 folder_ with
              | None => write_children st1 folder_ []
              | Some _ => st1
              end).
  assert (Hst2 : childless_store st2).
  { unfold st2. destruct (children_of st1 folder_); [exact Hst1|].
    apply childless_write_nil, Hst1. }
  cbv zeta.
  destruct (new_map st2) as [st3 nextLevel] eqn:Hnew.
  assert (Hst3 : childless_store st3).
  { replace st3 with (fst (new_map st2)) by (rewrite Hnew; reflexivity). exact Hst2. }
  rewrite (children_of_childless st3 folder_ Hst3). cbn [fold_left fst].
  replace (map_of st3 nextLevel) with (@nil (str * nat)).
  - apply childless_write_nil, Hst3.
  - pose proof (map_of_new_map st2) as H. rewrite Hnew in H. symmetry. exact H.
Qed.

Lemma childless_fold_segment files path_ parts : forall idx st cur,
  childless_store st ->
  childless_store (fst (fold_left (segment files path_ parts) idx (st, cur))).
Proof.
  induction idx as [|i idx IH]; intros st cur Hst; [exact Hst|].
  cbn [fold_left].
  destruct (segment files path_ parts (st, cur) i) as [st' cur'] eqn:Hseg.
  apply IH. replace st' with (fst (segment files path_ parts (st, cur) i))
    by (rewrite Hseg; reflexivity).
  apply childless_segment, Hst.
Qed.

Lemma childless_add_path files st p :
  childless_store st -> childless_store (add_path files st p).
Proof. intros Hst. unfold add_path. apply childless_fold_segment, Hst. Qed.

Lemma childless_fold_add_path files : forall ks st,
  childless_store st -> childless_store (fold_left (add_path files) ks st).
Proof.
  induction ks as [|k ks IH]; intros st Hst; [exact Hst|].
  cbn [fold_left]. apply IH, childless_add_path, Hst.
Qed.

Lemma reify_childless fuel st node n :
  childless_store st -> reify fuel st node = Some n ->
  node_children n = None \/ node_children n = Some [].
Proof.
  intros Hst. destruct fuel as [|fuel]; cbn [reify]; [discriminate|].
  destruct (nodes st !! node) as [o|] eqn:Ho; [|discriminate].
  destruct (Hst _ _ Ho) as [Hc|Hc]; rewrite Hc.
  - intros [= <-]. left. reflexivity.
  - cbn. intros [= <-]. right. reflexivity.
Qed.

Lemma JSMap_set_Forall {V} (P : str * V -> Prop) (m : JSMap.t V) k v :
  Forall P m -> P (k, v) -> Forall P (JSMap.set m k v).
Proof.
  intros Hm Hkv. induction Hm as [|[k' v'] m Hk' Hm IH]; cbn [JSMap.set].
  - constructor; [exact Hkv | constructor].
  - destruct (str_eqb k k'); constructor; auto.
Qed.

Lemma map_of_Forall st m :
  valid_refs st -> Forall (fun kv => snd kv < length (nodes st)) (map_of st m).
Proof.
  intros Hst. unfold map_of. destruct (maps st !! m) as [mp|] eqn:Hm; cbn.
  - eapply Hst; eauto.
  - constructor.
Qed.

Lemma valid_new_node_set st n m k :
  valid_refs st ->
  valid_refs (map_set (fst (new_node st n)) m k (snd (new_node st n))).
Proof.
  intros Hst m' mp. cbn [new_node map_set fst snd maps nodes]. unfold map_of.
  cbn [maps]. rewrite length_app. cbn [length].
  intros Hm'. destruct (decide (m = m')) as [->|Hne].
  - destruct (maps st !! m') as [mp0|] eqn:Hmp0.
    + rewrite list_lookup_insert_eq in Hm' by (eapply lookup_lt_Some; eauto).
      injection Hm' as <-. cbn [default].
      apply JSMap_set_Forall; [|cbn; lia].
      eapply Forall_impl; [eapply Hst; eauto|]. cbn. intros; lia.
    + rewrite list_insert_ge in Hm' by (apply lookup_ge_None; exact Hmp0).
      congruence.
  - rewrite list_lookup_insert_ne in Hm' by exact Hne.
    eapply Forall_impl; [eapply Hst; eauto|]. cbn. intros; lia.
Qed.

Lemma valid_write_children st node c :
  valid_refs st -> valid_refs (write_children st node c).
Proof.
  intros Hst m mp Hm. unfold write_children in *. cbn [nodes maps] in *.
  rewrite length_alter. exact (Hst m mp Hm).
Qed.

Lemma valid_new_map st : valid_refs st -> valid_refs (fst (new_map st)).
Proof.
  intros Hst m mp. cbn [new_map fst maps nodes]. rewrite lookup_app.
  pose proof (Hst m) as Hm.
  match goal with |- context [match ?x with _ => _ end] => destruct x as [mp0|] eqn:Hx end.
  - intros H. injection H as H. subst mp. apply Hm. exact Hx.
  - match goal with |- context [_ !! ?j] => destruct j as [|k] end;
      cbn; [|rewrite ?lookup_nil; discriminate].
    intros H. injection H as H. subst mp. constructor.
Qed.

Lemma good_segment files path_ parts st cur i :
  good_store st -> good_store (fst (segment files path_ parts (st, cur) i)).
Proof.
  intros [Hc Hv]. split; [apply childless_segment, Hc|].
  unfold segment.
  set (part := default [] (parts !! i)).
  set (isFile := i =? length parts - 1).
  set (node := {| name := part; type := if isFile then file else folder;
                  path := join (js "/") (firstn (i + 1) parts);
                  content := if isFile then JSMap.get files path_ else None;
                  children := if isFile then None else Some [] |}).
  assert (Hnode : children node = None \/ children node = Some []).
  { unfold node. cbn. destruct isFile; auto. }
  set (st1 := if JSMap.has (map_of st cur) part then st
              else let '(st, node) := new_node st node in map_set st cur part node).
  assert (Hst1 : good_store st1).
  { unfold st1. destruct (JSMap.has _ _); [split; assumption|]. split.
    - apply childless_map_set, childless_new_node; assumption.
    - apply (valid_new_node_set st node cur part Hv). }
  change (valid_refs (fst (
    if isFile then (st1, cur)
    else match JSMap.get (map_of st1 cur) part with
         | None => (st1, cur)
         | Some folder_ =>
             let st := match children_of st1 folder_ with
                       | None => write_children st1 folder_ []
                       | Some _ => st1
                       end in
             let '(st, nextLevel) := new_map st in
             let st := fold_left (fun st child => map_set st nextLevel (name_of st child) child)
                         (default [] (children_of st folder_)) st in
             let st := write_children st folder_ (JSMap.values (map_of st nextLevel)) in
             (st, nextLevel)
         end))).
  destruct Hst1 as [Hc1 Hv1].
  destruct isFile; [exact Hv1|].
  destruct (JSMap.get (map_of st1 cur) part) as [folder_|]; [|exact Hv1].
  set (st2 := match children_of st1 folder_ with
              | None => write_children st1 folder_ []
              | Some _ => st1
              end).
  assert (Hst2 : good_store st2).
  { unfold st2. destruct (children_of st1 folder_); [split; assumption|]. split.
    - apply childless_write_nil, Hc1.
    - apply valid_write_children, Hv1. }
  destruct Hst2 as [Hc2 Hv2]. cbv zeta.
  destruct (new_map st2) as [st3 nextLevel] eqn:Hnew.
  assert (Hc3 : childless_store st3).
  { replace st3 with (fst (new_map st2)) by (rewrite Hnew; reflexivity). exact Hc2. }
  assert (Hv3 : valid_refs st3).
  { replace st3 with (fst (new_map st2)) by (rewrite Hnew; reflexivity).
    apply valid_new_map, Hv2. }
  rewrite (children_of_childless st3 folder_ Hc3). cbn [fold_left fst].
  apply valid_write_children, Hv3.
Qed.

Lemma good_fold_segment files path_ parts : forall idx st cur,
  good_store st ->
  good_store (fst (fold_left (segment files path_ parts) idx (st, cur))).
Proof.
  induction idx as [|i idx IH]; intros st cur Hst; [exact Hst|].
  cbn [fold_left].
  destruct (segment files path_ parts (st, cur) i) as [st' cur'] eqn:Hseg.
  apply IH. replace st' with (fst (segment files path_ parts (st, cur) i))
    by (rewrite Hseg; reflexivity).
  apply good_segment, Hst.
Qed.

Lemma good_fold_add_path files : forall ks st,
  good_store st -> good_store (fold_left (add_path files) ks st).
Proof.
  induction ks as [|k ks IH]; intros st Hst; [exact Hst|].
  cbn [fold_left]. apply IH. unfold add_path. apply good_fold_segment, Hst.
Qed.

Lemma reify_good fuel st node :
  childless_store st -> node < length (nodes st) ->
  exists n, reify (S fuel) st node = Some n
            /\ (node_children n = None \/ node_children n = Some []).
Proof.
  intros Hst Hnode. cbn [reify].
  destruct (lookup_lt_is_Some_2 (nodes st) node Hnode) as [o Ho]. rewrite Ho.
  destruct (Hst _ _ Ho) as [Hc|Hc]; rewrite Hc; cbn; eauto.
Qed.

(** For every file map [fileMapToTree] returns a tree, and no node of the
    tree has a child: [folder.children] is a copy of [nextLevel] taken
    while [nextLevel] is empty, and nothing is added to it later. *)
Lemma fileMapToTree_childless files :
  exists tree,
    fileMapToTree files = Some tree
    /\ Forall (fun n => node_children n = None \/ node_children n = Some []) tree.
Proof.
  unfold fileMapToTree.
  set (st := fold_left (add_path files) (JSMap.keys files) store0).
  assert (Hst : good_store st).
  { apply good_fold_add_path. split.
    - intros i n. cbn. rewrite lookup_nil. discriminate.
    - intros m mp. cbn. destruct m as [|m]; cbn; [|rewrite ?lookup_nil; discriminate].
      intros H. injection H as H. subst mp. constructor. }
  destruct Hst as [Hc Hv].
  pose proof (map_of_Forall st root Hv) as Hroot.
  unfold JSMap.values.
  induction Hroot as [|[k ref] mp Href _ IH]; cbn [map].
  - exists []. split; [reflexivity | constructor].
  - destruct IH as (tree & Htree & Hall).
    destruct (reify_good (length (nodes st)) st ref Hc Href) as (n & Hn & Hcn).
    exists (n :: tree). split; [|constructor; assumption].
    cbn [snd]. apply mapM_Some_2. constructor; [exact Hn|].
    apply mapM_Some_1, Htree.
Qed.

End FileTreeProperties.

(** ** The aggregator: what every run keeps *)

Section EngineInvariants.

Import Engine.

Variable onSendToAI : str -> SendOutcome.

#[local] Arguments thrown : simpl never.

Lemma queueChange_fields c now w :
  pendingChanges (queueChange c now w) = pendingChanges w ++ [stamp c now]
  /\ sent (queueChange c now w) = sent w
  /\ awaiting (queueChange c now w) = awaiting w
  /\ isProcessing (queueChange c now w) = isProcessing w
  /\ errors (queueChange c now w) = errors w
  /\ hasInstantPreview (queueChange c now w) = hasInstantPreview w
  /\ hasOnError (queueChange c now w) = hasOnError w
  /\ previews (queueChange c now w) =
       previews w ++ (if str_eqb (type c) (js "style") && hasInstantPreview w
                      then [(elementId c, change c)] else [])
  /\ timers (queueChange c now w) =
       match debounceTimer w with
       | Some h => remove_timer h (timers w)
       | None => timers w
       end ++ [nextHandle w]
  /\ debounceTimer (queueChange c now w) = Some (nextHandle w).
Proof.
  unfold queueChange, clearDebounce. cbn.
  destruct (_ && _); cbn; destruct (debounceTimer w); cbn;
    rewrite ?app_nil_r; repeat split; reflexivity.
Qed.

(** What [processChanges] leaves alone. *)
Lemma processChanges_frame w :
  timers (processChanges onSendToAI w) = timers w
  /\ debounceTimer (processChanges onSendToAI w) = debounceTimer w
  /\ previews (processChanges onSendToAI w) = previews w
  /\ hasInstantPreview (processChanges onSendToAI w) = hasInstantPreview w
  /\ hasOnError (processChanges onSendToAI w) = hasOnError w.
Proof.
  unfold processChanges. destruct (_ || _); [repeat split; reflexivity|].
  destruct (onSendToAI _); unfold callOnError; cbn;
    [destruct (hasOnError w) eqn:E; cbn; rewrite ?E|]; repeat split; reflexivity.
Qed.

(** [processChanges] moves the pending changes to the submitted ones, or
    does nothing. *)
Lemma processChanges_later w :
  exists later, submitted (processChanges onSendToAI w) = submitted w ++ later
    /\ later ++ pendingChanges (processChanges onSendToAI w) = pendingChanges w.
Proof.
  destruct (isProcessing w) eqn:Hb.
  - rewrite processChanges_busy by exact Hb. exists [].
    rewrite app_nil_r. split; reflexivity.
  - destruct (pendingChanges w) as [|c cs] eqn:Hq.
    + exists []. unfold processChanges. rewrite Hb, Hq. cbn.
      rewrite app_nil_r. split; [reflexivity | exact Hq].
    + destruct (processChanges_idle onSendToAI w Hb) as (Hs & Hq' & _); [congruence|].
      exists (c :: cs). unfold submitted.
      rewrite Hs, Hq', Hq, map_app, concat_app. cbn.
      rewrite !app_nil_r. split; reflexivity.
Qed.

(** The changes an event adds to the submitted ones come from the
    pending ones and from the event, in order. *)
Lemma step_later w e w' :
  step onSendToAI w e = Some w' ->
  exists later, submitted w' = submitted w ++ later
    /\ sublist (later ++ pendingChanges w') (pendingChanges w ++ queued [e])
    /\ (is_clear e = false ->
        later ++ pendingChanges w' = pendingChanges w ++ queued [e]).
Proof.
  assert (Htrig : is_trigger e -> step onSendToAI w e = Some w' ->
    exists later, submitted w' = submitted w ++ later
      /\ later ++ pendingChanges w' = pendingChanges w ++ []).
  { intros Ht H.
    destruct (trigger_unfold onSendToAI w e w' Ht H) as (w0 & -> & Hq & _ & Hs & _).
    destruct (processChanges_later w0) as (later & Hl1 & Hl2).
    exists later. unfold submitted in *. rewrite Hl1, Hl2, Hs, Hq, app_nil_r.
    split; reflexivity. }
  destruct e as [c now| | |t|ok]; cbn [queued flat_map app is_clear].
  - cbn [step]. intros H. injection H as <-. exists [].
    destruct (queueChange_fields c now w) as (Hq & Hs & _).
    unfold submitted. rewrite Hs, Hq, app_nil_r. repeat split; reflexivity.
  - intros H. destruct (Htrig (or_introl eq_refl) H) as (later & H1 & H2).
    exists later. rewrite H2. repeat split; [exact H1 | reflexivity].
  - cbn [step]. intros H. injection H as <-. exists [].
    replace (pendingChanges (clear w)) with (@nil DesignChange)
      by (unfold clear; destruct (debounceTimer w); reflexivity).
    split; [|split; [apply sublist_nil_l | discriminate]].
    unfold submitted, clear, clearDebounce. destruct (debounceTimer w); cbn;
      rewrite app_nil_r; reflexivity.
  - intros H. destruct (Htrig (or_intror (ex_intro _ t eq_refl)) H) as (later & H1 & H2).
    exists later. rewrite H2. repeat split; [exact H1 | reflexivity].
  - cbn [step]. destruct (awaiting w); [discriminate|]. intros H. injection H as <-.
    exists []. rewrite !app_nil_r.
    unfold submitted, resume, callOnError.
    destruct ok; cbn; [|destruct (hasOnError w)]; rewrite ?app_nil_r;
      repeat split; reflexivity.
Qed.

Lemma run_later es : forall w w',
  run onSendToAI w es = Some w' ->
  exists later, submitted w' = submitted w ++ later
    /\ sublist (later ++ pendingChanges w') (pendingChanges w ++ queued es)
    /\ (forallb (fun e => negb (is_clear e)) es = true ->
        later ++ pendingChanges w' = pendingChanges w ++ queued es).
Proof.
  induction es as [|e es IH]; intros w w' Hrun.
  - injection Hrun as <-. exists []. cbn. rewrite !app_nil_r. repeat split; reflexivity.
  - cbn [run] in Hrun. destruct (step onSendToAI w e) as [w1|] eqn:Hstep; [|discriminate].
    destruct (step_later w e w1 Hstep) as (d1 & Hs1 & Hsub1 & Heq1).
    destruct (IH w1 w' Hrun) as (d2 & Hs2 & Hsub2 & Heq2).
    exists (d1 ++ d2). split; [rewrite Hs2, Hs1, app_assoc; reflexivity|].
    change (e :: es) with ([e] ++ es). rewrite queued_app. split.
    + rewrite <- app_assoc. etransitivity.
      * apply sublist_app; [reflexivity | exact Hsub2].
      * rewrite !app_assoc. apply sublist_app; [exact Hsub1 | reflexivity].
    + cbn [app forallb]. intros Hnc. apply andb_true_iff in Hnc as [He Hes].
      apply negb_true_iff in He.
      rewrite <- app_assoc, (Heq2 Hes), !app_assoc, (Heq1 He). reflexivity.
Qed.

Lemma remove_timer_single h : remove_timer h [h] = [].
Proof. unfold remove_timer. cbn. rewrite Nat.eqb_refl. reflexivity. Qed.

Lemma clearDebounce_debounced w :
  debounced w ->
  timers (match debounceTimer w with
          | Some _ => upd_engine (clearDebounce w) (pendingChanges w) None (isProcessing w)
          | None => w
          end) = [].
Proof.
  intros [Ht|(h & Ht & Hd)]; unfold clearDebounce.
  - destruct (debounceTimer w); cbn; rewrite Ht; reflexivity.
  - rewrite Hd. cbn. rewrite Ht. apply remove_timer_single.
Qed.

Lemma step_debounced w e w' :
  debounced w -> step onSendToAI w e = Some w' -> debounced w'.
Proof.
  intros Hinv. destruct e as [c now| | |h|ok]; cbn [step]; intros H.
  - injection H as <-. unfold debounced.
    destruct (queueChange_fields c now w) as (_ & _ & _ & _ & _ & _ & _ & _ & Ht & Hd).
    rewrite Ht, Hd. right. exists (nextHandle w). split; [|reflexivity].
    destruct Hinv as [->|(h & -> & ->)].
    + destruct (debounceTimer w); reflexivity.
    + rewrite remove_timer_single. reflexivity.
  - injection H as <-. unfold flush. left.
    match goal with |- context [processChanges _ ?x] =>
      destruct (processChanges_frame x) as (-> & _) end.
    apply clearDebounce_debounced, Hinv.
  - injection H as <-. left. unfold clear.
    change (timers (upd_engine ?x _ _ _)) with (timers x).
    apply clearDebounce_debounced, Hinv.
  - destruct (existsb _ _) eqn:Hex; [|discriminate]. injection H as <-. left.
    match goal with |- context [processChanges _ ?x] =>
      destruct (processChanges_frame x) as (-> & _) end.
    cbn. destruct Hinv as [Ht|(h' & Ht & Hd)]; rewrite Ht in *.
    + reflexivity.
    + cbn in Hex. rewrite orb_false_r in Hex. apply Nat.eqb_eq in Hex. subst h'.
      apply remove_timer_single.
  - destruct (awaiting w); [discriminate|]. injection H as <-.
    unfold debounced, resume, callOnError in *.
    destruct ok; cbn; [|destruct (hasOnError w); cbn]; exact Hinv.
Qed.

Lemma step_previews w e w' :
  step onSendToAI w e = Some w' ->
  hasInstantPreview w' = hasInstantPreview w
  /\ previews w' = previews w ++ (if hasInstantPreview w then previewed [e] else []).
Proof.
  destruct e as [c now| | |h|ok]; cbn [step previewed flat_map]; intros H.
  - injection H as <-.
    destruct (queueChange_fields c now w) as (_ & _ & _ & _ & _ & Hip & _ & Hpv & _).
    rewrite Hip, Hpv. split; [reflexivity|]. rewrite app_nil_r.
    destruct (hasInstantPreview w); [rewrite andb_true_r | rewrite andb_false_r];
      destruct (str_eqb _ _); reflexivity.
  - injection H as <-. unfold flush.
    match goal with |- context [processChanges _ ?x] =>
      destruct (processChanges_frame x) as (_ & _ & -> & -> & _) end.
    unfold clearDebounce. destruct (debounceTimer w) ; cbn;
      destruct (hasInstantPreview w); rewrite app_nil_r; auto.
  - injection H as <-. unfold clear, clearDebounce.
    destruct (debounceTimer w); cbn; destruct (hasInstantPreview w); rewrite app_nil_r; auto.
  - destruct (existsb _ _); [|discriminate]. injection H as <-.
    match goal with |- context [processChanges _ ?x] =>
      destruct (processChanges_frame x) as (_ & _ & -> & -> & _) end.
    cbn. destruct (hasInstantPreview w); rewrite app_nil_r; auto.
  - destruct (awaiting w); [discriminate|]. injection H as <-.
    unfold resume, callOnError.
    destruct ok; cbn; [|destruct (hasOnError w); cbn];
      destruct (hasInstantPreview w); rewrite app_nil_r; auto.
Qed.

Lemma previewed_app es1 es2 : previewed (es1 ++ es2) = previewed es1 ++ previewed es2.
Proof. unfold previewed. apply flat_map_app. Qed.

Lemma processChanges_well_built w :
  Forall well_built (sent w) -> Forall well_built (sent (processChanges onSendToAI w)).
Proof.
  intros Hinv. destruct (isProcessing w) eqn:Hp.
  - rewrite processChanges_busy; auto.
  - destruct (pendingChanges w) as [|c cs] eqn:Hq.
    + unfold processChanges. rewrite Hp, Hq. cbn. exact Hinv.
    + destruct (processChanges_idle onSendToAI w Hp) as (Hs & _); [congruence|].
      rewrite Hs. apply Forall_app. split; [exact Hinv|].
      constructor; [|constructor]. split; cbn; [congruence|reflexivity].
Qed.

Lemma step_well_built w e w' :
  Forall well_built (sent w) -> step onSendToAI w e = Some w' ->
  Forall well_built (sent w').
Proof.
  intros Hinv. destruct e as [c now| | |h|ok]; cbn [step]; intros H.
  - injection H as <-.
    destruct (queueChange_fields c now w) as (_ & -> & _). exact Hinv.
  - destruct (trigger_unfold onSendToAI w Flush w') as (w0 & -> & _ & _ & Hs & _);
      [left; reflexivity | exact H |].
    apply processChanges_well_built. rewrite Hs. exact Hinv.
  - injection H as <-. unfold clear, clearDebounce.
    destruct (debounceTimer w); cbn; exact Hinv.
  - destruct (trigger_unfold onSendToAI w (TimerFires h) w') as (w0 & -> & _ & _ & Hs & _);
      [right; eauto | exact H |].
    apply processChanges_well_built. rewrite Hs. exact Hinv.
  - destruct (awaiting w); [discriminate|]. injection H as <-.
    unfold resume, callOnError.
    destruct ok; cbn; [|destruct (hasOnError w); cbn]; exact Hinv.
Qed.

Lemma thrown_snoc calls call :
  thrown onSendToAI (calls ++ [call]) =
    thrown onSendToAI calls
    + match onSendToAI (fst call) with Throws => 1 | ReturnsPromise => 0 end.
Proof.
  unfold thrown. rewrite List.filter_app, length_app. cbn.
  destruct (onSendToAI (fst call)); reflexivity.
Qed.

Lemma processChanges_errors w :
  errors (processChanges onSendToAI w)
  + (if hasOnError w then thrown onSendToAI (sent w) else 0)
  = errors w
    + (if hasOnError w then thrown onSendToAI (sent (processChanges onSendToAI w)) else 0).
Proof.
  unfold processChanges. destruct (_ || _); [reflexivity|].
  cbn [upd_engine pendingChanges debounceTimer isProcessing sent awaiting previews errors].
  remember (buildPrompt _) as prompt.
  destruct (onSendToAI prompt) eqn:Hout; unfold callOnError;
    cbn [upd_engine upd_calls pendingChanges debounceTimer isProcessing sent
         awaiting previews errors hasOnError hasInstantPreview timers nextHandle].
  - destruct (hasOnError w) eqn:E;
      cbn [upd_engine upd_calls pendingChanges debounceTimer isProcessing sent
           awaiting previews errors hasOnError hasInstantPreview timers nextHandle];
      [|lia].
    rewrite thrown_snoc. cbn [fst]. rewrite Hout. lia.
  - destruct (hasOnError w); [|lia].
    rewrite thrown_snoc. cbn [fst]. rewrite Hout. lia.
Qed.

Lemma step_errors w e w' n :
  errors w = (if hasOnError w then n + thrown onSendToAI (sent w) else 0) ->
  step onSendToAI w e = Some w' ->
  hasOnError w' = hasOnError w
  /\ errors w' = (if hasOnError w'
                  then (n + failed_settlements [e]) + thrown onSendToAI (sent w') else 0).
Proof.
  intros Hinv. destruct e as [c now| | |h|ok]; cbn [step]; intros H.
  - injection H as <-.
    destruct (queueChange_fields c now w) as (_ & Hs & _ & _ & He & _ & Ho & _).
    rewrite Ho, He, Hs, Hinv. split; [reflexivity|].
    destruct (hasOnError w); cbn; lia.
  - injection H as <-. unfold flush.
    match goal with |- context [processChanges _ ?x] =>
      pose proof (processChanges_errors x) as He;
      destruct (processChanges_frame x) as (_ & _ & _ & _ & Ho);
      assert (Hx : hasOnError x = hasOnError w /\ errors x = errors w /\ sent x = sent w)
        by (unfold clearDebounce; destruct (debounceTimer w); repeat split; reflexivity)
    end.
    destruct Hx as (Hx1 & Hx2 & Hx3). rewrite Hx1, Hx2, Hx3 in *.
    split; [exact Ho|]. rewrite Ho. unfold failed_settlements. cbn.
    destruct (hasOnError w); lia.
  - injection H as <-. unfold clear, clearDebounce.
    destruct (debounceTimer w); cbn; (split; [reflexivity|]); rewrite Hinv;
      unfold failed_settlements; cbn; destruct (hasOnError w); lia.
  - destruct (existsb _ _); [|discriminate]. injection H as <-.
    match goal with |- context [processChanges _ ?x] =>
      pose proof (processChanges_errors x) as He;
      destruct (processChanges_frame x) as (_ & _ & _ & _ & Ho) end.
    cbn in Ho, He. split; [exact Ho|]. rewrite Ho. unfold failed_settlements. cbn.
    destruct (hasOnError w); lia.
  - destruct (awaiting w); [discriminate|]. injection H as <-.
    unfold resume, callOnError, failed_settlements.
    destruct ok; cbn; [|destruct (hasOnError w) eqn:E; cbn; rewrite ?E];
      (split; [reflexivity|]); rewrite Hinv; try rewrite E; try destruct (hasOnError w); lia.
Qed.

Lemma failed_settlements_app es1 es2 :
  failed_settlements (es1 ++ es2) = failed_settlements es1 + failed_settlements es2.
Proof. unfold failed_settlements. rewrite List.filter_app, length_app. reflexivity. Qed.

(** The invariants along a run. *)
Lemma run_keeps es : forall w w' n,
  run onSendToAI w es = Some w' ->
  (debounced w -> debounced w')
  /\ (Forall well_built (sent w) -> Forall well_built (sent w'))
  /\ previews w' = previews w ++ (if hasInstantPreview w then previewed es else [])
  /\ (errors w = (if hasOnError w then n + thrown onSendToAI (sent w) else 0) ->
      errors w' = (if hasOnError w
                   then (n + failed_settlements es) + thrown onSendToAI (sent w') else 0)).
Proof.
  induction es as [|e es IH]; intros w w' n Hrun.
  - injection Hrun as <-. unfold failed_settlements. cbn.
    rewrite Nat.add_0_r. destruct (hasInstantPreview w); rewrite app_nil_r; auto.
  - cbn [run] in Hrun. destruct (step onSendToAI w e) as [w1|] eqn:Hstep; [|discriminate].
    destruct (IH w1 w' (n + failed_settlements [e]) Hrun) as (Hd & Hb & Hp & He).
    destruct (step_previews w e w1 Hstep) as [Hip Hpv].
    change (e :: es) with ([e] ++ es).
    rewrite previewed_app, failed_settlements_app.
    split; [|split; [|split]].
    + intros H. apply Hd. eapply step_debounced; eauto.
    + intros H. apply Hb. eapply step_well_built; eauto.
    + rewrite Hp, Hpv, Hip. destruct (hasInstantPreview w); rewrite <- app_assoc; reflexivity.
    + intros H. destruct (step_errors w e w1 n H Hstep) as [Ho He1].
      rewrite Ho in He1. rewrite Ho in He. rewrite (He He1).
      destruct (hasOnError w); lia.
Qed.

End EngineInvariants.



(** X15: at every state that a new aggregator reaches at most one
    debounce timer is scheduled, and it is the one whose handle the
    engine holds: [queueChange] clears the timer of the change before,
    so that only the timer of the last change queued can fire. *)
Theorem at_most_one_debounce_timer :
  forall (onSendToAI : str -> Engine.SendOutcome) (ip oe : bool)
         (es : list Engine.Event) (w : Engine.World),
    Engine.run onSendToAI (Engine.create ip oe) es = Some w ->
    Engine.timers w = []
    \/ exists h, Engine.timers w = [h] /\ Engine.debounceTimer w = Some h.
Proof.
  intros onSendToAI ip oe es w Hrun.
  destruct (run_keeps onSendToAI es _ _ 0 Hrun) as (Hd & _).
  apply Hd. left. reflexivity.
Qed.

Lemma at_most_one_debounce_timer_witness :
  exists w,
    Engine.run Examples.pending_promise (Engine.create true true)
      Samples.two_changes = Some w
    /\ (Engine.timers w = []
        \/ exists h, Engine.timers w = [h] /\ Engine.debounceTimer w = Some h).
Proof.
  eexists. split; [vm_compute; reflexivity|].
  apply (at_most_one_debounce_timer Examples.pending_promise true true
           Samples.two_changes).
  vm_compute; reflexivity.
Defined.

(** X16: when the engine was given an instant-preview callback, the
    callback has been called, at every state reached, once for every
    style change queued, in the order of the [queueChange] calls and
    with the element and the payload of the change, whether or not a
    submission was in flight and whether or not the change was cleared
    later; for a change of another type it is not called. Without the
    callback nothing is previewed. *)
Theorem style_changes_are_previewed_at_once :
  forall (onSendToAI : str -> Engine.SendOutcome) (ip oe : bool)
         (es : list Engine.Event) (w : Engine.World),
    Engine.run onSendToAI (Engine.create ip oe) es = Some w ->
    Engine.previews w = if ip then previewed es else [].
Proof.
  intros onSendToAI ip oe es w Hrun.
  destruct (run_keeps onSendToAI es _ _ 0 Hrun) as (_ & _ & Hp & _).
  rewrite Hp. reflexivity.
Qed.

Lemma style_changes_are_previewed_at_once_witness :
  exists w,
    Engine.run Examples.pending_promise (Engine.create true true)
      Samples.two_changes = Some w
    /\ Engine.previews w = previewed Samples.two_changes.
Proof.
  eexists. split; [vm_compute; reflexivity|].
  apply (style_changes_are_previewed_at_once Examples.pending_promise true true
           Samples.two_changes).
  vm_compute; reflexivity.
Defined.

(** X17: the submission callback is never called with an empty batch,
    and the prompt of every call is the one [buildPrompt] gives for the
    batch of that call grouped by file. *)
Theorem every_submission_is_a_nonempty_batch :
  forall (onSendToAI : str -> Engine.SendOutcome) (ip oe : bool)
         (es : list Engine.Event) (w : Engine.World),
    Engine.run onSendToAI (Engine.create ip oe) es = Some w ->
    Forall well_built (Engine.sent w).
Proof.
  intros onSendToAI ip oe es w Hrun.
  destruct (run_keeps onSendToAI es _ _ 0 Hrun) as (_ & Hb & _).
  apply Hb. constructor.
Qed.

Lemma every_submission_is_a_nonempty_batch_witness :
  exists w,
    Engine.run Examples.pending_promise (Engine.create true true)
      Samples.two_changes = Some w
    /\ Forall well_built (Engine.sent w).
Proof.
  eexists. split; [vm_compute; reflexivity|].
  apply (every_submission_is_a_nonempty_batch Examples.pending_promise true true
           Samples.two_changes).
  vm_compute; reflexivity.
Defined.



(** X19: [clear] discards the pending changes for good. Whatever
    happens after a [clear], the changes submitted from then on are
    changes queued after it, in their order; a submission that was in
    flight at the [clear] is not taken back. *)
Theorem cleared_changes_are_never_submitted :
  forall (onSendToAI : str -> Engine.SendOutcome) (w1 w2 : Engine.World)
         (es : list Engine.Event),
    Engine.run onSendToAI (Engine.clear w1) es = Some w2 ->
    exists later,
      submitted w2 = submitted w1 ++ later
      /\ sublist (later ++ Engine.pendingChanges w2) (queued es).
Proof.
  intros onSendToAI w1 w2 es Hrun.
  destruct (run_later onSendToAI es _ _ Hrun) as (later & Hs & Hsub & _).
  exists later. split.
  - rewrite Hs. f_equal. unfold submitted, Engine.clear, Engine.clearDebounce.
    destruct (Engine.debounceTimer w1); reflexivity.
  - replace (Engine.pendingChanges (Engine.clear w1)) with (@nil Engine.DesignChange)
      in Hsub by (unfold Engine.clear; destruct (Engine.debounceTimer w1); reflexivity).
    exact Hsub.
Qed.

Lemma cleared_changes_are_never_submitted_witness :
  exists w2 later,
    Engine.run Examples.pending_promise (Engine.clear world_stranded)
      [Engine.QueueChange Examples.move_change 3; Engine.Flush] = Some w2
    /\ Engine.pendingChanges world_stranded = [stamp Examples.content_change 2]
    /\ submitted w2 = submitted world_stranded ++ later
    /\ later = [stamp Examples.move_change 3].
Proof.
  destruct (cleared_changes_are_never_submitted Examples.pending_promise world_stranded
              (default world_stranded
                 (Engine.run Examples.pending_promise (Engine.clear world_stranded)
                    [Engine.QueueChange Examples.move_change 3; Engine.Flush]))
              [Engine.QueueChange Examples.move_change 3; Engine.Flush])
    as (later & Hs & _); [vm_compute; reflexivity|].
  eexists. exists later. split; [vm_compute; reflexivity|].
  split; [vm_compute; reflexivity|]. split; [exact Hs|].
  vm_compute in Hs. injection Hs as <-. reflexivity.
Defined.

(** ** Grouping and the prompt *)

Lemma str_eqb_sym a b : str_eqb a b = str_eqb b a.
Proof.
  destruct (str_eqb a b) eqn:E.
  - apply str_eqb_eq in E. subst. symmetry. apply str_eqb_refl.
  - symmetry. apply str_eqb_neq. intros ->. rewrite str_eqb_refl in E. discriminate.
Qed.

Lemma JSMap_get_set {V} (m : JSMap.t V) k v k' :
  JSMap.get (JSMap.set m k v) k' =
    if str_eqb k' k then Some v else JSMap.get m k'.
Proof.
  induction m as [|[k0 v0] m IH]; cbn.
  - reflexivity.
  - destruct (str_eqb k k0) eqn:E; cbn.
    + apply str_eqb_eq in E. subst k0. destruct (str_eqb k' k); reflexivity.
    + rewrite IH. destruct (str_eqb k' k0) eqn:E0; [|reflexivity].
      apply str_eqb_eq in E0. subst k0.
      rewrite str_eqb_sym, E. reflexivity.
Qed.

Lemma JSMap_has_keys {V} (m : JSMap.t V) k :
  JSMap.has m k = existsb (str_eqb k) (JSMap.keys m).
Proof.
  unfold JSMap.has, JSMap.keys. induction m as [|[k0 v0] m IH]; cbn; [reflexivity|].
  destruct (str_eqb k k0); [reflexivity | exact IH].
Qed.

Lemma JSMap_keys_set {V} (m : JSMap.t V) k v :
  JSMap.keys (JSMap.set m k v) =
    if JSMap.has m k then JSMap.keys m else JSMap.keys m ++ [k].
Proof.
  unfold JSMap.has, JSMap.keys. induction m as [|[k0 v0] m IH]; cbn; [reflexivity|].
  destruct (str_eqb k k0) eqn:E; cbn.
  - apply str_eqb_eq in E. subst. reflexivity.
  - rewrite IH. destruct (JSMap.get m k); reflexivity.
Qed.



Lemma existsb_str_eqb k ks : existsb (str_eqb k) ks = true <-> In k ks.
Proof.
  rewrite existsb_exists. split.
  - intros (x & Hx & E). apply str_eqb_eq in E. subst. exact Hx.
  - intros H. exists k. split; [exact H | apply str_eqb_refl].
Qed.

Lemma JSMap_set_NoDup {V} (m : JSMap.t V) k v :
  NoDup (JSMap.keys m) -> NoDup (JSMap.keys (JSMap.set m k v)).
Proof.
  intros H. rewrite JSMap_keys_set, JSMap_has_keys.
  destruct (existsb _ _) eqn:E; [exact H|].
  apply NoDup_app. split; [exact H|]. split; [|apply NoDup_singleton].
  intros x Hx Hk. apply list_elem_of_singleton in Hk. subst x.
  apply list_elem_of_In, existsb_str_eqb in Hx. congruence.
Qed.

Lemma groupChangesByFile_snoc cs c :
  Engine.groupChangesByFile (cs ++ [c]) = group_step (Engine.groupChangesByFile cs) c.
Proof. unfold Engine.groupChangesByFile. rewrite fold_left_app. reflexivity. Qed.

Lemma distinct_snoc ks k :
  distinct (ks ++ [k]) =
    if existsb (str_eqb k) (distinct ks) then distinct ks else distinct ks ++ [k].
Proof. unfold distinct. rewrite fold_left_app. reflexivity. Qed.

Lemma distinct_NoDup ks : NoDup (distinct ks).
Proof.
  induction ks as [|k ks IH] using rev_ind; [constructor|].
  rewrite distinct_snoc. destruct (existsb _ _) eqn:E; [exact IH|].
  apply NoDup_app. split; [exact IH|]. split; [|apply NoDup_singleton].
  intros x Hx Hk. apply list_elem_of_singleton in Hk. subst x.
  apply list_elem_of_In, existsb_str_eqb in Hx. congruence.
Qed.

Lemma groupChangesByFile_keys cs :
  JSMap.keys (Engine.groupChangesByFile cs) = distinct (map Engine.file cs).
Proof.
  induction cs as [|c cs IH] using rev_ind; [reflexivity|].
  rewrite groupChangesByFile_snoc, map_app. cbn [map]. rewrite distinct_snoc.
  unfold group_step. rewrite JSMap_keys_set, JSMap_has_keys, IH. reflexivity.
Qed.

Lemma groupChangesByFile_get cs : forall f,
  JSMap.get (Engine.groupChangesByFile cs) f =
    match List.filter (same_file f) cs with
    | [] => None
    | group => Some group
    end.
Proof.
  induction cs as [|c cs IH] using rev_ind; intros f; [reflexivity|].
  rewrite groupChangesByFile_snoc. unfold group_step.
  rewrite JSMap_get_set, List.filter_app. cbn [List.filter]. unfold same_file at 2.
  rewrite (str_eqb_sym f).
  destruct (str_eqb (Engine.file c) f) eqn:E.
  - apply str_eqb_eq in E. subst f. rewrite IH.
    destruct (List.filter (same_file (Engine.file c)) cs); reflexivity.
  - rewrite app_nil_r. apply IH.
Qed.

(** X20: [groupChangesByFile] is a grouping by file. The keys of the
    map it returns are the files of the changes, each once, in the order
    in which they first occur; under a file the map holds the changes of
    that file, all of them, in the order of the batch; a file of no change
    is no key. *)
Theorem groupChangesByFile_groups_in_order :
  forall (changes : list Engine.DesignChange) (f : str),
    JSMap.keys (Engine.groupChangesByFile changes)
    = distinct (map Engine.file changes)
    /\ NoDup (JSMap.keys (Engine.groupChangesByFile changes))
    /\ JSMap.get (Engine.groupChangesByFile changes) f =
         match List.filter (same_file f) changes with
         | [] => None
         | group => Some group
         end.
Proof.
  intros changes f.
  split; [apply groupChangesByFile_keys|].
  split; [rewrite groupChangesByFile_keys; apply distinct_NoDup|].
  apply groupChangesByFile_get.
Qed.

Lemma lit_prefix_self ci : forall l s, lit_prefix ci l (l ++ s) = true.
Proof.
  induction l as [|a l IH]; intros s; cbn; [reflexivity|].
  rewrite IH, andb_true_r. unfold chr_eqb. destruct ci; apply ascii_eqb_refl.
Qed.

Lemma includes_app_r : forall a s needle,
  includes s needle = true -> includes (a ++ s) needle = true.
Proof.
  induction a as [|x a IH]; intros s needle H; [exact H|].
  cbn [app includes]. rewrite (IH _ _ H). apply orb_true_r.
Qed.

Lemma includes_middle a needle b : includes (a ++ needle ++ b) needle = true.
Proof.
  apply includes_app_r. destruct (needle ++ b) eqn:E; cbn; rewrite <- E;
    rewrite lit_prefix_self; reflexivity.
Qed.

Lemma includes_join sep : forall parts p,
  In p parts -> includes (join sep parts) p = true.
Proof.
  induction parts as [|q parts IH]; intros p Hin; [destruct Hin|].
  destruct Hin as [->|Hin].
  - destruct parts as [|q' parts']; cbn [join].
    + rewrite <- (app_nil_r p) at 1. apply (includes_middle [] p []).
    + apply (includes_middle [] p).
  - destruct parts as [|q' parts']; [destruct Hin|].
    cbn [join]. rewrite app_assoc. apply includes_app_r. apply IH. exact Hin.
Qed.

Lemma distinct_head k ks : exists rest, distinct (k :: ks) = k :: rest.
Proof.
  unfold distinct. cbn [fold_left existsb app].
  enough (forall acc, exists rest,
            fold_left (fun acc k => if existsb (str_eqb k) acc then acc else acc ++ [k])
                      ks (k :: acc) = k :: rest) by auto.
  induction ks as [|k' ks IH]; intros acc; [eauto|].
  cbn [fold_left]. destruct (existsb _ _); [apply IH|].
  change ((k :: acc) ++ [k']) with (k :: (acc ++ [k'])). apply IH.
Qed.

Lemma join_app sep : forall l1 l2,
  l1 <> [] -> l2 <> [] ->
  join sep (l1 ++ l2) = join sep l1 ++ sep ++ join sep l2.
Proof.
  induction l1 as [|p l1 IH]; intros l2 H1 H2; [contradiction|].
  destruct l1 as [|q l1].
  - destruct l2 as [|r l2]; [contradiction | reflexivity].
  - change (join sep ((p :: q :: l1) ++ l2)) with (p ++ sep ++ join sep ((q :: l1) ++ l2)).
    rewrite IH by (discriminate || exact H2).
    change (join sep (p :: q :: l1)) with (p ++ sep ++ join sep (q :: l1)).
    rewrite <- !app_assoc. reflexivity.
Qed.

(** The prompt opens with the fixed line, the header of the file of the
    first change and the bullet of the first change. *)
Lemma prompt_opening c0 cs :
  lit_prefix false
    (js "Apply the following design changes to the code:" ++ [NL; NL]
     ++ js "## File: " ++ Engine.file c0 ++ [NL; NL]
     ++ js "- " ++ Engine.describeChange c0)
    (Engine.buildPrompt (Engine.groupChangesByFile (c0 :: cs))) = true.
Proof.
  pose proof (groupChangesByFile_keys (c0 :: cs)) as Hkeys.
  pose proof (groupChangesByFile_get (c0 :: cs) (Engine.file c0)) as Hget.
  cbn [List.filter] in Hget. unfold same_file at 1 in Hget.
  rewrite str_eqb_refl in Hget.
  destruct (distinct_head (Engine.file c0) (map Engine.file cs)) as [rest Hd].
  cbn [map] in Hkeys. rewrite Hd in Hkeys.
  destruct (Engine.groupChangesByFile (c0 :: cs)) as [|[f0 g0] m];
    [discriminate Hkeys|].
  cbn [JSMap.keys map fst] in Hkeys. injection Hkeys as -> _.
  cbn [JSMap.get] in Hget. rewrite str_eqb_refl in Hget.
  injection Hget as ->.
  change (Engine.buildPrompt ?m) with (join [NL] (prompt_parts m)).
  unfold prompt_parts. cbn [flat_map fst snd map].
  match goal with
  | |- lit_prefix _ _ (join _ ([?h; []] ++ (([?f; []] ++ (?b :: ?bs) ++ ?e) ++ ?fm) ++ ?t)) = true =>
      replace ([h; []] ++ (([f; []] ++ (b :: bs) ++ e) ++ fm) ++ t)
        with ([h; []; f; []; b] ++ ((bs ++ e) ++ fm) ++ t)
        by (cbn [app]; rewrite <- !app_assoc; reflexivity)
  end.
  rewrite join_app;
    [|discriminate|intros H; apply app_eq_nil in H as [_ H]; discriminate H].
  cbn [join]. rewrite <- !app_assoc. cbn [app].
  repeat rewrite app_comm_cons.
  rewrite !app_assoc. apply lit_prefix_self.
Qed.

(** X21: the prompt built for a batch names every change of the batch:
    it contains the header line of the file of each change and the bullet
    line with the description of each change, and it opens with the fixed
    line, the header of the file of the first change and the bullet of
    the first change. *)
Theorem prompt_lists_every_change :
  forall (changes : list Engine.DesignChange) (c : Engine.DesignChange),
    In c changes ->
    let prompt := Engine.buildPrompt (Engine.groupChangesByFile changes) in
    includes prompt (js "## File: " ++ Engine.file c) = true
    /\ includes prompt (js "- " ++ Engine.describeChange c) = true
    /\ lit_prefix false
         (js "Apply the following design changes to the code:" ++ [NL; NL]
          ++ js "## File: " ++ Engine.file (hd c changes) ++ [NL; NL]
          ++ js "- " ++ Engine.describeChange (hd c changes))
         prompt = true.
Proof.
  intros changes c Hin prompt.
  pose proof (groupChangesByFile_get changes (Engine.file c)) as Hget.
  assert (Hgroup : exists l, In (Engine.file c, l) (Engine.groupChangesByFile changes)
                             /\ In c l).
  { assert (Hc : In c (List.filter (same_file (Engine.file c)) changes)).
    { apply filter_In. split; [exact Hin | apply str_eqb_refl]. }
    destruct (List.filter _ changes) as [|x l]; [destruct Hc|].
    apply JSMap_get_In in Hget. eauto. }
  destruct Hgroup as (l & Hl & Hc).
  split; [|split].
  - apply includes_join. unfold prompt_parts.
    apply in_or_app. right. apply in_or_app. left.
    apply in_flat_map. exists (Engine.file c, l). split; [exact Hl|]. left. reflexivity.
  - apply includes_join. unfold prompt_parts.
    apply in_or_app. right. apply in_or_app. left.
    apply in_flat_map. exists (Engine.file c, l). split; [exact Hl|].
    apply in_or_app. right. apply in_or_app. left.
    apply (in_map (fun c => js "- " ++ Engine.describeChange c)). exact Hc.
  - destruct changes as [|c0 cs]; [destruct Hin|]. apply prompt_opening.
Qed.

Lemma prompt_lists_every_change_witness :
  In Examples.move_change [Examples.style_change; Examples.move_change]
  /\ includes
       (Engine.buildPrompt
          (Engine.groupChangesByFile [Examples.style_change; Examples.move_change]))
       (js "- " ++ Engine.describeChange Examples.move_change) = true.
Proof.
  split; [right; left; reflexivity|].
  apply (prompt_lists_every_change [Examples.style_change; Examples.move_change]
           Examples.move_change).
  right; left; reflexivity.
Defined.

(** ** [parseArtifact] on any text *)

Lemma parseBoltFormat_cursor_free : cursor_free parseBoltFormat.
Proof.
  intros text. unfold parseBoltFormat.
  cbn [li_boltArtifact set_boltArtifact li_boltAction set_boltAction].
  destruct (exec PATTERNS.boltArtifact text 0) as [[[[m rest] cs]|] li].
  - destruct (exec_loop_total PATTERNS.boltAction (default [] (capture 2 cs)) bolt_body
                min_len_boltAction (loop_fuel (default [] (capture 2 cs))) 0
                (JSMap.empty, []))
      as [[fs cmds] Hloop]; [unfold loop_fuel; lia|].
    rewrite Hloop.
    destruct ((JSMap.size fs =? 0) && (length cmds =? 0)); eexists; intros st; eauto.
  - eexists. intros st. eauto.
Qed.

(** A format parser that is one [exec] loop over the text. *)
Lemma loop_parser_cursor_free rx (body : captures -> FileMap -> FileMap)
    (get : Cursors -> nat) (set : nat -> Cursors -> Cursors) :
  1 <= min_len (pattern rx) ->
  (forall st, get (set 0 st) = 0) ->
  cursor_free (fun st text =>
    let st := set 0 st in
    match exec_loop (loop_fuel text) rx text body (get st) JSMap.empty with
    | None => None
    | Some (files, li) => Some (files_only files, set li st)
    end).
Proof.
  intros Hmin Hget text.
  destruct (exec_loop_total rx text body Hmin (loop_fuel text) 0 JSMap.empty)
    as [fs Hfs]; [unfold loop_fuel; lia|].
  exists (files_only fs). intros st. cbv zeta. rewrite Hget, Hfs. eauto.
Qed.

Lemma try_format_cursor_free parse next :
  cursor_free parse -> cursor_free next -> cursor_free (try_format parse next).
Proof.
  intros Hparse Hnext text.
  destruct (Hparse text) as [r Hr]. destruct (Hnext text) as [r' Hr'].
  exists (if accepted r then default empty_artifact r else r').
  intros st. unfold try_format. destruct (Hr st) as [st' ->].
  destruct (accepted r); [eauto | apply Hr'].
Qed.

Lemma parseArtifact_cursor_total : cursor_free parseArtifact.
Proof.
  unfold parseArtifact. repeat apply try_format_cursor_free.
  - apply parseBoltFormat_cursor_free.
  - apply (loop_parser_cursor_free PATTERNS.lovableFile _ li_lovableFile set_lovableFile);
      [apply min_len_lovableFile | reflexivity].
  - apply (loop_parser_cursor_free PATTERNS.cursorBlock path_body
             li_cursorBlock set_cursorBlock);
      [apply min_len_cursorBlock | reflexivity].
  - apply (loop_parser_cursor_free PATTERNS.markdownWithPath path_body
             li_markdownWithPath set_markdownWithPath);
      [apply min_len_markdownWithPath | reflexivity].
  - apply (loop_parser_cursor_free PATTERNS.markdownBlock markdown_body
             li_markdownBlock set_markdownBlock);
      [apply min_len_markdownBlock | reflexivity].
  - intros text. exists empty_artifact. intros st. eauto.
Qed.

(** X1: [parseArtifact] returns a result for every text, and the result
    depends on the text alone: whatever [lastIndex] values earlier calls
    have left in the shared patterns (the container pattern keeps the end
    of its last match), the same text gives the same files, commands and
    title. *)
Theorem parseArtifact_ignores_cursors :
  forall text : str, exists result : ParsedArtifact,
    forall st : Cursors,
      option_map fst (parseArtifact st text) = Some result
      /\ option_map fst (parseArtifact cursors0 text) = Some result.
Proof.
  intros text. destruct (parseArtifact_cursor_total text) as [result Hr].
  exists result. intros st.
  destruct (Hr st) as [st1 ->]. destruct (Hr cursors0) as [st2 ->].
  split; reflexivity.
Qed.

(** What the body of a loop keeps, the loop keeps. *)
Lemma exec_loop_inv {A} (P : A -> Prop) rx text (body : captures -> A -> A) :
  (forall cs a, P a -> P (body cs a)) ->
  forall fuel li acc r,
    P acc -> exec_loop fuel rx text body li acc = Some r -> P (fst r).
Proof.
  intros Hbody. induction fuel as [|fuel IH]; intros li acc r Hacc H; [discriminate|].
  cbn [exec_loop] in H.
  destruct (exec rx text li) as [[[[m rest] cs]|] li'].
  - eapply IH; [|exact H]. apply Hbody, Hacc.
  - injection H as <-. exact Hacc.
Qed.

Lemma clean_files_empty : clean_files JSMap.empty.
Proof. split; constructor. Qed.

Lemma clean_files_set fs k c :
  clean_files fs -> clean_files (JSMap.set fs k (trim c)).
Proof.
  intros [Ht Hk]. split.
  - apply JSMap_set_Forall; [exact Ht | apply trim_trimmed].
  - apply JSMap_set_NoDup, Hk.
Qed.

Lemma files_only_clean fs : clean_files fs -> clean_result (files_only fs).
Proof.
  intros H. unfold files_only. destruct (JSMap.size fs =? 0); [exact I|].
  split; [exact H | constructor].
Qed.

Lemma loop_parser_clean rx (body : captures -> FileMap -> FileMap)
    (get : Cursors -> nat) (set : nat -> Cursors -> Cursors) st text r st' :
  (forall cs fs, clean_files fs -> clean_files (body cs fs)) ->
  (let st := set 0 st in
   match exec_loop (loop_fuel text) rx text body (get st) JSMap.empty with
   | None => None
   | Some (files, li) => Some (files_only files, set li st)
   end) = Some (r, st') ->
  clean_result r.
Proof.
  intros Hbody. cbv zeta.
  destruct (exec_loop _ _ _ _ _ _) as [[fs li]|] eqn:Hloop; [|discriminate].
  intros [= <- _]. apply files_only_clean.
  apply (exec_loop_inv clean_files _ _ _ Hbody _ _ _ (fs, li)) in Hloop;
    [exact Hloop | apply clean_files_empty].
Qed.

Lemma path_body_clean cs fs : clean_files fs -> clean_files (path_body cs fs).
Proof.
  intros H. unfold path_body. destruct (truthy_str _); [|exact H].
  apply clean_files_set, H.
Qed.

Lemma markdown_body_clean cs fs : clean_files fs -> clean_files (markdown_body cs fs).
Proof.
  intros H. unfold markdown_body. destruct (existsb _ _); [exact H|].
  apply clean_files_set, H.
Qed.

Lemma bolt_body_clean cs acc :
  clean_files (fst acc) /\ Forall trimmed (snd acc) ->
  clean_files (fst (bolt_body cs acc)) /\ Forall trimmed (snd (bolt_body cs acc)).
Proof.
  destruct acc as [fs cmds]. intros [Hf Hc]. unfold bolt_body.
  destruct (_ && _); cbn [fst snd].
  - split; [|exact Hc]. apply clean_files_set, Hf.
  - destruct (str_eqb _ _); cbn [fst snd]; (split; [exact Hf|]); [|exact Hc].
    apply Forall_app. split; [exact Hc|]. constructor; [apply trim_trimmed | constructor].
Qed.

Lemma parseBoltFormat_clean st text r st' :
  parseBoltFormat st text = Some (r, st') -> clean_result r.
Proof.
  unfold parseBoltFormat.
  destruct (exec PATTERNS.boltArtifact text _) as [[[[m rest] cs]|] li].
  - destruct (exec_loop _ _ _ _ _ _) as [[[fs cmds] li']|] eqn:Hloop; [|discriminate].
    apply (exec_loop_inv
             (fun acc => clean_files (fst acc) /\ Forall trimmed (snd acc))
             _ _ _ bolt_body_clean) in Hloop;
      [|split; [apply clean_files_empty | constructor]].
    destruct (_ && _); intros [= <- _]; [exact I | exact Hloop].
  - intros [= <- _]. exact I.
Qed.

Lemma try_format_clean parse next st text a st' :
  (forall st text r st', parse st text = Some (r, st') -> clean_result r) ->
  (forall st text a st', next st text = Some (a, st') -> clean a) ->
  try_format parse next st text = Some (a, st') -> clean a.
Proof.
  intros Hparse Hnext. unfold try_format.
  destruct (parse st text) as [[r st1]|] eqn:Hp; [|discriminate].
  apply Hparse in Hp. destruct (accepted r) eqn:Hacc.
  - intros [= <- _]. destruct r as [a'|]; [exact Hp | discriminate].
  - apply Hnext.
Qed.

Lemma parseArtifact_clean st text a st' :
  parseArtifact st text = Some (a, st') -> clean a.
Proof.
  unfold parseArtifact.
  apply try_format_clean; [apply parseBoltFormat_clean|]. clear. intros st text a st'.
  apply try_format_clean;
    [intros ? ? ? ?;
     apply (loop_parser_clean PATTERNS.lovableFile _ li_lovableFile set_lovableFile);
     intros cs fs H; apply clean_files_set, H|].
  clear. intros st text a st'.
  apply try_format_clean;
    [intros ? ? ? ?;
     apply (loop_parser_clean PATTERNS.cursorBlock path_body
              li_cursorBlock set_cursorBlock);
     apply path_body_clean|].
  clear. intros st text a st'.
  apply try_format_clean;
    [intros ? ? ? ?;
     apply (loop_parser_clean PATTERNS.markdownWithPath path_body
              li_markdownWithPath set_markdownWithPath);
     apply path_body_clean|].
  clear. intros st text a st'.
  apply try_format_clean;
    [intros ? ? ? ?;
     apply (loop_parser_clean PATTERNS.markdownBlock markdown_body
              li_markdownBlock set_markdownBlock);
     apply markdown_body_clean|].
  clear. intros st text a st' [= <- _]. split; [apply clean_files_empty | constructor].
Qed.

(** X2: whatever the text and whichever format is taken, the contents
    of the files and the commands that [parseArtifact] and
    [parseStreamingArtifact] return have no white space at either end,
    and no path is the key of two entries. *)
Theorem extracted_contents_are_trimmed :
  forall (st : Cursors) (text : str),
    (exists a st', parseArtifact st text = Some (a, st')
                   /\ Forall (fun kv => trimmed (snd kv)) (files a)
                   /\ NoDup (JSMap.keys (files a))
                   /\ Forall trimmed (commands a))
    /\ (exists a st', parseStreamingArtifact st text = Some (a, st')
                      /\ Forall (fun kv => trimmed (snd kv)) (files a)
                      /\ NoDup (JSMap.keys (files a))
                      /\ Forall trimmed (commands a)).
Proof.
  intros st text. split.
  - destruct (parseArtifact_cursor_total text) as [a Ha].
    destruct (Ha st) as [st' Hst]. exists a, st'. split; [exact Hst|].
    destruct (parseArtifact_clean _ _ _ _ Hst) as [[Ht Hk] Hc]. auto.
  - destruct (parseStreamingArtifact_total st text) as (fs & cmds & Hloop & Hp).
    eexists. eexists. split; [exact Hp|]. cbn [files commands].
    apply (exec_loop_inv
             (fun acc => clean_files (fst acc) /\ Forall trimmed (snd acc))
             _ _ _ bolt_body_clean) in Hloop;
      [|split; [apply clean_files_empty | constructor]].
    destruct Hloop as [[Ht Hk] Hc]. auto.
Qed.

(** ** Texts in which a pattern cannot match *)

Lemma occurs_at ci l : forall s i,
  lit_prefix ci l (skipn i s) = true -> occurs ci l s = true.
Proof.
  intros s i H. destruct (occurs ci l s) eqn:E; [reflexivity|].
  rewrite (occurs_skipn ci l s i E) in H. discriminate.
Qed.

(** A way of matching a pattern that ends with a literal has the literal
    somewhere in the text. *)
Lemma rmatch_closing ci r : forall l s cs c rest cs',
  closing_literal r = Some l ->
  In (c, rest, cs') (rmatch ci r s cs) ->
  exists i, lit_prefix ci l (skipn i s) = true.
Proof.
  induction r as [l0|min greedy k|a IHa b IHb|a IHa b IHb|a IHa|g a IHa];
    intros l s cs c rest cs' Hl Hin; cbn [closing_literal] in Hl; try discriminate.
  - injection Hl as ->. cbn [rmatch] in Hin.
    destruct (lit_prefix ci l s) eqn:E; [|destruct Hin]. exists 0. exact E.
  - cbn [rmatch] in Hin. apply in_flat_map in Hin as ([[c1 r1] cs1] & H1 & H2).
    apply in_map_iff in H2 as ([[c2 r2] cs2] & Heq & H2).
    destruct (IHb l r1 cs1 c2 r2 cs2 Hl H2) as [i Hi].
    apply rmatch_sound in H1 as [-> _].
    exists (i + length c1). rewrite <- skipn_skipn, skipn_app_len. exact Hi.
  - cbn [rmatch] in Hin. apply in_map_iff in Hin as ([[c2 r2] cs2] & Heq & H2).
    eapply IHa; eauto.
Qed.

Lemma match_has_closing ci r l s w :
  closing_literal r = Some l ->
  first_match ci r s = Some w -> occurs ci l s = true.
Proof.
  intros Hl H. destruct w as [[c rest] cs]. apply head_In in H.
  destruct (rmatch_closing ci r l s [] c rest cs Hl H) as [i Hi].
  eapply occurs_at; eauto.
Qed.

(** A pattern that ends with a literal matches nowhere in a text in which
    the literal does not occur. *)
Lemma no_closing_no_match rx l text :
  closing_literal (pattern rx) = Some l ->
  occurs (ignoreCase rx) l text = false ->
  no_match rx text.
Proof.
  intros Hl. unfold no_match. generalize 0.
  induction text as [|a text IH]; intros k Hocc; cbn [search].
  - destruct (first_match _ _ []) as [w|] eqn:E; [|reflexivity].
    rewrite (match_has_closing _ _ _ _ _ Hl E) in Hocc. discriminate.
  - destruct (first_match _ _ (a :: text)) as [w|] eqn:E.
    + rewrite (match_has_closing _ _ _ _ _ Hl E) in Hocc. discriminate.
    + apply IH. cbn [occurs] in Hocc. apply orb_false_iff in Hocc as [_ Hocc].
      exact Hocc.
Qed.

Lemma replace_no_match rx by_ text :
  no_match rx text -> replace rx by_ text = text.
Proof.
  unfold no_match, replace.
  enough (forall k, search rx text k = None -> replace_from rx by_ text 0 = text)
    by eauto.
  induction text as [|a text IH]; intros k H; cbn [search] in H; cbn [replace_from].
  - destruct (first_match _ _ []); [discriminate | reflexivity].
  - destruct (first_match _ _ (a :: text)); [discriminate|].
    f_equal. eapply IH; eauto.
Qed.

Lemma parseMarkdownBlocks_no_match st text :
  no_match PATTERNS.markdownBlock text ->
  parseMarkdownBlocks st text = Some (None, set_markdownBlock 0 st).
Proof.
  intros H. unfold parseMarkdownBlocks. cbn [li_markdownBlock set_markdownBlock].
  rewrite exec_loop_no_match by exact H. reflexivity.
Qed.

(** The backtick has no other case. *)
Lemma chr_eqb_backtick b : chr_eqb true "`" b = chr_eqb false "`" b.
Proof. destruct b as [[] [] [] [] [] [] [] []]; reflexivity. Qed.

Lemma lit_prefix_fence s :
  lit_prefix true (js "```") s = lit_prefix false (js "```") s.
Proof.
  cbn [js list_ascii_of_string].
  destruct s as [|a [|b [|c s]]]; cbn [lit_prefix]; rewrite ?chr_eqb_backtick; reflexivity.
Qed.

Lemma occurs_fence s : occurs true (js "```") s = occurs false (js "```") s.
Proof.
  induction s as [|a s IH]; cbn [occurs]; rewrite lit_prefix_fence; [reflexivity|].
  rewrite IH. reflexivity.
Qed.

Lemma unclosed_no_match text :
  unclosed text = true ->
  no_match PATTERNS.boltArtifact text
  /\ no_match PATTERNS.lovableFile text
  /\ no_match PATTERNS.cursorBlock text
  /\ no_match PATTERNS.markdownWithPath text
  /\ no_match PATTERNS.markdownBlock text.
Proof.
  unfold unclosed. rewrite !andb_true_iff, !negb_true_iff. intros [[H1 H2] H3].
  repeat split.
  - eapply no_closing_no_match; [reflexivity | exact H1].
  - eapply no_closing_no_match; [reflexivity | exact H2].
  - eapply no_closing_no_match; [reflexivity | exact H3].
  - eapply no_closing_no_match; [reflexivity|].
    cbn [ignoreCase PATTERNS.markdownWithPath]. rewrite occurs_fence. exact H3.
  - eapply no_closing_no_match; [reflexivity | exact H3].
Qed.

(** X3: a text in which no block is closed (it contains no closing tag
    of a container, no closing tag of a file block and no fence of three
    backticks) gives no file and no command, and its message is the whole
    text, trimmed and with every run of newlines cut to two. *)
Theorem text_without_closed_block_has_no_files :
  forall (st : Cursors) (text : str),
    unclosed text = true ->
    option_map fst (parseArtifact st text) = Some empty_artifact
    /\ fst (extractMessage st text) = collapse 0 (trim text).
Proof.
  intros st text H.
  destruct (unclosed_no_match text H) as (H1 & H2 & H3 & H4 & H5). split.
  - unfold parseArtifact, try_format.
    rewrite parseBoltFormat_no_match by exact H1. cbn [accepted].
    rewrite parseLovableFormat_no_match by exact H2. cbn [accepted].
    rewrite parseCursorFormat_no_match by exact H3. cbn [accepted].
    rewrite parseMarkdownWithPath_no_match by exact H4. cbn [accepted].
    rewrite parseMarkdownBlocks_no_match by exact H5. reflexivity.
  - unfold extractMessage. cbn [fst].
    rewrite (replace_no_match _ _ _ H1), (replace_no_match _ _ _ H2),
            (replace_no_match _ _ _ H3), (replace_no_match _ _ _ H5).
    apply replace_newlines3.
Qed.

Lemma text_without_closed_block_has_no_files_witness :
  unclosed Samples.prose = true
  /\ option_map fst (parseArtifact cursors0 Samples.prose) = Some empty_artifact
  /\ fst (extractMessage cursors0 Samples.prose)
     = js "I could not build that." ++ [NL; NL] ++ js "Try a smaller prompt.".
Proof.
  split; [vm_compute; reflexivity|].
  destruct (text_without_closed_block_has_no_files cursors0 Samples.prose) as [H1 H2];
    [vm_compute; reflexivity|].
  split; [exact H1|]. rewrite H2. vm_compute. reflexivity.
Defined.



(** ** [parseStreamingArtifact] *)

(** X9: from a text of well-formed actions, whatever stands around them
    (an opening of a container, text, no closing tag yet),
    [parseStreamingArtifact] returns the files of the file actions and
    the commands of the shell actions, trimmed, as [parseArtifact] does
    for the closed container; it returns them without a title and also
    when no action is a file. *)
Theorem streaming_actions_are_extracted :
  forall (st : Cursors) (g0 : str) (items : list (Format.action * str)),
    Format.gap_ok g0 = true ->
    forallb (fun ag => Format.action_ok (fst ag) && Format.gap_ok (snd ag)) items = true ->
    option_map fst (parseStreamingArtifact st (Format.body_of g0 items)) =
      Some {| files := Format.files_of items; commands := Format.commands_of items;
              metadata := None |}.
Proof.
  intros st g0 items Hg0 Hitems.
  assert (Hactions :
    matches PATTERNS.boltAction (Format.body_of g0 items) =
      Some (map (fun ag => Format.action_captures (fst ag)) items)).
  { apply scan_matches; [exact min_len_boltAction|]. apply scan_body; assumption. }
  destruct (matches_fold _ _ _ bolt_body (JSMap.empty, []) Hactions) as [li Hloop].
  unfold parseStreamingArtifact. cbn [li_boltAction set_boltAction].
  rewrite Hloop. rewrite extraction_of_actions by exact Hitems.
  reflexivity.
Qed.

Lemma streaming_actions_are_extracted_witness :
  option_map fst
    (parseStreamingArtifact cursors0
       (Format.body_of (js "<boltArtifact title=" ++ [DQ] ++ js "Todo" ++ [DQ] ++ js ">")
          Samples.actions))
  = Some {| files := [(js "src/App.jsx", js "export default 1")];
            commands := [js "npm i"]; metadata := None |}.
Proof.
  apply (streaming_actions_are_extracted cursors0
           (js "<boltArtifact title=" ++ [DQ] ++ js "Todo" ++ [DQ] ++ js ">")
           Samples.actions);
    vm_compute; reflexivity.
Defined.

(** X10: [parseStreamingArtifact] reports an action only once the
    closing tag of an action has arrived: from a text without that tag it
    returns no file and no command. *)
Theorem streaming_ignores_unclosed_action :
  forall (st : Cursors) (text : str),
    occurs true (js "</boltAction>") text = false ->
    option_map fst (parseStreamingArtifact st text) = Some empty_artifact.
Proof.
  intros st text H.
  assert (Hno : no_match PATTERNS.boltAction text)
    by (eapply no_closing_no_match; [reflexivity | exact H]).
  unfold parseStreamingArtifact. cbn [li_boltAction set_boltAction].
  rewrite exec_loop_no_match by exact Hno. reflexivity.
Qed.

Lemma streaming_ignores_unclosed_action_witness :
  option_map fst
    (parseStreamingArtifact cursors0
       (js "<boltAction type=" ++ [DQ] ++ js "shell" ++ [DQ] ++ js ">npm"))
  = Some empty_artifact.
Proof.
  apply (streaming_ignores_unclosed_action cursors0).
  vm_compute. reflexivity.
Defined.

(** ** [extractMessage] on a text with a container *)





(** ** Fences *)

Lemma no_backtick_skipn ci g s i l :
  Blocks.no_backtick g = true -> i < length g ->
  lit_prefix ci ("`"%char :: l) (skipn i (g ++ s)) = false.
Proof.
  revert i. induction g as [|a g IH]; intros i Hg Hi; [cbn in Hi; lia|].
  cbn [Blocks.no_backtick forallb] in Hg. apply andb_true_iff in Hg as [Ha Hg].
  destruct i as [|i].
  - cbn [skipn app lit_prefix]. apply negb_true_iff in Ha.
    replace (chr_eqb ci "`" a) with false; [reflexivity|].
    destruct ci; rewrite ?chr_eqb_backtick; cbn [chr_eqb];
      rewrite Ascii.eqb_sym, Ha; reflexivity.
  - cbn [skipn app]. apply IH; [exact Hg | cbn in Hi; lia].
Qed.

(** The closing fence is the first fence after the body. *)
Lemma fence_not_inside ci body rest i :
  occurs false (js "```") (body ++ js "``") = false ->
  i < length body ->
  lit_prefix ci (js "```") (skipn i (body ++ js "```" ++ rest)) = false.
Proof.
  intros Hocc Hi.
  replace (lit_prefix ci (js "```") (skipn i (body ++ js "```" ++ rest)))
    with (lit_prefix false (js "```") (skipn i (body ++ js "```" ++ rest)))
    by (destruct ci; [symmetry; apply lit_prefix_fence | reflexivity]).
  replace (body ++ js "```" ++ rest) with ((body ++ js "``") ++ js "`" ++ rest)
    by (rewrite <- app_assoc; reflexivity).
  rewrite skipn_app_le by (rewrite length_app; lia).
  rewrite lit_prefix_app.
  replace (length (js "```") <=? length (skipn i (body ++ js "``"))) with true.
  - apply occurs_skipn, Hocc.
  - symmetry. apply Nat.leb_le. rewrite length_skipn, length_app.
    cbn [js list_ascii_of_string length]. lia.
Qed.

Lemma first_way_alt ci a b r s cs :
  first_way ci (Alt a b ~> r) s cs =
    match first_way ci (a ~> r) s cs with
    | Some w => Some w
    | None => first_way ci (b ~> r) s cs
    end.
Proof.
  unfold first_way. cbn [rmatch]. rewrite flat_map_app.
  destruct (flat_map _ (rmatch ci a s cs)); reflexivity.
Qed.

(** ** The other formats *)

Section OtherFormats.

Import Blocks.

(** The text of a block as a list of its known characters and unknown
    parts. *)
Ltac norm_block :=
  repeat (progress cbn [app js list_ascii_of_string file_block cursor_block
                        path_block Format.fenced]
          || rewrite <- app_assoc).

Ltac begin_match :=
  match goal with
  | |- first_match ?ci ?r ?s = Some ?w =>
      change (first_way ci r s [] = Some w);
      enough (exists w', first_way ci r s [] = Some w' /\ w' = w)
        as (? & ? & <-); [assumption|];
      cbn [pattern PATTERNS.lovableFile PATTERNS.cursorBlock
           PATTERNS.markdownWithPath PATTERNS.markdownBlock];
      unfold Plus, Star, LazyStar; norm_block; eexists; split
  end.

Ltac end_match :=
  cbn [firstn skipn app length];
  rewrite ?skipn_O, ?firstn_O, ?firstn_app_len; norm_block; reflexivity.

(** A group that takes the whole of an unknown part [u], which the next
    character ends. *)
Ltac step_part u Hu :=
  eapply (first_way_group_rep _ _ _ _ _ _ _ _ (length u));
  [ rewrite run_app_stop by (exact Hu || reflexivity); lia
  | let i := fresh "i" in let Hi := fresh "Hi" in
    intros i Hi; rewrite run_app_stop in Hi by (exact Hu || reflexivity); lia
  | rewrite skipn_app_len, firstn_app_len ].

(** The lazy group that takes the body up to the closing fence. *)
Ltac step_body ci body rest Hc :=
  eapply (first_way_group_rep _ _ _ _ _ _ _ _ (length body));
  [ rewrite run_any, length_app; lia
  | let i := fresh "i" in let Hi := fresh "Hi" in
    intros i Hi; apply first_way_last_lit_fail;
    apply (fence_not_inside ci body rest i Hc); lia
  | rewrite skipn_app_len, firstn_app_len;
    eapply first_way_last_lit; reflexivity ].

Lemma first_match_file_block p body rest :
  p <> [] ->
  forallb (cmatch (CNot DQ)) p = true ->
  occurs true (js "</file>") body = false ->
  first_match true (pattern PATTERNS.lovableFile) (file_block p body ++ rest)
  = Some (file_block p body, rest, [(2, body); (1, p)]).
Proof.
  intros Hp Hq Hc.
  assert (Hlen : 1 <= length p) by (destruct p; [contradiction | cbn; lia]).
  begin_match.
  - step_lit. step_rep 1. step_lit. step_part p Hq.
    step_lit. step_rep 0. step_lit.
    eapply (first_way_group_rep _ _ _ _ _ _ _ _ (length body)).
    + rewrite run_any, length_app. lia.
    + intros i Hi. apply first_way_last_lit_fail.
      apply no_start_inside; [exact Hc | solve_tails | lia].
    + rewrite skipn_app_len, firstn_app_len.
      eapply first_way_last_lit; reflexivity.
  - end_match.
Qed.

Lemma first_match_cursor_block language p body rest :
  language <> [] -> forallb isWord language = true ->
  p <> [] -> forallb (cmatch (CNot NL)) p = true ->
  occurs false (js "```") (body ++ js "``") = false ->
  first_match false (pattern PATTERNS.cursorBlock) (cursor_block language p body ++ rest)
  = Some (cursor_block language p body, rest, [(3, body); (2, p); (1, language)]).
Proof.
  intros Hl Hw Hp Hq Hc.
  assert (Hlen : 1 <= length p) by (destruct p; [contradiction | cbn; lia]).
  assert (Hlen' : 1 <= length language) by (destruct language; [contradiction | cbn; lia]).
  begin_match.
  - step_lit. step_part language Hw.
    step_lit. step_part p Hq. step_lit. step_body false body rest Hc.
  - end_match.
Qed.

Lemma first_match_fenced language body rest :
  language <> [] -> forallb isWord language = true ->
  occurs false (js "```") (body ++ js "``") = false ->
  first_match false (pattern PATTERNS.markdownBlock) (Format.fenced language body ++ rest)
  = Some (Format.fenced language body, rest, [(2, body); (1, language)]).
Proof.
  intros Hl Hw Hc.
  assert (Hlen' : 1 <= length language) by (destruct language; [contradiction | cbn; lia]).
  begin_match.
  - step_lit. step_part language Hw. step_lit. step_body false body rest Hc.
  - end_match.
Qed.

(** The pattern after the comment marker, on the rest of the block. *)
Lemma first_way_path_line a line body rest cs s :
  isSpace a = false ->
  forallb (cmatch (CNot NL)) (a :: line) = true ->
  occurs false (js "```") (body ++ js "``") = false ->
  s = js " filepath: " ++ (a :: line) ++ [NL] ++ body ++ js "```" ++ rest ->
  first_way true
    (Rep 0 true CSpace ~> Lit (js "filepath:") ~> Rep 0 true CSpace ~>
     Group 2 (Rep 1 true (CNot NL)) ~> Lit [NL] ~>
     Group 3 (Rep 0 false CAny) ~> Lit (js "```")) s cs
  = Some (js " filepath: " ++ (a :: line) ++ [NL] ++ body ++ js "```", rest,
          (3, body) :: (2, a :: line) :: cs).
Proof.
  intros Ha Hq Hc ->.
  match goal with
  | |- first_way ?ci ?r ?s ?cs = Some ?w =>
      enough (exists w', first_way ci r s cs = Some w' /\ w' = w)
        as (? & ? & <-); [assumption|]
  end.
  norm_block. eexists. split.
  - step_rep 1. step_lit.
    eapply (first_way_rep _ _ _ _ _ _ _ 1).
    + cbn [run cmatch]. rewrite Ha. vm_compute. lia.
    + intros i Hi. cbn [run cmatch] in Hi. rewrite Ha in Hi. vm_compute in Hi. lia.
    + cbn [skipn firstn].
      change (a :: line ++ NL :: ?x) with ((a :: line) ++ NL :: x).
      assert (Hlen : 1 <= length (a :: line)) by (cbn; lia).
      step_part (a :: line) Hq.
      step_lit. step_body true body rest Hc.
  - end_match.
Qed.

Lemma first_match_path_block language marker a line body rest :
  language <> [] -> forallb isWord language = true ->
  In marker path_markers ->
  isSpace a = false ->
  forallb (cmatch (CNot NL)) (a :: line) = true ->
  occurs false (js "```") (body ++ js "``") = false ->
  first_match true (pattern PATTERNS.markdownWithPath)
    (path_block language marker (a :: line) body ++ rest)
  = Some (path_block language marker (a :: line) body, rest,
          [(3, body); (2, a :: line); (1, language)]).
Proof.
  intros Hl Hw Hm Ha Hq Hc.
  assert (Hlen' : 1 <= length language) by (destruct language; [contradiction | cbn; lia]).
  pose proof (fun cs s => first_way_path_line a line body rest cs s Ha Hq Hc) as Hrest.
  destruct Hm as [<-|[<-|[<-|[]]]];
    (begin_match;
     [ step_lit; step_part language Hw; step_lit;
       repeat (rewrite first_way_alt, first_way_lit_fail by reflexivity);
       rewrite ?first_way_alt;
       erewrite first_way_lit; [reflexivity | reflexivity | reflexivity |];
       cbn [skipn length js list_ascii_of_string];
       apply Hrest; norm_block; reflexivity
     | end_match ]).
Qed.

End OtherFormats.

(** ** Scanning a text of blocks *)

Lemma scan_text {B} rx (render : B -> str) (caps : B -> captures)
    (okb : B -> Prop) (quiet : str -> Prop) :
  1 <= min_len (pattern rx) ->
  (forall b rest, okb b ->
     first_match (ignoreCase rx) (pattern rx) (render b ++ rest)
     = Some (render b, rest, caps b)) ->
  (forall g i, quiet g -> i < length g ->
     first_match (ignoreCase rx) (pattern rx) (skipn i g) = None) ->
  (forall g b rest i, quiet g -> okb b -> i < length g ->
     first_match (ignoreCase rx) (pattern rx) (skipn i (g ++ render b ++ rest)) = None) ->
  forall items g0,
    quiet g0 -> List.Forall (fun bg => okb (fst bg) /\ quiet (snd bg)) items ->
    scan rx (Blocks.text_of render g0 items) (map (fun bg => caps (fst bg)) items).
Proof.
  intros Hmin Hblock Hlast Hgap.
  induction items as [|[b g] items IH]; intros g0 Hg0 Hitems.
  - unfold Blocks.text_of. cbn [flat_map map]. rewrite app_nil_r. apply scan_end.
    intros i Hi. destruct (Nat.eq_dec i (length g0)) as [->|Hne].
    + rewrite skipn_all. apply first_match_nil, Hmin.
    + apply Hlast; [exact Hg0 | lia].
  - apply Forall_cons in Hitems as [[Hb Hg] Hitems].
    unfold Blocks.text_of. cbn [flat_map map fst snd].
    rewrite <- app_assoc. fold (Blocks.text_of render g items).
    apply scan_hit.
    + intros i Hi. apply Hgap; assumption.
    + apply Hblock, Hb.
    + apply IH; assumption.
Qed.

Lemma forallb_Forall_and {A} (p q : A -> bool) (l : list A) :
  forallb (fun x => p x && q x) l = true ->
  List.Forall (fun x => p x = true /\ q x = true) l.
Proof.
  intros H. apply List.Forall_forall. intros x Hin.
  rewrite forallb_forall in H. apply andb_true_iff, H, Hin.
Qed.

(** Blocks that open with a fence, in a text without other backticks. *)
Lemma fenced_scan {B} rx l r (render : B -> str) (caps : B -> captures) (ok : B -> bool)
    g0 items :
  pattern rx = Lit ("`"%char :: l) ~> r ->
  1 <= min_len (pattern rx) ->
  (forall b rest, ok b = true ->
     first_match (ignoreCase rx) (pattern rx) (render b ++ rest)
     = Some (render b, rest, caps b)) ->
  Blocks.no_backtick g0 = true ->
  forallb (fun bg => ok (fst bg) && Blocks.no_backtick (snd bg)) items = true ->
  matches rx (Blocks.text_of render g0 items)
  = Some (map (fun bg => caps (fst bg)) items).
Proof.
  intros Hpat Hmin Hblock Hg0 Hitems. apply scan_matches; [exact Hmin|].
  apply (scan_text rx render caps (fun b => ok b = true)
           (fun g => Blocks.no_backtick g = true));
    try assumption.
  - intros g i Hg Hi. rewrite Hpat. apply first_way_lit_fail.
    rewrite <- (app_nil_r g). apply no_backtick_skipn; assumption.
  - intros g b rest i Hg _ Hi. rewrite Hpat. apply first_way_lit_fail.
    apply no_backtick_skipn; assumption.
  - apply forallb_Forall_and, Hitems.
Qed.

(** ** [parseArtifact] on a text of blocks *)

Lemma try_format_accept parse next st text a st' :
  parse st text = Some (Some a, st') -> files a <> [] ->
  option_map fst (try_format parse next st text) = Some a.
Proof.
  intros H Hf. unfold try_format. rewrite H. cbn [accepted].
  destruct (files a) eqn:E; [contradiction|]. reflexivity.
Qed.

Lemma try_format_reject parse next st text st' :
  parse st text = Some (None, st') ->
  try_format parse next st text = next st' text.
Proof. intros H. unfold try_format. rewrite H. reflexivity. Qed.

Lemma files_only_some (fs : FileMap) :
  fs <> [] ->
  files_only fs = Some {| files := fs; commands := []; metadata := None |}.
Proof. intros H. unfold files_only. destruct fs; [contradiction | reflexivity]. Qed.

Lemma JSMap_set_nonempty {V} (m : JSMap.t V) k v : JSMap.set m k v <> [].
Proof. destruct m as [|[k' v'] m]; cbn; [|destruct (str_eqb k k')]; discriminate. Qed.

Lemma fold_set_nonempty {B} (key val : B -> str) : forall items (fs : FileMap),
  (fs <> [] \/ items <> []) ->
  fold_left (fun fs b => JSMap.set fs (key b) (val b)) items fs <> [].
Proof.
  induction items as [|b items IH]; intros fs H; cbn [fold_left].
  - destruct H as [H|H]; [exact H | contradiction].
  - apply IH. left. apply JSMap_set_nonempty.
Qed.

Lemma fold_left_map_ext {A B C} (f : A -> C -> A) (g : B -> C) (h : A -> B -> A) :
  (forall a b, f a (g b) = h a b) ->
  forall l a, fold_left f (map g l) a = fold_left h l a.
Proof.
  intros Hfg. induction l as [|b l IH]; intros a; [reflexivity|].
  cbn [map fold_left]. rewrite Hfg. apply IH.
Qed.

(** A format parser that is one loop, on a text whose matches are known. *)
Lemma loop_parser_matches rx (body : captures -> FileMap -> FileMap)
    (get : Cursors -> nat) (set : nat -> Cursors -> Cursors) st text ms :
  (forall st, get (set 0 st) = 0) ->
  matches rx text = Some ms ->
  exists st',
    (let st := set 0 st in
     match exec_loop (loop_fuel text) rx text body (get st) JSMap.empty with
     | None => None
     | Some (files, li) => Some (files_only files, set li st)
     end) =
      Some (files_only (fold_left (fun fs cs => body cs fs) ms JSMap.empty), st').
Proof.
  intros Hget Hms.
  destruct (matches_fold rx text ms body JSMap.empty Hms) as [li Hloop].
  cbv zeta. rewrite Hget, Hloop. eauto.
Qed.

Lemma file_blocks_scan g0 items :
  Blocks.file_gap_ok g0 = true ->
  forallb (fun bg => Blocks.file_ok (fst bg) && Blocks.file_gap_ok (snd bg)) items = true ->
  matches PATTERNS.lovableFile (Blocks.text_of Blocks.render_file g0 items)
  = Some (map (fun bg => [(2, snd (fst bg)); (1, fst (fst bg))]) items).
Proof.
  intros Hg0 Hitems. apply scan_matches; [apply min_len_lovableFile|].
  apply (scan_text PATTERNS.lovableFile Blocks.render_file
           (fun b => [(2, snd b); (1, fst b)])
           (fun b => Blocks.file_ok b = true) (fun g => Blocks.file_gap_ok g = true)).
  - apply min_len_lovableFile.
  - intros [p c] rest. unfold Blocks.file_ok, Blocks.render_file. cbn [fst snd].
    rewrite !andb_true_iff, !negb_true_iff. intros [[Hp Hq] Hc].
    apply first_match_file_block; [|exact Hq|exact Hc]. intros ->. discriminate.
  - intros g i Hg Hi. unfold Blocks.file_gap_ok in Hg. apply negb_true_iff in Hg.
    apply first_way_lit_fail, occurs_skipn, Hg.
  - intros g [p c] rest i Hg _ Hi. unfold Blocks.file_gap_ok in Hg.
    apply negb_true_iff in Hg.
    apply first_way_lit_fail. apply no_start_inside; [exact Hg | | exact Hi].
    unfold Blocks.render_file, Blocks.file_block. cbn [fst snd].
    repeat (progress cbn [app js list_ascii_of_string] || rewrite <- app_assoc).
    solve_tails.
  - exact Hg0.
  - apply forallb_Forall_and, Hitems.
Qed.

(** X5: file blocks are extracted. The text is made of file blocks
    [<file path="p">body</file>] with text around them: every path is
    not empty and has no double quote, no body contains the closing tag,
    no text between the blocks contains the opening of a file block, and
    the container pattern matches nowhere in the text. Then
    [parseArtifact] returns one file for each path, with the trimmed body
    of the last block of that path, in the order in which the paths first
    occur; it returns no command and no title, and fenced blocks inside
    the bodies or between the blocks add nothing. *)
Theorem file_blocks_are_extracted :
  forall (st : Cursors) (g0 : str) (items : list ((str * str) * str)),
    no_match PATTERNS.boltArtifact (Blocks.text_of Blocks.render_file g0 items) ->
    Blocks.file_gap_ok g0 = true ->
    forallb (fun bg => Blocks.file_ok (fst bg) && Blocks.file_gap_ok (snd bg)) items
    = true ->
    items <> [] ->
    option_map fst (parseArtifact st (Blocks.text_of Blocks.render_file g0 items)) =
      Some {| files := Blocks.files_of items; commands := []; metadata := None |}.
Proof.
  intros st g0 items Hbolt Hg0 Hitems Hne.
  set (text := Blocks.text_of Blocks.render_file g0 items) in *.
  unfold parseArtifact.
  rewrite (try_format_reject _ _ _ _ _ (parseBoltFormat_no_match st text Hbolt)).
  destruct (loop_parser_matches PATTERNS.lovableFile
              (fun cs (files : FileMap) =>
                 JSMap.set files (default [] (capture 1 cs))
                           (trim (default [] (capture 2 cs))))
              li_lovableFile set_lovableFile
              (set_boltArtifact 0 st) text _ (fun _ => eq_refl)
              (file_blocks_scan g0 items Hg0 Hitems))
    as [st' Hparse].
  rewrite (fold_left_map_ext _ _
             (fun fs (bg : str * str * str) =>
                JSMap.set fs (fst (fst bg)) (trim (snd (fst bg)))))
    in Hparse by reflexivity.
  fold (Blocks.files_of items) in Hparse.
  assert (Hfiles : Blocks.files_of items <> []).
  { apply (fold_set_nonempty (fun bg : str * str * str => fst (fst bg))
                             (fun bg => trim (snd (fst bg)))). right. exact Hne. }
  rewrite files_only_some in Hparse by exact Hfiles.
  apply (try_format_accept parseLovableFormat _ _ _ _ st'); [exact Hparse | exact Hfiles].
Qed.

Lemma file_blocks_are_extracted_witness :
  option_map fst
    (parseArtifact cursors0
       (Blocks.text_of Blocks.render_file (js "Files:" ++ [NL]) Samples.file_blocks))
  = Some {| files := [(js "a.css", js "body{}"); (js "b.js", js "let x")];
            commands := []; metadata := None |}.
Proof.
  apply (file_blocks_are_extracted cursors0 (js "Files:" ++ [NL]) Samples.file_blocks);
    try (vm_compute; reflexivity).
  discriminate.
Defined.

Lemma cursor_blocks_scan g0 items :
  Blocks.no_backtick g0 = true ->
  forallb (fun bg => Blocks.cursor_ok (fst bg) && Blocks.no_backtick (snd bg)) items
  = true ->
  matches PATTERNS.cursorBlock (Blocks.text_of Blocks.render_cursor g0 items)
  = Some (map (fun bg => [(3, Blocks.pb_body (fst bg)); (2, Blocks.pb_path (fst bg));
                          (1, Blocks.pb_language (fst bg))]) items).
Proof.
  eapply (fenced_scan PATTERNS.cursorBlock _ _ Blocks.render_cursor
            (fun b => [(3, Blocks.pb_body b); (2, Blocks.pb_path b);
                       (1, Blocks.pb_language b)]) Blocks.cursor_ok);
    [reflexivity | apply min_len_cursorBlock |].
  intros [lang p c] rest.
  unfold Blocks.cursor_ok, Blocks.render_cursor, Blocks.word, Blocks.one_line,
    Blocks.fence_free.
  cbn [Blocks.pb_language Blocks.pb_path Blocks.pb_body].
  rewrite !andb_true_iff, !negb_true_iff. intros [[[Hl Hw] [Hp Hq]] Hc].
  apply first_match_cursor_block; try assumption; intros ->; discriminate.
Qed.

(** What the loop of [parseCursorFormat] and of [parseMarkdownWithPath]
    makes of the matches of blocks that name a path. *)
Lemma path_body_files : forall (items : list (Blocks.PathBlock * str)) (fs : FileMap),
  forallb (fun bg : Blocks.PathBlock * str => Blocks.one_line (Blocks.pb_path (fst bg)))
          items = true ->
  fold_left (fun fs cs => path_body cs fs)
    (map (fun bg : Blocks.PathBlock * str =>
            [(3, Blocks.pb_body (fst bg)); (2, Blocks.pb_path (fst bg));
             (1, Blocks.pb_language (fst bg))])
         items) fs
  = fold_left (fun fs (bg : Blocks.PathBlock * str) =>
                 JSMap.set fs (trim (Blocks.pb_path (fst bg)))
                           (trim (Blocks.pb_body (fst bg))))
              items fs.
Proof.
  induction items as [|[b g] items IH]; intros fs H; [reflexivity|].
  cbn [forallb fst] in H. apply andb_true_iff in H as [Hb H].
  cbn [map fold_left fst]. rewrite <- IH by exact H. f_equal.
  unfold Blocks.one_line in Hb. apply andb_true_iff in Hb as [Hb _].
  unfold path_body. cbn [capture Nat.eqb default].
  destruct (Blocks.pb_path b); [discriminate | reflexivity].
Qed.

Lemma path_files_nonempty (items : list (Blocks.PathBlock * str)) :
  items <> [] -> Blocks.path_files_of items <> [].
Proof.
  intros Hne.
  apply (fold_set_nonempty
           (fun bg : Blocks.PathBlock * str => trim (Blocks.pb_path (fst bg)))
           (fun bg => trim (Blocks.pb_body (fst bg)))).
  right. exact Hne.
Qed.

(** X6: blocks of the cursor format are extracted. The text is made of
    fenced blocks whose opening line is [language:path], with text
    around them that has no backtick: every language is a word, every
    path is a non-empty rest of the line, no fence ends inside a body,
    and neither the container pattern nor the pattern of file blocks
    matches in the text. Then [parseArtifact] returns, for each block,
    the trimmed body under the trimmed path (the last block of a path
    wins), no command and no title. *)
Theorem cursor_blocks_are_extracted :
  forall (st : Cursors) (g0 : str) (items : list (Blocks.PathBlock * str)),
    no_match PATTERNS.boltArtifact (Blocks.text_of Blocks.render_cursor g0 items) ->
    no_match PATTERNS.lovableFile (Blocks.text_of Blocks.render_cursor g0 items) ->
    Blocks.no_backtick g0 = true ->
    forallb (fun bg => Blocks.cursor_ok (fst bg) && Blocks.no_backtick (snd bg)) items
    = true ->
    items <> [] ->
    option_map fst (parseArtifact st (Blocks.text_of Blocks.render_cursor g0 items)) =
      Some {| files := Blocks.path_files_of items; commands := []; metadata := None |}.
Proof.
  intros st g0 items Hbolt Hlov Hg0 Hitems Hne.
  set (text := Blocks.text_of Blocks.render_cursor g0 items) in *.
  unfold parseArtifact.
  rewrite (try_format_reject _ _ _ _ _ (parseBoltFormat_no_match st text Hbolt)).
  rewrite (try_format_reject _ _ _ _ _ (parseLovableFormat_no_match _ text Hlov)).
  destruct (loop_parser_matches PATTERNS.cursorBlock path_body
              li_cursorBlock set_cursorBlock
              (set_lovableFile 0 (set_boltArtifact 0 st)) text _ (fun _ => eq_refl)
              (cursor_blocks_scan g0 items Hg0 Hitems))
    as [st' Hparse].
  rewrite path_body_files in Hparse.
  2:{ rewrite forallb_forall in *. intros bg Hin. apply Hitems in Hin.
      unfold Blocks.cursor_ok in Hin. rewrite !andb_true_iff in Hin. tauto. }
  fold (Blocks.path_files_of items) in Hparse.
  pose proof (path_files_nonempty items Hne) as Hfiles.
  rewrite files_only_some in Hparse by exact Hfiles.
  apply (try_format_accept parseCursorFormat _ _ _ _ st'); [exact Hparse | exact Hfiles].
Qed.

Lemma cursor_blocks_are_extracted_witness :
  option_map fst
    (parseArtifact cursors0
       (Blocks.text_of Blocks.render_cursor (js "Two files:" ++ [NL]) Samples.cursor_blocks))
  = Some {| files := [(js "src/a.ts", js "let a = 1"); (js "src/a.css", js "a{}")];
            commands := []; metadata := None |}.
Proof.
  apply (cursor_blocks_are_extracted cursors0 (js "Two files:" ++ [NL])
           Samples.cursor_blocks);
    try (vm_compute; reflexivity).
  discriminate.
Defined.

Lemma path_blocks_scan marker g0 items :
  In marker Blocks.path_markers ->
  Blocks.no_backtick g0 = true ->
  forallb (fun bg => Blocks.path_ok (fst bg) && Blocks.no_backtick (snd bg)) items
  = true ->
  matches PATTERNS.markdownWithPath
    (Blocks.text_of (Blocks.render_path marker) g0 items)
  = Some (map (fun bg => [(3, Blocks.pb_body (fst bg)); (2, Blocks.pb_path (fst bg));
                          (1, Blocks.pb_language (fst bg))]) items).
Proof.
  intros Hm.
  eapply (fenced_scan PATTERNS.markdownWithPath _ _ (Blocks.render_path marker)
            (fun b => [(3, Blocks.pb_body b); (2, Blocks.pb_path b);
                       (1, Blocks.pb_language b)]) Blocks.path_ok);
    [reflexivity | apply min_len_markdownWithPath |].
  intros [lang p c] rest.
  unfold Blocks.path_ok, Blocks.render_path, Blocks.word, Blocks.one_line,
    Blocks.fence_free.
  cbn [Blocks.pb_language Blocks.pb_path Blocks.pb_body].
  rewrite !andb_true_iff, !negb_true_iff. intros [[[[Hl Hw] [Hp Hq]] Ha] Hc].
  destruct p as [|a p]; [discriminate|]. cbn [hd] in Ha.
  apply first_match_path_block; try assumption. intros ->; discriminate.
Qed.

(** X7: fenced blocks with a path comment are extracted. The text is
    made of fenced blocks whose first line is a comment naming the path
    (the marker [//], [#] or [<!--], then [ filepath: ] and the rest of
    the line), with text around them that has no backtick: every
    language is a word, the rest of the line is not empty and does not
    start with white space, no fence ends inside a body, and none of the
    three patterns tried before matches in the text. Then [parseArtifact]
    returns, for each block, the trimmed body under the trimmed rest of
    the line, no command and no title. The key is the whole rest of the
    line: after the marker [<!--] it includes the end of the comment. *)
Theorem path_comment_blocks_are_extracted :
  forall (st : Cursors) (marker g0 : str) (items : list (Blocks.PathBlock * str)),
    In marker Blocks.path_markers ->
    no_match PATTERNS.boltArtifact
      (Blocks.text_of (Blocks.render_path marker) g0 items) ->
    no_match PATTERNS.lovableFile
      (Blocks.text_of (Blocks.render_path marker) g0 items) ->
    no_match PATTERNS.cursorBlock
      (Blocks.text_of (Blocks.render_path marker) g0 items) ->
    Blocks.no_backtick g0 = true ->
    forallb (fun bg => Blocks.path_ok (fst bg) && Blocks.no_backtick (snd bg)) items
    = true ->
    items <> [] ->
    option_map fst
      (parseArtifact st (Blocks.text_of (Blocks.render_path marker) g0 items)) =
      Some {| files := Blocks.path_files_of items; commands := []; metadata := None |}.
Proof.
  intros st marker g0 items Hm Hbolt Hlov Hcur Hg0 Hitems Hne.
  set (text := Blocks.text_of (Blocks.render_path marker) g0 items) in *.
  unfold parseArtifact.
  rewrite (try_format_reject _ _ _ _ _ (parseBoltFormat_no_match st text Hbolt)).
  rewrite (try_format_reject _ _ _ _ _ (parseLovableFormat_no_match _ text Hlov)).
  rewrite (try_format_reject _ _ _ _ _ (parseCursorFormat_no_match _ text Hcur)).
  destruct (loop_parser_matches PATTERNS.markdownWithPath path_body
              li_markdownWithPath set_markdownWithPath
              (set_cursorBlock 0 (set_lovableFile 0 (set_boltArtifact 0 st))) text _
              (fun _ => eq_refl)
              (path_blocks_scan marker g0 items Hm Hg0 Hitems))
    as [st' Hparse].
  rewrite path_body_files in Hparse.
  2:{ rewrite forallb_forall in *. intros bg Hin. apply Hitems in Hin.
      unfold Blocks.path_ok in Hin. rewrite !andb_true_iff in Hin. tauto. }
  fold (Blocks.path_files_of items) in Hparse.
  pose proof (path_files_nonempty items Hne) as Hfiles.
  rewrite files_only_some in Hparse by exact Hfiles.
  apply (try_format_accept parseMarkdownWithPath _ _ _ _ st');
    [exact Hparse | exact Hfiles].
Qed.

Lemma path_comment_blocks_are_extracted_witness :
  option_map fst
    (parseArtifact cursors0
       (Blocks.text_of (Blocks.render_path (js "<!--")) (js "The page:" ++ [NL])
          Samples.path_blocks))
  = Some {| files := [(js "index.html -->", js "<p>hi</p>")];
            commands := []; metadata := None |}.
Proof.
  apply (path_comment_blocks_are_extracted cursors0 (js "<!--") (js "The page:" ++ [NL])
           Samples.path_blocks);
    try (vm_compute; reflexivity).
  - right. right. left. reflexivity.
  - discriminate.
Defined.

Lemma fenced_blocks_scan g0 items :
  Blocks.no_backtick g0 = true ->
  forallb (fun bg => Blocks.fenced_ok (fst bg) && Blocks.no_backtick (snd bg)) items
  = true ->
  matches PATTERNS.markdownBlock (Blocks.text_of Blocks.render_fenced g0 items)
  = Some (map (fun bg => [(2, snd (fst bg)); (1, fst (fst bg))]) items).
Proof.
  eapply (fenced_scan PATTERNS.markdownBlock _ _ Blocks.render_fenced
            (fun b => [(2, snd b); (1, fst b)]) Blocks.fenced_ok);
    [reflexivity | apply min_len_markdownBlock |].
  intros [lang c] rest.
  unfold Blocks.fenced_ok, Blocks.render_fenced, Blocks.word, Blocks.fence_free.
  cbn [fst snd].
  rewrite !andb_true_iff, !negb_true_iff. intros [[Hl Hw] Hc].
  apply first_match_fenced; try assumption. intros ->; discriminate.
Qed.

(** X8: plain fenced blocks are extracted by inference. The text is
    made of fenced blocks (language, newline, body) with text around
    them that has no backtick: every language is a word, no fence ends
    inside a body, and none of the four patterns tried before matches in
    the text. Then [parseArtifact] returns the file map that the blocks
    build in their order: a block in one of the languages [text], [bash],
    [shell], [sh], [console] adds nothing, any other block puts its
    trimmed body under the path that [inferFilePath] gives for its body
    and language, replacing an earlier block of the same path. If every
    block is skipped the result has no file. *)
Theorem fenced_blocks_are_extracted :
  forall (st : Cursors) (g0 : str) (items : list ((str * str) * str)),
    no_match PATTERNS.boltArtifact (Blocks.text_of Blocks.render_fenced g0 items) ->
    no_match PATTERNS.lovableFile (Blocks.text_of Blocks.render_fenced g0 items) ->
    no_match PATTERNS.cursorBlock (Blocks.text_of Blocks.render_fenced g0 items) ->
    no_match PATTERNS.markdownWithPath (Blocks.text_of Blocks.render_fenced g0 items) ->
    Blocks.no_backtick g0 = true ->
    forallb (fun bg => Blocks.fenced_ok (fst bg) && Blocks.no_backtick (snd bg)) items
    = true ->
    option_map fst (parseArtifact st (Blocks.text_of Blocks.render_fenced g0 items)) =
      Some {| files := Blocks.fenced_files_of items; commands := []; metadata := None |}.
Proof.
  intros st g0 items Hbolt Hlov Hcur Hmd Hg0 Hitems.
  set (text := Blocks.text_of Blocks.render_fenced g0 items) in *.
  unfold parseArtifact.
  rewrite (try_format_reject _ _ _ _ _ (parseBoltFormat_no_match st text Hbolt)).
  rewrite (try_format_reject _ _ _ _ _ (parseLovableFormat_no_match _ text Hlov)).
  rewrite (try_format_reject _ _ _ _ _ (parseCursorFormat_no_match _ text Hcur)).
  rewrite (try_format_reject _ _ _ _ _ (parseMarkdownWithPath_no_match _ text Hmd)).
  destruct (loop_parser_matches PATTERNS.markdownBlock markdown_body
              li_markdownBlock set_markdownBlock
              (set_markdownWithPath 0
                 (set_cursorBlock 0 (set_lovableFile 0 (set_boltArtifact 0 st)))) text _
              (fun _ => eq_refl)
              (fenced_blocks_scan g0 items Hg0 Hitems))
    as [st' Hparse].
  rewrite (fold_left_map_ext _ _
             (fun fs (bg : str * str * str) => Blocks.add_fenced fs (fst bg)))
    in Hparse by reflexivity.
  fold (Blocks.fenced_files_of items) in Hparse.
  unfold try_format at 1.
  change (parseMarkdownBlocks ?s ?t) with
    (let st := set_markdownBlock 0 s in
     match exec_loop (loop_fuel t) PATTERNS.markdownBlock t markdown_body
             (li_markdownBlock st) JSMap.empty with
     | None => None
     | Some (files, li) => Some (files_only files, set_markdownBlock li st)
     end).
  rewrite Hparse. unfold files_only, accepted.
  destruct (Blocks.fenced_files_of items); reflexivity.
Qed.

Lemma fenced_blocks_are_extracted_witness :
  option_map fst
    (parseArtifact cursors0
       (Blocks.text_of Blocks.render_fenced (js "Run, then edit:" ++ [NL])
          Samples.fenced_blocks))
  = Some {| files := [(js "src/App.tsx", js "export default function App() {}")];
            commands := []; metadata := None |}.
Proof.
  apply (fenced_blocks_are_extracted cursors0 (js "Run, then edit:" ++ [NL])
           Samples.fenced_blocks);
    vm_compute; reflexivity.
Defined.

(** ** The tree *)

Section TreeRoot.

Import FileTree.

Lemma split_length k : 1 <= length (split "/" k).
Proof.
  destruct k as [|a k]; cbn [split]; [cbn; lia|].
  destruct (Ascii.eqb a "/"); [cbn; lia|]. destruct (split "/" k); cbn; lia.
Qed.

Lemma flat_key_split k : (0 =? length (split "/" k) - 1) = flat_key k.
Proof.
  induction k as [|a k IH]; [reflexivity|].
  pose proof (split_length k) as Hlen.
  cbn [split flat_key forallb]. destruct (Ascii.eqb a "/"); cbn [negb andb].
  - cbn [length]. destruct (length (split "/" k)); [lia | reflexivity].
  - destruct (split "/" k); [cbn in Hlen; lia | exact IH].
Qed.

Lemma split_seq k :
  seq 0 (length (split "/" k)) = 0 :: seq 1 (length (split "/" k) - 1).
Proof.
  pose proof (split_length k) as H.
  destruct (length (split "/" k)) as [|n]; [lia|]. cbn [seq Nat.sub].
  rewrite ?Nat.sub_0_r. reflexivity.
Qed.

Lemma join_first parts : join (js "/") (firstn (0 + 1) parts) = default [] (parts !! 0).
Proof. destruct parts; reflexivity. Qed.

Lemma split_flat k : flat_key k = true -> split "/" k = [k].
Proof.
  induction k as [|a k IH]; [reflexivity|].
  cbn [flat_key forallb split]. intros H. apply andb_true_iff in H as [Ha Hk].
  apply negb_true_iff in Ha. rewrite Ha, (IH Hk). reflexivity.
Qed.

(** *** Maps of references and maps of objects *)

Lemma get_deref l (m : JSMap.t nat) k :
  JSMap.get (map (deref l) m) k
  = option_map (fun r => default blank (l !! r)) (JSMap.get m k).
Proof.
  induction m as [|[k' r] m IH]; [reflexivity|].
  cbn [map deref fst snd JSMap.get]. destruct (str_eqb k k'); [reflexivity | exact IH].
Qed.

Lemma has_deref l (m : JSMap.t nat) k :
  JSMap.has (map (deref l) m) k = JSMap.has m k.
Proof. unfold JSMap.has. rewrite get_deref. destruct (JSMap.get m k); reflexivity. Qed.

Lemma set_deref l (m : JSMap.t nat) k r :
  map (deref l) (JSMap.set m k r) = JSMap.set (map (deref l) m) k (default blank (l !! r)).
Proof.
  induction m as [|[k' r'] m IH]; [reflexivity|].
  cbn [map deref fst snd JSMap.set]. destruct (str_eqb k k'); [reflexivity|].
  cbn [map deref fst snd]. rewrite IH. reflexivity.
Qed.

Lemma deref_ext l l' (m : JSMap.t nat) :
  (forall kv, In kv m -> l' !! snd kv = l !! snd kv) ->
  map (deref l') m = map (deref l) m.
Proof.
  intros H. apply map_ext_in. intros kv Hin. unfold deref. rewrite (H kv Hin).
  reflexivity.
Qed.

Lemma set_absent {V} (m : JSMap.t V) k v :
  JSMap.has m k = false -> JSMap.set m k v = m ++ [(k, v)].
Proof.
  unfold JSMap.has. induction m as [|[k' v'] m IH]; [reflexivity|].
  cbn [JSMap.get JSMap.set app]. destruct (str_eqb k k'); [discriminate|].
  intros H. rewrite (IH H). reflexivity.
Qed.

Lemma get_In_snd {V} (m : JSMap.t V) k v :
  JSMap.get m k = Some v -> In v (map snd m).
Proof.
  intros H. apply JSMap_get_In in H. apply (in_map snd) in H. exact H.
Qed.

(** Giving the object behind the first reference of a key a new value
    is a [set] on the map of objects, where no reference is held
    twice. *)
Lemma deref_alter (g : NodeObj -> NodeObj) l : forall (m : JSMap.t nat) k f,
  NoDup (map snd m) -> JSMap.get m k = Some f -> f < length l ->
  map (deref (alter g f l)) m
  = JSMap.set (map (deref l) m) k (g (default blank (l !! f))).
Proof.
  induction m as [|[k' r] m IH]; intros k f Hnd Hget Hf; [discriminate|].
  cbn [map snd] in Hnd. apply NoDup_cons in Hnd as [Hr Hnd].
  cbn [JSMap.get] in Hget. cbn [map deref fst snd JSMap.set].
  destruct (str_eqb k k') eqn:E.
  - injection Hget as ->. apply str_eqb_eq in E. subst k'.
    destruct (lookup_lt_is_Some_2 l f Hf) as [o Ho].
    change (deref (alter g f l) (k, f)) with (k, default blank (alter g f l !! f)).
    rewrite list_lookup_alter_eq, Ho. cbn [fmap option_fmap option_map default].
    f_equal. apply deref_ext. intros kv Hin. apply list_lookup_alter_ne.
    intros ->. apply Hr, list_elem_of_In, (in_map snd), Hin.
  - change (deref (alter g f l) (k', r)) with (k', default blank (alter g f l !! r)).
    change (deref l (k', r)) with (k', default blank (l !! r)).
    rewrite list_lookup_alter_ne.
    + f_equal. apply IH; assumption.
    + intros <-. apply Hr, list_elem_of_In. eapply get_In_snd, Hget.
Qed.

(** *** One round of the inner loop *)

Lemma set_children_twice c o : set_children c (set_children c o) = set_children c o.
Proof. reflexivity. Qed.

(** In a store without children a round of the inner loop comes to this:
    the node is created unless the name is there, and for a segment that
    is not the last the node of that name gets an empty list of children
    and a new, empty map is the next level. *)
Lemma segment_childless files path_ parts st cur i :
  childless_store st ->
  segment files path_ parts (st, cur) i =
    let part := default [] (parts !! i) in
    let isFile := i =? length parts - 1 in
    let st1 :=
      if JSMap.has (map_of st cur) part then st
      else map_set (fst (new_node st
                     {| name := part;
                        type := if isFile then file else folder;
                        path := join (js "/") (firstn (i + 1) parts);
                        content := if isFile then JSMap.get files path_ else None;
                        children := if isFile then None else Some [] |}))
                   cur part (length (nodes st)) in
    if isFile then (st1, cur)
    else match JSMap.get (map_of st1 cur) part with
         | None => (st1, cur)
         | Some folder_ =>
             ({| nodes := alter (set_children (Some [])) folder_ (nodes st1);
                 maps := maps st1 ++ [[]] |}, length (maps st1))
         end.
Proof.
  intros Hst. unfold segment. cbv zeta.
  set (part := default [] (parts !! i)).
  set (isFile := i =? length parts - 1).
  set (node := {| name := part; type := if isFile then file else folder;
                  path := join (js "/") (firstn (i + 1) parts);
                  content := if isFile then JSMap.get files path_ else None;
                  children := if isFile then None else Some [] |}).
  assert (Hnode : children node = None \/ children node = Some []).
  { unfold node. cbn. destruct isFile; auto. }
  change (let '(st0, node0) := new_node st node in map_set st0 cur part node0)
    with (map_set (fst (new_node st node)) cur part (length (nodes st))).
  set (st1 := if JSMap.has (map_of st cur) part then st
              else map_set (fst (new_node st node)) cur part (length (nodes st))).
  assert (Hst1 : childless_store st1).
  { unfold st1. destruct (JSMap.has _ _); [exact Hst|].
    apply childless_map_set, childless_new_node; assumption. }
  destruct isFile; [reflexivity|].
  destruct (JSMap.get (map_of st1 cur) part) as [folder_|]; [|reflexivity].
  set (st2 := match children_of st1 folder_ with
              | None => write_children st1 folder_ []
              | Some _ => st1
              end).
  assert (Hst2 : childless_store st2).
  { unfold st2. destruct (children_of st1 folder_); [exact Hst1|].
    apply childless_write_nil, Hst1. }
  change (new_map st2) with ({| nodes := nodes st2; maps := maps st2 ++ [[]] |},
                             length (maps st2)).
  cbv iota beta.
  set (st3 := {| nodes := nodes st2; maps := maps st2 ++ [[]] |}).
  assert (Hst3 : childless_store st3) by exact Hst2.
  rewrite (children_of_childless st3 folder_ Hst3). cbn [fold_left].
  assert (Hnew : map_of st3 (length (maps st2)) = []).
  { exact (map_of_new_map st2). }
  rewrite Hnew. cbn [JSMap.values map].
  assert (Hmaps : maps st2 = maps st1).
  { unfold st2. destruct (children_of st1 folder_); reflexivity. }
  assert (Hnodes : alter (set_children (Some [])) folder_ (nodes st2)
                   = alter (set_children (Some [])) folder_ (nodes st1)).
  { unfold st2. destruct (children_of st1 folder_); [reflexivity|].
    cbn [write_children nodes]. rewrite list_alter_alter_eq.
    apply list_alter_ext; [|reflexivity]. intros o _. reflexivity. }
  unfold write_children, st3. cbn [nodes maps]. rewrite Hnodes, Hmaps. reflexivity.
Qed.

Lemma map_of_set_ne st m m' k r : m <> m' -> map_of (map_set st m k r) m' = map_of st m'.
Proof.
  intros Hne. unfold map_of, map_set. cbn [maps].
  rewrite list_lookup_insert_ne by exact Hne. reflexivity.
Qed.

Lemma map_of_set_eq st m k r :
  m < length (maps st) ->
  map_of (map_set st m k r) m = JSMap.set (map_of st m) k r.
Proof.
  intros Hm. unfold map_of at 1, map_set. cbn [maps].
  rewrite list_lookup_insert_eq by exact Hm. reflexivity.
Qed.

Lemma map_of_set_out st m k r :
  length (maps st) <= m -> map_set st m k r = st.
Proof.
  intros Hm. unfold map_set. rewrite list_insert_ge by exact Hm. destruct st; reflexivity.
Qed.

Lemma root_refs_valid st kv :
  valid_refs st -> In kv (map_of st root) -> snd kv < length (nodes st).
Proof.
  intros Hv Hin. pose proof (map_of_Forall st root Hv) as H.
  rewrite List.Forall_forall in H. apply H, Hin.
Qed.

(** A round below the root leaves the root level as it is. *)
Lemma segment_below files path_ parts st cur i :
  rooted st -> below_root st cur ->
  let r := segment files path_ parts (st, cur) i in
  rooted (fst r) /\ below_root (fst r) (snd r)
  /\ root_level (fst r) = root_level st.
Proof.
  intros (Hgood & Hnd & Hlen) [Hcur Hbelow] r.
  pose proof (good_segment files path_ parts st cur i Hgood) as Hgood'. fold r in Hgood'.
  destruct Hgood as [Hc Hv].
  enough (H : map_of (fst r) root = map_of st root
              /\ 0 < length (maps (fst r))
              /\ Forall (fun kv => ~ In (snd kv) (map snd (map_of st root)))
                        (map_of (fst r) (snd r))
              /\ snd r <> root
              /\ (forall kv, In kv (map_of st root) ->
                    nodes (fst r) !! snd kv = nodes st !! snd kv)).
  { destruct H as (Hroot & Hlen' & Hb & Hne & Hsame).
    split; [|split].
    - split; [exact Hgood'|]. rewrite Hroot. split; assumption.
    - split; [exact Hne|]. rewrite Hroot. exact Hb.
    - unfold root_level. rewrite Hroot. apply deref_ext, Hsame. }
  unfold r. rewrite (segment_childless files path_ parts st cur i Hc). cbv zeta.
  set (part := default [] (parts !! i)).
  set (isFile := i =? length parts - 1).
  set (node := {| name := part; type := if isFile then file else folder;
                  path := join (js "/") (firstn (i + 1) parts);
                  content := if isFile then JSMap.get files path_ else None;
                  children := if isFile then None else Some [] |}).
  set (st1 := if JSMap.has (map_of st cur) part then st
              else map_set (fst (new_node st node)) cur part (length (nodes st))).
  assert (H1 : map_of st1 root = map_of st root
               /\ 0 < length (maps st1)
               /\ Forall (fun kv => ~ In (snd kv) (map snd (map_of st root)))
                         (map_of st1 cur)
               /\ (forall kv, In kv (map_of st root) ->
                     nodes st1 !! snd kv = nodes st !! snd kv)).
  { unfold st1. destruct (JSMap.has (map_of st cur) part).
    - repeat split; auto.
    - split; [rewrite map_of_set_ne by exact Hcur; reflexivity|]. split; [|split].
      + unfold map_set. cbn [maps new_node fst]. rewrite length_insert. exact Hlen.
      + destruct (Nat.lt_ge_cases cur (length (maps st))) as [Hin|Hout].
        * rewrite map_of_set_eq by exact Hin.
          apply JSMap_set_Forall; [exact Hbelow|]. cbn [snd]. intros Hr.
          apply in_map_iff in Hr as (kv & Hkv & Hr).
          pose proof (root_refs_valid st kv Hv Hr). lia.
        * rewrite map_of_set_out by exact Hout. exact Hbelow.
      + intros kv Hin. cbn [map_set new_node fst nodes].
        apply lookup_app_l, (root_refs_valid st kv Hv Hin). }
  destruct H1 as (Hroot1 & Hlen1 & Hb1 & Hsame1).
  destruct isFile; [cbn [fst snd]; auto|].
  destruct (JSMap.get (map_of st1 cur) part) as [folder_|] eqn:Hget;
    [|cbn [fst snd]; auto].
  cbn [fst snd]. split; [|split; [|split; [|split]]].
  - unfold map_of. cbn [maps]. rewrite lookup_app_l by exact Hlen1. exact Hroot1.
  - cbn [maps]. rewrite length_app. lia.
  - unfold map_of. cbn [maps]. rewrite lookup_app_r by apply le_n.
    rewrite Nat.sub_diag. constructor.
  - unfold root. lia.
  - intros kv Hin. cbn [nodes]. rewrite <- (Hsame1 kv Hin).
    apply list_lookup_alter_ne. intros ->.
    rewrite List.Forall_forall in Hb1.
    apply JSMap_get_In in Hget. apply (Hb1 _ Hget). cbn [snd].
    apply (in_map snd) in Hin. exact Hin.
Qed.

Lemma fold_segment_below files path_ parts : forall idx st cur,
  rooted st -> below_root st cur ->
  let r := fold_left (segment files path_ parts) idx (st, cur) in
  rooted (fst r) /\ root_level (fst r) = root_level st.
Proof.
  induction idx as [|i idx IH]; intros st cur Hst Hcur; cbn [fold_left].
  - split; [exact Hst | reflexivity].
  - destruct (segment_below files path_ parts st cur i Hst Hcur) as (Hst' & Hcur' & Hroot).
    destruct (segment files path_ parts (st, cur) i) as [st' cur'].
    cbn [fst snd] in *. rewrite <- Hroot. apply IH; assumption.
Qed.

(** The first round, at the root. *)
Lemma segment_root files path_ st :
  rooted st ->
  let r := segment files path_ (split "/" path_) (st, root) 0 in
  rooted (fst r)
  /\ root_level (fst r) = top_step files (root_level st) path_
  /\ (flat_key path_ = false -> below_root (fst r) (snd r)).
Proof.
  intros (Hgood & Hnd & Hlen) r.
  pose proof (good_segment files path_ (split "/" path_) st root 0 Hgood) as Hgood'.
  fold r in Hgood'. destruct Hgood as [Hc Hv].
  enough (H : NoDup (map snd (map_of (fst r) root))
              /\ 0 < length (maps (fst r))
              /\ root_level (fst r) = top_step files (root_level st) path_
              /\ (flat_key path_ = false -> below_root (fst r) (snd r))).
  { destruct H as (H1 & H2 & H3 & H4).
    split; [|split; assumption]. split; [exact Hgood'|]. split; assumption. }
  unfold r. rewrite (segment_childless files path_ _ st root 0 Hc). cbv zeta.
  rewrite flat_key_split, join_first. fold (first_segment path_).
  set (part := first_segment path_).
  change {| name := part;
            type := if flat_key path_ then file else folder;
            path := part;
            content := if flat_key path_ then JSMap.get files path_ else None;
            children := if flat_key path_ then None else Some [] |}
    with (top_node files path_).
  set (st1 := if JSMap.has (map_of st root) part then st
              else map_set (fst (new_node st (top_node files path_))) root part
                           (length (nodes st))).
  unfold top_step. fold part.
  set (top1 := if JSMap.has (root_level st) part then root_level st
               else JSMap.set (root_level st) part (top_node files path_)).
  assert (H1 : NoDup (map snd (map_of st1 root))
               /\ 0 < length (maps st1)
               /\ root_level st1 = top1
               /\ valid_refs st1).
  { unfold st1, top1.
    replace (JSMap.has (root_level st) part) with (JSMap.has (map_of st root) part)
      by (symmetry; apply has_deref).
    destruct (JSMap.has (map_of st root) part) eqn:Hhas; [auto|].
    split; [|split; [|split]].
    - rewrite map_of_set_eq by (cbn [new_node fst maps]; exact Hlen).
      change (map_of (fst (new_node st (top_node files path_))) root)
        with (map_of st root).
      rewrite set_absent by exact Hhas. rewrite map_app. cbn [map snd].
      apply NoDup_app. split; [exact Hnd|]. split; [|apply NoDup_singleton].
      intros x Hx Hk. apply list_elem_of_singleton in Hk. subst x.
      apply list_elem_of_In, in_map_iff in Hx as (kv & Hkv & Hin).
      pose proof (root_refs_valid st kv Hv Hin). lia.
    - unfold map_set. cbn [maps new_node fst]. rewrite length_insert. exact Hlen.
    - unfold root_level.
      rewrite map_of_set_eq by (cbn [new_node fst maps]; exact Hlen).
      change (map_of (fst (new_node st (top_node files path_))) root)
        with (map_of st root).
      cbn [map_set new_node fst nodes]. rewrite set_deref.
      rewrite lookup_app_r by apply le_n. rewrite Nat.sub_diag. cbn [lookup list_lookup default].
      f_equal. apply deref_ext. intros kv Hin.
      apply lookup_app_l, (root_refs_valid st kv Hv Hin).
    - apply (valid_new_node_set st (top_node files path_) root part Hv). }
  destruct H1 as (Hnd1 & Hlen1 & Hroot1 & Hv1).
  destruct (flat_key path_) eqn:Hflat.
  { cbn [fst snd]. split; [exact Hnd1|]. split; [exact Hlen1|].
    split; [exact Hroot1 | discriminate]. }
  rewrite <- Hroot1. unfold root_level at 2. rewrite get_deref.
  destruct (JSMap.get (map_of st1 root) part) as [folder_|] eqn:Hget; cbn [option_map].
  2:{ exfalso. revert Hget. unfold st1.
      destruct (JSMap.has (map_of st root) part) eqn:Hhas.
      - unfold JSMap.has in Hhas. destruct (JSMap.get (map_of st root) part); congruence.
      - rewrite map_of_set_eq by (cbn [new_node fst maps]; exact Hlen).
        rewrite JSMap_get_set, str_eqb_refl. discriminate. }
  cbn [fst snd].
  assert (Hroot' : map_of {| nodes := alter (set_children (Some [])) folder_ (nodes st1);
                             maps := maps st1 ++ [[]] |} root = map_of st1 root).
  { unfold map_of. cbn [maps]. rewrite lookup_app_l by exact Hlen1. reflexivity. }
  assert (Hf : folder_ < length (nodes st1)).
  { apply JSMap_get_In in Hget. apply (root_refs_valid st1 _ Hv1 Hget). }
  split; [|split; [|split]].
  - rewrite Hroot'. exact Hnd1.
  - cbn [maps]. rewrite length_app. lia.
  - unfold root_level at 1. rewrite Hroot'. cbn [nodes].
    apply deref_alter; assumption.
  - intros _. split; [unfold root; lia|].
    match goal with |- Forall _ ?m => replace m with (@nil (str * nat)) end;
      [constructor|].
    unfold map_of. cbn [maps]. rewrite lookup_app_r by apply le_n.
    rewrite Nat.sub_diag. reflexivity.
Qed.

Lemma add_path_root files st path_ :
  rooted st ->
  rooted (add_path files st path_)
  /\ root_level (add_path files st path_) = top_step files (root_level st) path_.
Proof.
  intros Hst. unfold add_path. rewrite split_seq. cbn [fold_left].
  destruct (segment_root files path_ st Hst) as (Hst' & Hroot & Hbelow).
  destruct (segment files path_ (split "/" path_) (st, root) 0) as [st' cur'].
  cbn [fst snd] in *.
  destruct (flat_key path_) eqn:Hflat.
  - rewrite (split_flat path_ Hflat). cbn [length Nat.sub seq fold_left fst].
    split; assumption.
  - rewrite <- Hroot.
    apply (fold_segment_below files path_ (split "/" path_) _ st' cur' Hst' (Hbelow eq_refl)).
Qed.

Lemma fold_add_path_root files : forall ks st,
  rooted st ->
  rooted (fold_left (add_path files) ks st)
  /\ root_level (fold_left (add_path files) ks st)
     = fold_left (top_step files) ks (root_level st).
Proof.
  induction ks as [|k ks IH]; intros st Hst; cbn [fold_left].
  - split; [exact Hst | reflexivity].
  - destruct (add_path_root files st k Hst) as [Hst' Hroot]. rewrite <- Hroot.
    apply IH, Hst'.
Qed.

Lemma rooted_store0 : rooted store0.
Proof.
  split; [split|split].
  - intros i n. cbn. rewrite lookup_nil. discriminate.
  - intros m mp. cbn. destruct m as [|m]; cbn; [|rewrite ?lookup_nil; discriminate].
    intros H. injection H as H. subst mp. constructor.
  - cbn. apply NoDup_nil_2.
  - cbn. lia.
Qed.

Lemma reify_root_level st fuel :
  good_store st ->
  mapM (reify (S fuel) st) (JSMap.values (map_of st root))
  = Some (map (fun ko => node_of (snd ko)) (root_level st)).
Proof.
  intros [Hc Hv]. unfold root_level, JSMap.values.
  pose proof (map_of_Forall st root Hv) as Hrefs.
  induction Hrefs as [|[k ref] mp Href _ IH]; [reflexivity|].
  cbn [map snd deref fst]. cbn [snd] in Href.
  destruct (lookup_lt_is_Some_2 (nodes st) ref Href) as [o Ho].
  apply mapM_Some_2. constructor.
  - cbn [reify]. rewrite Ho. unfold node_of. cbn [default from_option id].
    unfold id. destruct (Hc _ _ Ho) as [E|E]; rewrite E; reflexivity.
  - apply mapM_Some_1, IH.
Qed.

(** The tree is the root level that the first segments build. *)
Lemma fileMapToTree_root files :
  fileMapToTree files = Some (map (fun ko => node_of (snd ko)) (top_level files)).
Proof.
  unfold fileMapToTree. cbv zeta.
  destruct (fold_add_path_root files (JSMap.keys files) store0 rooted_store0)
    as [[Hgood _] Hroot].
  rewrite (reify_root_level _ _ Hgood), Hroot. reflexivity.
Qed.

End TreeRoot.

Section TreeShape.

Import FileTree.

Lemma first_segment_flat k : flat_key k = true -> first_segment k = k.
Proof. intros H. unfold first_segment. rewrite (split_flat k H). reflexivity. Qed.

Lemma top_step_flat files (top : JSMap.t NodeObj) k v :
  flat_key k = true -> JSMap.has top k = false -> JSMap.get files k = Some v ->
  top_step files top k = top ++ [(k, flat_obj (k, v))].
Proof.
  intros Hflat Hhas Hget. unfold top_step, top_node.
  rewrite (first_segment_flat k Hflat), Hflat, Hhas, Hget.
  apply set_absent, Hhas.
Qed.

Lemma JSMap_get_first {V} (m : JSMap.t V) k v :
  NoDup (JSMap.keys m) -> In (k, v) m -> JSMap.get m k = Some v.
Proof.
  unfold JSMap.keys. induction m as [|[k' v'] m IH]; intros Hnd Hin; [destruct Hin|].
  cbn [map fst] in Hnd. apply NoDup_cons in Hnd as [Hk' Hnd].
  cbn [JSMap.get]. destruct Hin as [[= -> ->]|Hin].
  - rewrite str_eqb_refl. reflexivity.
  - rewrite str_eqb_neq; [apply IH; assumption|].
    intros ->. apply Hk'. apply list_elem_of_In.
    apply (in_map fst) in Hin. exact Hin.
Qed.

Lemma fold_top_step_flat files : forall (todo done : FileMap),
  NoDup (JSMap.keys (done ++ todo)) ->
  forallb flat_key (JSMap.keys todo) = true ->
  (forall k v, In (k, v) todo -> JSMap.get files k = Some v) ->
  fold_left (top_step files) (JSMap.keys todo)
            (map (fun kv => (fst kv, flat_obj kv)) done)
  = map (fun kv => (fst kv, flat_obj kv)) (done ++ todo).
Proof.
  unfold JSMap.keys.
  induction todo as [|[k v] todo IH]; intros done Hnd Hflat Hget.
  - rewrite app_nil_r. reflexivity.
  - cbn [map fst fold_left forallb] in *. apply andb_true_iff in Hflat as [Hk Hflat].
    rewrite (top_step_flat files _ k v Hk).
    + replace (done ++ (k, v) :: todo) with ((done ++ [(k, v)]) ++ todo)
        by (rewrite <- app_assoc; reflexivity).
      rewrite <- (IH (done ++ [(k, v)])).
      * rewrite map_app. reflexivity.
      * rewrite <- app_assoc. exact Hnd.
      * exact Hflat.
      * intros k' v' Hin. apply Hget. right. exact Hin.
    + unfold JSMap.has. rewrite JSMap_get_absent; [reflexivity|].
      unfold JSMap.keys. rewrite map_map. cbn [fst].
      rewrite map_app in Hnd. apply NoDup_app in Hnd as (_ & Hdisj & _).
      intros Hin. apply (Hdisj k); [apply list_elem_of_In, Hin|].
      cbn [map fst]. left.
    + apply Hget. left. reflexivity.
Qed.

Lemma flatten_flat es : flatten (map flat_node es) = JSMap.keys es.
Proof. induction es as [|kv es IH]; [reflexivity|]. cbn. f_equal. exact IH. Qed.

Lemma fileCount_flat es : fileCount (map flat_node es) = JSMap.size es.
Proof.
  unfold fileCount, JSMap.size.
  enough (forall n, fold_left (fun acc c => acc + fileCount_node c) (map flat_node es) n
                    = n + length es) by auto.
  induction es as [|kv es IH]; intros n; cbn [map fold_left length]; [lia|].
  rewrite IH. cbn. lia.
Qed.

(** X12: a map of files that are in no folder makes the round trip.
    For a file map whose keys are distinct and have no slash,
    [fileMapToTree] returns one file node for each entry, in the order of
    the map, with the key as name and as path and the content of the
    entry; collecting the paths of the file nodes of that tree gives the
    keys back, and the file count of the explorer is the size of the
    map. *)
Theorem flat_files_round_trip :
  forall files : FileMap,
    NoDup (JSMap.keys files) ->
    forallb flat_key (JSMap.keys files) = true ->
    fileMapToTree files = Some (map flat_node files)
    /\ flatten (map flat_node files) = JSMap.keys files
    /\ fileCount (map flat_node files) = JSMap.size files.
Proof.
  intros files Hnd Hflat. split; [|split; [apply flatten_flat | apply fileCount_flat]].
  rewrite fileMapToTree_root. f_equal. unfold top_level.
  change (@nil (str * NodeObj)) with (map (fun kv => (fst kv, flat_obj kv)) (@nil (str * str))).
  rewrite (fold_top_step_flat files files []); [|exact Hnd|exact Hflat|].
  - cbn [app]. rewrite map_map. reflexivity.
  - intros k v Hin. apply JSMap_get_first; assumption.
Qed.

Lemma flat_files_round_trip_witness :
  fileMapToTree Samples.flat_files
  = Some [Node (js "README.md") file (js "README.md") (Some (js "r")) None;
          Node (js "index.html") file (js "index.html") (Some (js "h")) None]
  /\ flatten (map flat_node Samples.flat_files) = [js "README.md"; js "index.html"]
  /\ fileCount (map flat_node Samples.flat_files) = 2.
Proof.
  apply (flat_files_round_trip Samples.flat_files).
  - repeat (apply NoDup_cons_2;
            [intros H; apply list_elem_of_In in H; cbn in H; intuition discriminate|]).
    apply NoDup_nil_2.
  - reflexivity.
Defined.

(** X13: the tree is the root level, and only the first segment of a
    path reaches it. For every file map [fileMapToTree] returns a tree,
    and the tree is the one that the paths build, in the order of the
    map, by their first segments alone: a first segment that is new adds
    a node, a file with the content of the path if the path has no other
    segment and a folder otherwise, and a path with more segments gives
    the node of its first segment an empty list of children. What the
    later segments create is reachable from no node of the tree. *)
Theorem tree_is_built_by_first_segments :
  forall files : FileMap,
    fileMapToTree files = Some (map (fun ko => node_of (snd ko)) (top_level files)).
Proof.
  intros files. unfold fileMapToTree, top_level. cbv zeta.
  destruct (fold_add_path_root files (JSMap.keys files) store0 rooted_store0)
    as [[Hgood _] Hroot].
  rewrite (reify_root_level _ _ Hgood), Hroot. reflexivity.
Qed.

(** *** The names at the root *)

Lemma top_step_keys files (top : JSMap.t NodeObj) k :
  JSMap.keys (top_step files top k)
  = if existsb (str_eqb (first_segment k)) (JSMap.keys top) then JSMap.keys top
    else JSMap.keys top ++ [first_segment k].
Proof.
  unfold top_step. rewrite <- JSMap_has_keys.
  set (top1 := if JSMap.has top (first_segment k) then top
               else JSMap.set top (first_segment k) (top_node files k)).
  assert (H1 : JSMap.keys top1
               = if JSMap.has top (first_segment k) then JSMap.keys top
                 else JSMap.keys top ++ [first_segment k]).
  { unfold top1. destruct (JSMap.has top (first_segment k)) eqn:E; [reflexivity|].
    rewrite JSMap_keys_set, E. reflexivity. }
  destruct (flat_key k); [exact H1|].
  destruct (JSMap.get top1 (first_segment k)) as [o|] eqn:Hget; [|exact H1].
  rewrite JSMap_keys_set. unfold JSMap.has at 1. rewrite Hget. exact H1.
Qed.

Lemma top_level_keys files : forall ks (top : JSMap.t NodeObj),
  JSMap.keys (fold_left (top_step files) ks top)
  = fold_left (fun acc k => if existsb (str_eqb k) acc then acc else acc ++ [k])
              (map first_segment ks) (JSMap.keys top).
Proof.
  induction ks as [|k ks IH]; intros top; [reflexivity|].
  cbn [fold_left map]. rewrite IH, top_step_keys. reflexivity.
Qed.

Lemma top_step_names files (top : JSMap.t NodeObj) k :
  Forall (fun ko => name (snd ko) = fst ko) top ->
  Forall (fun ko => name (snd ko) = fst ko) (top_step files top k).
Proof.
  intros Htop. unfold top_step.
  set (top1 := if JSMap.has top (first_segment k) then top
               else JSMap.set top (first_segment k) (top_node files k)).
  assert (H1 : Forall (fun ko => name (snd ko) = fst ko) top1).
  { unfold top1. destruct (JSMap.has top (first_segment k)); [exact Htop|].
    apply JSMap_set_Forall; [exact Htop | reflexivity]. }
  destruct (flat_key k); [exact H1|].
  destruct (JSMap.get top1 (first_segment k)) as [o|] eqn:Hget; [|exact H1].
  apply JSMap_set_Forall; [exact H1|]. cbn [snd fst set_children name].
  apply JSMap_get_In in Hget. rewrite List.Forall_forall in H1.
  apply (H1 _ Hget).
Qed.

Lemma top_level_names files : forall ks (top : JSMap.t NodeObj),
  Forall (fun ko => name (snd ko) = fst ko) top ->
  Forall (fun ko => name (snd ko) = fst ko) (fold_left (top_step files) ks top).
Proof.
  induction ks as [|k ks IH]; intros top Htop; [exact Htop|].
  cbn [fold_left]. apply IH, top_step_names, Htop.
Qed.

(** X22: one node for each first segment. For every file map the tree
    that [fileMapToTree] returns has, at its root, one node for each
    distinct first segment of the paths, named by the segment, in the
    order in which the segments first occur; and no node of the tree has
    a child. *)
Theorem tree_has_one_node_per_first_segment :
  forall files : FileMap,
    exists tree,
      fileMapToTree files = Some tree
      /\ map node_name tree = distinct (map first_segment (JSMap.keys files))
      /\ List.Forall (fun n => node_children n = None \/ node_children n = Some []) tree.
Proof.
  intros files. eexists. split; [apply fileMapToTree_root|]. split.
  - transitivity (JSMap.keys (top_level files));
      [|exact (top_level_keys files (JSMap.keys files) [])].
    pose proof (top_level_names files (JSMap.keys files) [] (List.Forall_nil _)) as Hn.
    fold (top_level files) in Hn. unfold JSMap.keys.
    induction Hn as [|[k o] top Hk _ IH]; [reflexivity|].
    cbn [map snd fst node_of node_name] in *. rewrite Hk, IH. reflexivity.
  - apply List.Forall_forall. intros n Hin. apply in_map_iff in Hin as (ko & <- & _).
    unfold node_of. cbn [node_children].
    destruct (children (snd ko)); [right | left]; reflexivity.
Qed.

(** *** The files of the tree *)

Lemma file_paths_node_of o :
  file_paths (node_of o) = match type o with file => [path o] | folder => [] end.
Proof.
  unfold node_of. cbn [file_paths].
  destruct (type o); [reflexivity|]. destruct (children o); reflexivity.
Qed.

Lemma top_step_files files (all : list str) (top : JSMap.t NodeObj) k :
  In k all ->
  Forall (fun ko => type (snd ko) = file ->
                    In (path (snd ko)) all /\ flat_key (path (snd ko)) = true) top ->
  Forall (fun ko => type (snd ko) = file ->
                    In (path (snd ko)) all /\ flat_key (path (snd ko)) = true)
         (top_step files top k).
Proof.
  intros Hk Htop. unfold top_step.
  set (top1 := if JSMap.has top (first_segment k) then top
               else JSMap.set top (first_segment k) (top_node files k)).
  assert (H1 : Forall (fun ko => type (snd ko) = file ->
                         In (path (snd ko)) all /\ flat_key (path (snd ko)) = true) top1).
  { unfold top1. destruct (JSMap.has top (first_segment k)); [exact Htop|].
    apply JSMap_set_Forall; [exact Htop|]. cbn [snd top_node type path].
    destruct (flat_key k) eqn:Hflat; [|discriminate].
    intros _. rewrite (first_segment_flat k Hflat). split; assumption. }
  destruct (flat_key k); [exact H1|].
  destruct (JSMap.get top1 (first_segment k)) as [o|] eqn:Hget; [|exact H1].
  apply JSMap_set_Forall; [exact H1|]. cbn [snd set_children type path].
  apply JSMap_get_In in Hget. rewrite List.Forall_forall in H1.
  apply (H1 _ Hget).
Qed.

Lemma top_level_files files (all : list str) : forall ks (top : JSMap.t NodeObj),
  (forall k, In k ks -> In k all) ->
  Forall (fun ko => type (snd ko) = file ->
                    In (path (snd ko)) all /\ flat_key (path (snd ko)) = true) top ->
  Forall (fun ko => type (snd ko) = file ->
                    In (path (snd ko)) all /\ flat_key (path (snd ko)) = true)
         (fold_left (top_step files) ks top).
Proof.
  induction ks as [|k ks IH]; intros top Hks Htop; [exact Htop|].
  cbn [fold_left]. apply IH.
  - intros k' Hin. apply Hks. right. exact Hin.
  - apply top_step_files; [apply Hks; left; reflexivity | exact Htop].
Qed.

(** X23: a file in a folder is never listed. For every file map, each
    path that a full traversal of the tree of [fileMapToTree] finds at a
    file node is a key of the map that has no slash: no file whose path
    has a folder is in the tree, and the file count of the explorer
    counts none of them. *)
Theorem files_in_folders_are_not_in_the_tree :
  forall files : FileMap,
    exists tree,
      fileMapToTree files = Some tree
      /\ List.Forall (fun p => In p (JSMap.keys files) /\ flat_key p = true)
                     (flatten tree)
      /\ fileCount tree = length (flatten tree).
Proof.
  intros files. eexists. split; [apply fileMapToTree_root|].
  pose proof (top_level_files files (JSMap.keys files) (JSMap.keys files) []
                (fun k H => H) (List.Forall_nil _)) as Hf.
  fold (top_level files) in Hf.
  induction Hf as [|[k o] top Hk _ [IH1 IH2]].
  - split; [constructor | reflexivity].
  - unfold flatten, fileCount in *. cbn [map flat_map snd fold_left Nat.add] in *.
    rewrite file_paths_node_of. split.
    + apply List.Forall_app. split; [|exact IH1].
      destruct (type o); [|constructor]. constructor; [|constructor].
      apply Hk. reflexivity.
    + rewrite length_app, <- IH2.
      assert (Hacc : forall l n, fold_left (fun acc c => acc + fileCount_node c) l n
                                 = n + fold_left (fun acc c => acc + fileCount_node c) l 0).
      { induction l as [|c l IHl]; intros n; cbn [fold_left]; [lia|].
        rewrite (IHl (n + _)), (IHl (0 + _)). lia. }
      rewrite Hacc. f_equal. unfold node_of. cbn [fileCount_node].
      destruct (type o); [reflexivity|]. destruct (children o); reflexivity.
Qed.

End TreeShape.

(** ** The files of the project after a response *)

Lemma fold_set_get : forall (l m : FileMap) p,
  NoDup (JSMap.keys l) ->
  JSMap.get (fold_left (fun (m : FileMap) (pc : str * str) =>
                          JSMap.set m (fst pc) (snd pc)) l m) p
  = match JSMap.get l p with
    | Some c => Some c
    | None => JSMap.get m p
    end.
Proof.
  induction l as [|[k v] l IH]; intros m p Hnd; [reflexivity|].
  unfold JSMap.keys in Hnd. cbn [map fst] in Hnd. apply NoDup_cons in Hnd as [Hk Hnd].
  cbn [fold_left fst snd JSMap.get]. rewrite IH by exact Hnd.
  rewrite JSMap_get_set.
  destruct (str_eqb p k) eqn:E; [|reflexivity].
  apply str_eqb_eq in E. subst p.
  rewrite JSMap_get_absent; [reflexivity|].
  intros H. apply Hk, list_elem_of_In, H.
Qed.

Lemma fold_base_get (art : FileMap) : forall (base m : FileMap) p,
  JSMap.get (fold_left (fun (newFiles : FileMap) (pc : str * str) =>
                          if negb (JSMap.has newFiles (fst pc))
                             && negb (JSMap.has art (fst pc))
                          then JSMap.set newFiles (fst pc) (snd pc)
                          else newFiles) base m) p
  = match JSMap.get m p with
    | Some c => Some c
    | None => if JSMap.has art p then None else JSMap.get base p
    end.
Proof.
  induction base as [|[k v] base IH]; intros m p.
  - cbn. destruct (JSMap.get m p); [|destruct (JSMap.has art p)]; reflexivity.
  - cbn [fold_left fst snd]. rewrite IH. cbn [JSMap.get].
    destruct (str_eqb p k) eqn:E.
    + apply str_eqb_eq in E. subst p. unfold JSMap.has.
      destruct (JSMap.get m k) eqn:Hm; cbn [negb andb]; [rewrite Hm; reflexivity|].
      destruct (JSMap.get art k) eqn:Ha; cbn [negb andb].
      * rewrite Hm. reflexivity.
      * rewrite JSMap_get_set, str_eqb_refl. reflexivity.
    + destruct (negb (JSMap.has m k) && negb (JSMap.has art k)); [|reflexivity].
      rewrite JSMap_get_set, E. reflexivity.
Qed.

(** X24: which content a path has after a response with files. In the
    map that [handleSendMessage] loads, the path of the editable runtime
    has the runtime script, whatever the artifact or the project had
    there; any other path has the content of the artifact if the
    artifact has the path, else the content the project had, else the
    content of the base project, and is absent if none of the three has
    it. The keys of the artifact are distinct, as those of a [Map]
    are. *)
Theorem mergeFiles_content :
  forall (files artifactFiles baseProject : FileMap) (runtime p : str),
    NoDup (JSMap.keys artifactFiles) ->
    JSMap.get (mergeFiles files artifactFiles baseProject runtime) p =
      if str_eqb p runtime_path then Some runtime
      else match JSMap.get artifactFiles p with
           | Some c => Some c
           | None =>
               match JSMap.get files p with
               | Some c => Some c
               | None => JSMap.get baseProject p
               end
           end.
Proof.
  intros files art base runtime p Hnd. unfold mergeFiles. rewrite JSMap_get_set.
  destruct (str_eqb p runtime_path); [reflexivity|].
  rewrite fold_set_get by exact Hnd. rewrite fold_base_get.
  unfold JSMap.has. destruct (JSMap.get art p); reflexivity.
Qed.

Lemma mergeFiles_content_witness :
  JSMap.get (mergeFiles Samples.project_files Samples.artifact_files
               Samples.base_project (js "script"))
            runtime_path
  = Some (js "script").
Proof.
  apply (mergeFiles_content Samples.project_files Samples.artifact_files
           Samples.base_project (js "script") runtime_path).
  repeat (apply NoDup_cons_2;
          [intros H; apply list_elem_of_In in H; cbn in H; intuition discriminate|]).
  apply NoDup_nil_2.
Defined.

(** ** The log of the container *)

Lemma slice_last_short {A} n (a : list A) : length a <= n -> slice_last n a = a.
Proof.
  intros H. unfold slice_last. replace (length a - n) with 0 by lia. reflexivity.
Qed.

Lemma addLog_slice {A} (prev : list A) log :
  addLog prev log = slice_last MAX_LOGS (prev ++ [log]).
Proof.
  unfold addLog. cbv zeta. destruct (MAX_LOGS <? length (prev ++ [log])) eqn:E.
  - reflexivity.
  - apply Nat.ltb_ge in E. symmetry. apply slice_last_short, E.
Qed.

Lemma slice_last_snoc {A} n (a : list A) x :
  1 <= n -> slice_last n (slice_last n a ++ [x]) = slice_last n (a ++ [x]).
Proof.
  intros Hn. unfold slice_last. rewrite !length_app, length_skipn. cbn [length].
  destruct (Nat.le_gt_cases (length a) n) as [Hle|Hgt].
  - replace (length a - n) with 0 by lia. cbn [skipn].
    replace (length a - 0 + 1 - n) with (length a + 1 - n) by lia. reflexivity.
  - replace (length a - (length a - n) + 1 - n) with 1 by lia.
    replace (length a + 1 - n) with (S (length a - n)) by lia.
    rewrite !skipn_app.
    replace (1 - length (skipn (length a - n) a)) with 0 by (rewrite length_skipn; lia).
    replace (S (length a - n) - length a) with 0 by lia.
    rewrite skipn_skipn. reflexivity.
Qed.

(** X25: the log keeps the last hundred entries. After any sequence of
    calls of [addLog] on an empty log, the log holds the last [MAX_LOGS]
    of the entries that were added, in the order in which they were
    added, and all of them if they are fewer; it never holds more than
    [MAX_LOGS]. *)
Theorem log_keeps_the_last_entries :
  forall (A : Type) (logs : list A),
    fold_left addLog logs [] = slice_last MAX_LOGS logs
    /\ length (fold_left addLog logs []) = Nat.min (length logs) MAX_LOGS.
Proof.
  intros A logs.
  assert (H : fold_left addLog logs [] = slice_last MAX_LOGS logs).
  { induction logs as [|x logs IH] using rev_ind; [reflexivity|].
    rewrite fold_left_app. cbn [fold_left]. rewrite IH, addLog_slice.
    apply slice_last_snoc. unfold MAX_LOGS. lia. }
  split; [exact H|]. rewrite H. unfold slice_last. rewrite length_skipn. lia.
Qed.
